(** * idne: the batch generator of [idne/models/data_generator.py]

    A shallow embedding of [RandomChoice], [MultipleRandomChoice],
    [generate_batches] and [async_batches], with the properties of the
    sampling and batching pipeline proved over it.

    A shallow embedding of the two loops of [generate_test_set_nodes]
    that build the test pairs and the training pairs of
    [idne/eval/link_prediction_new.py] follows it.

    Conventions of the embedding.
    - Floating-point numbers (float32 and float64 arrays) are exact
      rationals [Q]: rounding, overflow and underflow are left out.  The
      properties stated of the samplers are those of the order of the
      values in a table and of the positions of the stored entries, which
      rounding keeps; nothing is stated of the exact value of a sum or of
      a quotient.
    - In floating point the normalisation of a row can leave a stored
      zero behind (a row sum that overflows, a quotient that underflows),
      which the rationals cannot show; the first loop of the constructor
      raises IndexError on such a matrix, which is proved of the loop
      over any matrix.  The properties of a sampler are therefore stated
      of a constructor that has returned.
    - Where numpy would produce a NaN or an infinity with a warning (a
      division by a zero sum), evaluation stops with the outcome
      [NonFinite].
    - Node indices (int32 arrays) are natural numbers.
    - The process-wide generator [np.random] is an explicit state threaded
      through every draw: an infinite tape of raw words and a read position.
    - Python exceptions are the [Raise] outcomes of a small error monad. *)

From Stdlib Require Import List Arith Bool ZArith NArith QArith Qabs Lia Permutation Sorted.
Import ListNotations.

Set Implicit Arguments.
Local Open Scope nat_scope.

(** ** Exceptions and results *)

Inductive exn : Type :=
| IndexError      (* sequence index out of range *)
| ValueError      (* np.random.randint out of its bounds, sklearn's
                     normalize on a matrix without a row *)
| NonFinite.      (* a division by zero: numpy's inf and NaN, which the
                     rationals do not have *)

Inductive result (A : Type) : Type :=
| Ok (a : A)
| Raise (e : exn).

Arguments Ok {A} a.
Arguments Raise {A} e.

Definition rbind {A B} (c : result A) (k : A -> result B) : result B :=
  match c with
  | Ok a => k a
  | Raise e => Raise e
  end.

Notation "'let*' x ':=' c 'in' k" := (rbind c (fun x => k))
  (at level 10, x pattern, c at level 100, k at level 200).

(** [a[i]] on a Python list or a numpy array, for a non-negative [i]. *)
Definition getitem {A} (a : list A) (i : nat) : result A :=
  match nth_error a i with
  | Some x => Ok x
  | None => Raise IndexError
  end.

Fixpoint update {A} (a : list A) (i : nat) (v : A) : list A :=
  match a, i with
  | [], _ => []
  | _ :: t, O => v :: t
  | h :: t, S i' => h :: update t i' v
  end.

(** [a[i] = v]. *)
Definition setitem {A} (a : list A) (i : nat) (v : A) : result (list A) :=
  if i <? length a then Ok (update a i v) else Raise IndexError.

(** [a[i].append(v)] on a list of lists. *)
Definition append_at {A} (a : list (list A)) (i : nat) (v : A)
  : result (list (list A)) :=
  let* ai := getitem a i in
  setitem a i (ai ++ [v]).

(** [for i in l: s = body(i, s)], stopping at the first exception. *)
Fixpoint for_each {S} (l : list nat) (body : nat -> S -> result S) (s : S)
  : result S :=
  match l with
  | [] => Ok s
  | i :: l' => let* s' := body i s in for_each l' body s'
  end.

(** ** The numpy operations the module calls *)

Module Numpy.

Definition arange (n : nat) : list nat := seq 0 n.

(** [np.array(l, dtype=...)] of a list or an array: the same items. *)
Definition array {A} (l : list A) : list A := l.

Definition ones (n : nat) : list Q := repeat 1%Q n.

Definition zeros (n : nat) : list nat := repeat 0%nat n.

Definition neg (a : list Q) : list Q := map Qopp a.

Definition hstack {A} (a b : list A) : list A := a ++ b.

(** [np.tile(a, reps)] on a one-dimensional array. *)
Fixpoint tile {A} (a : list A) (reps : nat) : list A :=
  match reps with
  | O => []
  | S r => a ++ tile a r
  end.

Definition sum (p : list Q) : Q := fold_right Qplus 0%Q p.

Fixpoint cumsum_from (acc : Q) (p : list Q) : list Q :=
  match p with
  | [] => []
  | x :: t => (acc + x)%Q :: cumsum_from (acc + x)%Q t
  end.

Definition cumsum (p : list Q) : list Q := cumsum_from 0%Q p.

(** [a[idx]] with an index array: one lookup per index. *)
Fixpoint take {A} (a : list A) (idx : list nat) : result (list A) :=
  match idx with
  | [] => Ok []
  | i :: idx' =>
      let* x := getitem a i in
      let* xs := take a idx' in
      Ok (x :: xs)
  end.

(** [a.searchsorted(v, side='right')]: numpy's binary search.  The probe
    [a[mid] <= v] moves the lower end, so that the result [i] has
    [a[i-1] <= v < a[i]]. *)
Fixpoint binsearch_right (fuel : nat) (a : list Q) (v : Q) (lo hi : nat)
  : nat :=
  match fuel with
  | O => lo
  | S fuel' =>
      if lo <? hi then
        let mid := lo + (hi - lo) / 2 in
        if Qle_bool (nth mid a 0%Q) v
        then binsearch_right fuel' a v (S mid) hi
        else binsearch_right fuel' a v lo mid
      else lo
  end.

Definition searchsorted_right (a : list Q) (v : Q) : nat :=
  binsearch_right (length a) a v 0 (length a).

(** *** np.random: the global generator as an explicit state *)

Record RandomState : Type := mkRandomState {
  tape : nat -> N;     (* the raw words still to come, by position *)
  pos : nat            (* how many were consumed *)
}.

(** Computations that draw from the generator and may raise.  The
    generator keeps what was consumed when an exception is raised. *)
Definition M (A : Type) : Type := RandomState -> result A * RandomState.

Definition ret {A} (a : A) : M A := fun st => (Ok a, st).

Definition raise {A} (e : exn) : M A := fun st => (Raise e, st).

Definition bind {A B} (c : M A) (k : A -> M B) : M B :=
  fun st =>
    match c st with
    | (Ok a, st') => k a st'
    | (Raise e, st') => (Raise e, st')
    end.

Definition lift {A} (r : result A) : M A := fun st => (r, st).

Definition next_word : M N :=
  fun st => (Ok (tape st (pos st)), mkRandomState (tape st) (S (pos st))).

Fixpoint next_words (n : nat) : M (list N) :=
  match n with
  | O => ret []
  | S n' =>
      bind next_word (fun w =>
      bind (next_words n') (fun ws => ret (w :: ws)))
  end.

Definition two53 : positive := 9007199254740992.

(** [np.random.random_sample(1)[0]]: a 53-bit integer over 2^53, a double
    of the half-open interval [0, 1). *)
Definition random_sample : M Q :=
  bind next_word (fun w =>
  ret (Qmake (Z.of_N (N.modulo w (Npos two53))) two53)).

(** The largest [high] that [np.int32] allows: 2^31. *)
Definition int32_high : N := 2147483648.

(** [np.random.randint(low, high, size, dtype=np.int32)]: [size] integers
    of [low, high); a ValueError when the interval is empty or when [high]
    is out of the bounds of [np.int32]. *)
Definition randint (low high size : nat) : M (list nat) :=
  if (high <=? low) || (int32_high <? N.of_nat high)%N then raise ValueError
  else
    bind (next_words size) (fun ws =>
    ret (map (fun w => low + N.to_nat (N.modulo w (N.of_nat (high - low)))) ws)).

Definition swap {A} (x : list A) (i j : nat) : list A :=
  match nth_error x i, nth_error x j with
  | Some a, Some b => update (update x i b) j a
  | _, _ => x
  end.

(** [np.random.shuffle(x)]: for [i] from [len(x) - 1] down to [1], swap
    [x[i]] with [x[j]] for a drawn [j] of [0, i]. *)
Fixpoint shuffle_from {A} (i : nat) (x : list A) : M (list A) :=
  match i with
  | O => ret x
  | S i' =>
      bind next_word (fun w =>
      shuffle_from i' (swap x i (N.to_nat (N.modulo w (N.of_nat (S i))))))
  end.

Definition shuffle {A} (x : list A) : M (list A) :=
  shuffle_from (length x - 1) x.

End Numpy.

Import Numpy.

Notation "x <- c ;; k" := (bind c (fun x => k))
  (at level 61, c at next level, right associativity).

(** ** Sparse matrices: scipy's CSR format and sklearn's normalisation *)

Module Sparse.

(** A CSR matrix of floats: for each row, in storage order, its stored
    (column, value) entries.  [shape[0]] is the number of rows. *)
Definition csr_matrix : Type := list (list (nat * Q)).

Definition shape0 (mat : csr_matrix) : nat := length mat.

Definition is_nonzero (v : Q) : bool := negb (Qeq_bool v 0).

(** [mat.eliminate_zeros()]: drops the stored zeros, in place. *)
Definition eliminate_zeros (mat : csr_matrix) : csr_matrix :=
  map (filter (fun e => is_nonzero (snd e))) mat.

(** [mat.tocoo()]: the stored entries as (row, column, value), in storage
    order. *)
Fixpoint tocoo_from (i : nat) (mat : csr_matrix) : list (nat * nat * Q) :=
  match mat with
  | [] => []
  | r :: mat' => map (fun e => (i, fst e, snd e)) r ++ tocoo_from (S i) mat'
  end.

Definition tocoo (mat : csr_matrix) : list (nat * nat * Q) :=
  tocoo_from 0 mat.

(** [mat.nonzero()]: rows and columns of the entries whose value is not
    zero. *)
Definition nonzero (mat : csr_matrix) : list nat * list nat :=
  let A := filter (fun e => is_nonzero (snd e)) (tocoo mat) in
  (map (fun e => fst (fst e)) A, map (fun e => snd (fst e)) A).

(** [mat.data]: every stored value, zero or not. *)
Definition data (mat : csr_matrix) : list Q := map snd (tocoo mat).

Definition row_norm_l1 (r : list (nat * Q)) : Q :=
  sum (map (fun e => Qabs (snd e)) r).

Definition normalize_row (r : list (nat * Q)) : list (nat * Q) :=
  let s := row_norm_l1 r in
  if Qeq_bool s 0 then r else map (fun e => (fst e, (snd e / s)%Q)) r.

(** sklearn's [inplace_csr_row_normalize_l1]: every row of non-zero norm
    is divided by its L1 norm, in place. *)
Definition inplace_csr_row_normalize_l1 (mat : csr_matrix) : csr_matrix :=
  map normalize_row mat.

(** sklearn's [check_array] on a CSR matrix of floats: a ValueError when
    the matrix has no row (a matrix of the data model is square, and has
    a column when it has a row). *)
Definition check_array (mat : csr_matrix) : result csr_matrix :=
  match mat with
  | [] => Raise ValueError
  | _ :: _ => Ok mat
  end.

(** [sklearn.preprocessing.normalize(mat, axis=1, norm='l1', copy=False)]
    on a CSR matrix of floats: the matrix is checked, normalised in place
    and returned. *)
Definition normalize_l1 (mat : csr_matrix) : result csr_matrix :=
  let* mat := check_array mat in
  Ok (inplace_csr_row_normalize_l1 mat).

(** The dense reading [mat[i, j]]: stored duplicates add up, and what is
    not stored is zero. *)
Definition entry (mat : csr_matrix) (i j : nat) : Q :=
  sum (map snd (filter (fun e => fst e =? j) (nth i mat []))).

End Sparse.

Import Sparse.

(** [a /= d] on a float array.  On a zero divisor numpy gives NaN or an
    infinity with a warning; the rationals have neither, and evaluation
    stops. *)
Definition div_array (a : list Q) (d : Q) : result (list Q) :=
  match a with
  | [] => Ok []
  | _ :: _ =>
      if Qeq_bool d 0 then Raise NonFinite
      else Ok (map (fun x => (x / d)%Q) a)
  end.

(** ** class RandomChoice *)

Module RandomChoice.

Record t : Type := mk { cdf : list Q }.

(** [__init__(self, p)].  [self.cdf[-1]] is the last item and raises on
    an empty array. *)
Definition init (p : list Q) : result t :=
  let* p := div_array p (sum p) in
  let c := cumsum p in
  let* last := getitem c (length c - 1) in
  let* c := div_array c last in
  Ok (mk c).

Definition get (self : t) : M nat :=
  uniform_sample <- random_sample ;;
  ret (searchsorted_right (cdf self) uniform_sample).

End RandomChoice.

(** ** class MultipleRandomChoice *)

Module MultipleRandomChoice.

Record t : Type := mk {
  nodes_number : nat;
  choices : list (list nat);
  rc : list RandomChoice.t
}.

(** The local state of the first loop of [__init__]: the cursor [k] into
    the stored entries, and the lists [choices] and [probs]. *)
Definition rows_state : Type := (nat * list (list nat) * list (list Q))%type.

Section Rows.

Variables (nonzero0 nonzero1 : list nat) (data : list Q) (K : nat).

(** [while k < K and nonzero[0][k] == i: choices[i].append(nonzero[1][k]);
    probs[i].append(data[k]); k += 1].  The loop runs at most [K - k]
    times, which is the fuel it is given. *)
Fixpoint while_row (fuel : nat) (i k : nat)
  (choices : list (list nat)) (probs : list (list Q)) : result rows_state :=
  match fuel with
  | O => Ok (k, choices, probs)
  | S fuel' =>
      if k <? K then
        let* r := getitem nonzero0 k in
        if r =? i then
          let* c := getitem nonzero1 k in
          let* choices := append_at choices i c in
          let* d := getitem data k in
          let* probs := append_at probs i d in
          while_row fuel' i (S k) choices probs
        else Ok (k, choices, probs)
      else Ok (k, choices, probs)
  end.

(** The two conversions that end an iteration:
    [choices[i] = np.array(choices[i], ...)] and the same on [probs]. *)
Definition to_arrays (i : nat) (s : rows_state) : result rows_state :=
  let '(k, choices, probs) := s in
  let* ci := getitem choices i in
  let* choices := setitem choices i (array ci) in
  let* pi := getitem probs i in
  let* probs := setitem probs i (array pi) in
  Ok (k, choices, probs).

Definition row_body (i : nat) (s : rows_state) : result rows_state :=
  let '(k, choices, probs) := s in
  let choices := choices ++ [[]] in
  let probs := probs ++ [[]] in
  if K <=? k then
    let* choices := setitem choices i (array [i]) in
    let* probs := setitem probs i (array [1%Q]) in
    Ok (k, choices, probs)
  else
    let* r := getitem nonzero0 k in
    if i <? r then
      let* choices := setitem choices i [i] in
      let* probs := setitem probs i (array [1%Q]) in
      to_arrays i (k, choices, probs)
    else
      let* s' := while_row (K - k) i k choices probs in
      to_arrays i s'.

End Rows.

(** The second loop: [self.rc.append(RandomChoice(probs[i]))]. *)
Definition rc_body (probs : list (list Q)) (i : nat)
  (rc : list RandomChoice.t) : result (list RandomChoice.t) :=
  let* p := getitem probs i in
  let* r := RandomChoice.init p in
  Ok (rc ++ [r]).

(** The first loop of [__init__], from [nonzero = ...] on: it ends with
    [k], [choices] and [probs]. *)
Definition first_loop (transition_probs : csr_matrix) (nodes_number : nat)
  : result rows_state :=
  let nonzero := nonzero transition_probs in
  let data := data transition_probs in
  let K := length data in
  for_each (seq 0 nodes_number)
    (row_body (fst nonzero) (snd nonzero) data K) (0, [], []).

(** [__init__(self, mat)].  The matrix is an object shared with the
    caller and both library calls work in place, so that the result
    carries the new contents of [mat] next to the sampler. *)
Definition init (mat : csr_matrix) : result (csr_matrix * t) :=
  let mat := eliminate_zeros mat in
  let nodes_number := shape0 mat in
  let* mat := normalize_l1 mat in
  let transition_probs := mat in
  let* (_, choices, probs) := first_loop transition_probs nodes_number in
  let* rc := for_each (seq 0 nodes_number) (rc_body probs) [] in
  Ok (mat, mk nodes_number choices rc).

(** [__getitem__(self, arg)]: [self.choices[arg][self.rc[arg].get()]]. *)
Definition getitem (self : t) (arg : nat) : M nat :=
  ch <- lift (getitem (choices self) arg) ;;
  r <- lift (getitem (rc self) arg) ;;
  idx <- RandomChoice.get r ;;
  lift (getitem ch idx).

End MultipleRandomChoice.

(** [for i in l: s = body(i, s)] where the body draws from the generator. *)
Fixpoint for_eachM {S} (l : list nat) (body : nat -> S -> M S) (s : S) : M S :=
  match l with
  | [] => ret s
  | i :: l' => s' <- body i s ;; for_eachM l' body s'
  end.

(** ** generate_batches *)

(** A batch: the arrays [(batch_u, batch_v, batch_x)]. *)
Definition batch : Type := (list nat * list nat * list Q)%type.

Section Iteration.

Variables (number_nodes : nat) (random_choice : MultipleRandomChoice.t).
Variables (number_negative batch_size : nat).

(** [batch_v[j] = random_choice[batch_u[j]]]. *)
Definition positive_body (batch_u : list nat) (j : nat) (batch_v : list nat)
  : M (list nat) :=
  u <- lift (getitem batch_u j) ;;
  v <- MultipleRandomChoice.getitem random_choice u ;;
  lift (setitem batch_v j v).

(** The body of the outer loop up to [batch_x]: the three arrays before
    they are shuffled. *)
Definition assemble : M batch :=
  drawn <- randint 0 number_nodes batch_size ;;
  let batch_u := tile drawn (number_negative + 1) in
  let batch_v := zeros batch_size in
  batch_v <- for_eachM (seq 0 batch_size) (positive_body batch_u) batch_v ;;
  negatives <- randint 0 number_nodes (batch_size * number_negative) ;;
  let batch_v := hstack batch_v negatives in
  let batch_x :=
    hstack (ones batch_size) (neg (ones (batch_size * number_negative))) in
  ret (batch_u, batch_v, batch_x).

(** [shuind] and the three indexings [batch_u[shuind], batch_v[shuind],
    batch_x[shuind]]. *)
Definition shuffled (b : batch) : M batch :=
  let '(batch_u, batch_v, batch_x) := b in
  shuind <- shuffle (arange (length batch_x)) ;;
  u <- lift (take batch_u shuind) ;;
  v <- lift (take batch_v shuind) ;;
  x <- lift (take batch_x shuind) ;;
  ret (u, v, x).

Definition iteration : M batch :=
  b <- assemble ;;
  shuffled b.

End Iteration.

(** What a call of [next] on a generator gives. *)
Inductive outcome : Type :=
| Yield (b : batch)
| StopIteration
| Error (e : exn).

(** The generator object of [generate_batches]: created (nothing has run),
    suspended at the [yield] of iteration [i], or finished.  [X] is the
    matrix object as it stands; [available_nodes] and [probs] are computed
    and never read, and have no place in the frame.  The [except
    StopIteration] around the [yield] is for a caller that throws into the
    generator; the callers here only call [next]. *)
Inductive generator : Type :=
| Created (X : csr_matrix) (number_negative number_iterations batch_size : nat)
| Suspended (X : csr_matrix) (number_nodes : nat)
    (random_choice : MultipleRandomChoice.t)
    (number_negative number_iterations batch_size : nat) (i : nat)
| Finished.

Definition generate_batches (X : csr_matrix)
  (number_negative number_iterations batch_size : nat) : generator :=
  Created X number_negative number_iterations batch_size.

(** The [for] loop entered at index [i]. *)
Definition loop_from (X : csr_matrix) (number_nodes : nat)
  (random_choice : MultipleRandomChoice.t)
  (number_negative number_iterations batch_size : nat) (i : nat)
  : RandomState -> outcome * generator * RandomState :=
  fun st =>
    if i <? number_iterations then
      match iteration number_nodes random_choice number_negative batch_size st with
      | (Ok b, st') =>
          (Yield b,
           Suspended X number_nodes random_choice
             number_negative number_iterations batch_size i,
           st')
      | (Raise e, st') => (Error e, Finished, st')
      end
    else (StopIteration, Finished, st).

Definition generator_next (g : generator)
  : RandomState -> outcome * generator * RandomState :=
  fun st =>
    match g with
    | Created X number_negative number_iterations batch_size =>
        let number_nodes := shape0 X in
        match MultipleRandomChoice.init X with
        | Ok (X', random_choice) =>
            loop_from X' number_nodes random_choice
              number_negative number_iterations batch_size 0 st
        | Raise e => (Error e, Finished, st)
        end
    | Suspended X number_nodes random_choice
        number_negative number_iterations batch_size i =>
        loop_from X number_nodes random_choice
          number_negative number_iterations batch_size (S i) st
    | Finished => (StopIteration, Finished, st)
    end.

(** ** async_batches *)

(** The truth value of a batch in [while current_batch]: a tuple of three
    items is true. *)
Definition truth (current_batch : batch) : bool := true.

(** The generator object of [async_batches].  When it is suspended at its
    [yield], the call [it.__next__] handed to the pool has its result in
    [async_result]: the worker is the only reader of the random state, so
    that it draws what a direct call would draw.  The call is run here as
    it is handed to the pool; in the code it runs in the worker while the
    caller goes on, and [get()] waits for it: what is handed out is the
    same, and when the worker draws is not modelled. *)
Inductive async_generator : Type :=
| ACreated (X : csr_matrix) (number_negative number_iterations batch_size : nat)
| ASuspended (it : generator) (async_result : outcome)
| AFinished.

Definition async_batches (X : csr_matrix)
  (number_negative number_iterations batch_size : nat) : async_generator :=
  ACreated X number_negative number_iterations batch_size.

(** The [while] loop entered with [current_batch]. *)
Definition async_loop (current_batch : batch) (it : generator)
  : RandomState -> outcome * async_generator * RandomState :=
  fun st =>
    if truth current_batch then
      let '(async_result, it', st') := generator_next it st in
      (Yield current_batch, ASuspended it' async_result, st')
    else (StopIteration, AFinished, st).

Definition async_next (a : async_generator)
  : RandomState -> outcome * async_generator * RandomState :=
  fun st =>
    match a with
    | ACreated X number_negative number_iterations batch_size =>
        let it := generate_batches X number_negative number_iterations batch_size in
        match generator_next it st with
        | (Yield current_batch, it', st') => async_loop current_batch it' st'
        | (StopIteration, _, st') => (StopIteration, AFinished, st')
        | (Error e, _, st') => (Error e, AFinished, st')
        end
    | ASuspended it async_result =>
        match async_result with
        | Yield current_batch => async_loop current_batch it st
        | StopIteration => (StopIteration, AFinished, st)
        | Error e => (Error e, AFinished, st)
        end
    | AFinished => (StopIteration, AFinished, st)
    end.

(** The outcomes of [n] successive calls of [next]. *)
Fixpoint run {G} (next : G -> RandomState -> outcome * G * RandomState)
  (n : nat) (g : G) (st : RandomState) : list outcome :=
  match n with
  | O => []
  | S n' => let '(o, g', st') := next g st in o :: run next n' g' st'
  end.

(** ** generate_test_set_nodes: the training pairs

    The part of [generate_test_set_nodes] of [idne/eval/link_prediction_new.py]
    that works on [adjacency_matrix_train] once it is built: the dictionary
    [non_zer_sets_train] and the loop that fills [x_train] and
    [y_true_train]. *)

Module LinkPrediction.

(** What is raised here: the KeyError of a dictionary, or an exception of
    numpy. *)
Inductive raised : Type :=
| KeyError
| Numpy (e : exn).

(** The answer of a computation with a [while] loop: a value, an
    exception, or still running when the fuel given to the loop is
    spent. *)
Inductive answer (A : Type) : Type :=
| Returned (a : A)
| Raised (e : raised)
| Running.

Arguments Returned {A} a.
Arguments Raised {A} e.
Arguments Running {A}.

Definition L (A : Type) : Type := RandomState -> answer A * RandomState.

Definition lret {A} (a : A) : L A := fun st => (Returned a, st).

Definition lbind {A B} (c : L A) (k : A -> L B) : L B :=
  fun st =>
    match c st with
    | (Returned a, st') => k a st'
    | (Raised e, st') => (Raised e, st')
    | (Running, st') => (Running, st')
    end.

(** [np.random.randint(low, high)]: one integer of [low, high); a
    ValueError when the interval is empty. *)
Definition randint_scalar (low high : nat) : L nat :=
  fun st =>
    if high <=? low then (Raised (Numpy ValueError), st)
    else
      (Returned (low + N.to_nat (N.modulo (tape st (pos st))
                                   (N.of_nat (high - low)))),
       mkRandomState (tape st) (S (pos st))).

(** [np.random.randint(low, high, dtype=np.int32)]: a ValueError also
    when [high] is out of the bounds of [np.int32]. *)
Definition randint_int32 (low high : nat) : L nat :=
  fun st =>
    if (int32_high <? N.of_nat high)%N then (Raised (Numpy ValueError), st)
    else randint_scalar low high st.

(** A dictionary from nodes to sets of nodes, its keys in insertion
    order. *)
Definition node_sets : Type := list (nat * list nat).

Fixpoint lookup (d : node_sets) (k : nat) : option (list nat) :=
  match d with
  | [] => None
  | (k', s) :: d' => if k' =? k then Some s else lookup d' k
  end.

(** [d.setdefault(k, set())]. *)
Definition setdefault (d : node_sets) (k : nat) : node_sets :=
  match lookup d k with
  | Some _ => d
  | None => d ++ [(k, [])]
  end.

(** [v in s] and [s.add(v)] on a set. *)
Definition set_mem (v : nat) (s : list nat) : bool := existsb (Nat.eqb v) s.

Definition set_add (s : list nat) (v : nat) : list nat :=
  if set_mem v s then s else s ++ [v].

(** [d[k].add(v)]: [None] is the KeyError of [d[k]]. *)
Fixpoint add_at (d : node_sets) (k v : nat) : option node_sets :=
  match d with
  | [] => None
  | (k', s) :: d' =>
      if k' =? k then Some ((k', set_add s v) :: d')
      else option_map (cons (k', s)) (add_at d' k v)
  end.

(** The body of the loop over the (row, column) pairs of
    [adjacency_matrix_train.nonzero()]. *)
Definition sets_body (ij : nat * nat) (d : node_sets) : option node_sets :=
  let '(i, j) := ij in
  let d := setdefault d i in
  let d := setdefault d j in
  match add_at d i j with
  | Some d => add_at d j i
  | None => None
  end.

Fixpoint build_sets (l : list (nat * nat)) (d : node_sets) : option node_sets :=
  match l with
  | [] => Some d
  | ij :: l' =>
      match sets_body ij d with
      | Some d' => build_sets l' d'
      | None => None
      end
  end.

(** The test of the [while] loop:
    [false_i == false_j or false_j in non_zer_sets_train[false_i]]; the
    dictionary is read only when the two nodes differ. *)
Definition rejected (sets : node_sets) (false_i false_j : nat) : answer bool :=
  if false_i =? false_j then Returned true
  else
    match lookup sets false_i with
    | Some s => Returned (set_mem false_j s)
    | None => Raised KeyError
    end.

(** [while ...: false_j = np.random.randint(0, n, dtype=np.int32)], with
    fuel for the tests of the loop. *)
Fixpoint redraw (fuel : nat) (n : nat) (sets : node_sets)
  (false_i false_j : nat) : L nat :=
  match fuel with
  | O => fun st => (Running, st)
  | S fuel' =>
      match rejected sets false_i false_j with
      | Returned true =>
          lbind (randint_int32 0 n) (fun false_j' =>
          redraw fuel' n sets false_i false_j')
      | Returned false => lret false_j
      | Raised e => fun st => (Raised e, st)
      | Running => fun st => (Running, st)
      end
  end.

(** The lists [x_train] and [y_true_train]. *)
Definition pairs : Type := (list (nat * nat) * list bool)%type.

(** The body of the loop over the stored entries [(i, j, d)]. *)
Definition train_body (fuel n : nat) (sets : node_sets)
  (e : nat * nat * Q) (acc : pairs) : L pairs :=
  let '(i, j, _) := e in
  let '(x_train, y_true_train) := acc in
  let x_train := x_train ++ [(i, j)] in
  let y_true_train := y_true_train ++ [true] in
  let false_i := i in
  lbind (randint_int32 0 n) (fun false_j =>
  lbind (redraw fuel n sets false_i false_j) (fun false_j =>
  lret (x_train ++ [(false_i, false_j)], y_true_train ++ [false]))).

Fixpoint train_loop (fuel n : nat) (sets : node_sets)
  (entries : list (nat * nat * Q)) (acc : pairs) : L pairs :=
  match entries with
  | [] => lret acc
  | e :: entries' =>
      lbind (train_body fuel n sets e acc) (fun acc' =>
      train_loop fuel n sets entries' acc')
  end.

(** From [non_zer_sets_train = dict()] to the end of the loop over the
    entries of [adjacency_matrix_train]; every [while] loop is given
    [fuel]. *)
Definition train_pairs (fuel : nat) (adjacency_matrix_train : csr_matrix)
  : L pairs :=
  let nz := nonzero adjacency_matrix_train in
  let ij := combine (fst nz) (snd nz) in
  match build_sets ij [] with
  | None => fun st => (Raised KeyError, st)
  | Some non_zer_sets_train =>
      train_loop fuel (shape0 adjacency_matrix_train) non_zer_sets_train
        (combine ij (data adjacency_matrix_train)) ([], [])
  end.

(** *** The test pairs

    The dictionary [non_zer_sets] is filled by the same loop as
    [non_zer_sets_train], over the whole matrix: [build_sets] on its
    non-zero pairs.  [keep_mask] is the mask that the function drew
    before. *)

(** [mask.nonzero()[0]]: the positions that hold True, in order. *)
Definition flatnonzero (mask : list bool) : list nat :=
  filter (fun k => nth k mask false) (seq 0 (length mask)).

(** [np.logical_not(mask)]. *)
Definition logical_not (mask : list bool) : list bool := map negb mask.

(** [keep_mask[i]]. *)
Definition mask_at (mask : list bool) (i : nat) : L bool :=
  fun st =>
    match nth_error mask i with
    | Some b => (Returned b, st)
    | None => (Raised (Numpy IndexError), st)
    end.

(** [np.random.choice(a=a)]: one element of [a], at a drawn position; a
    ValueError when [a] is empty. *)
Definition choice (a : list nat) : L nat :=
  match a with
  | [] => fun st => (Raised (Numpy ValueError), st)
  | _ :: _ => lbind (randint_scalar 0 (length a)) (fun idx => lret (nth idx a 0))
  end.

(** [while false_i == false_j or false_j in non_zer_sets[false_i]:] both
    nodes are drawn again, among [keep_mask_nonzero]. *)
Fixpoint resample (fuel : nat) (sets : node_sets) (keep_mask_nonzero : list nat)
  (false_i false_j : nat) : L (nat * nat) :=
  match fuel with
  | O => fun st => (Running, st)
  | S fuel' =>
      match rejected sets false_i false_j with
      | Returned true =>
          lbind (choice keep_mask_nonzero) (fun false_i' =>
          lbind (choice keep_mask_nonzero) (fun false_j' =>
          resample fuel' sets keep_mask_nonzero false_i' false_j'))
      | Returned false => lret (false_i, false_j)
      | Raised e => fun st => (Raised e, st)
      | Running => fun st => (Running, st)
      end
  end.

(** The body of the loop over the stored entries [(i, j, d)] of the whole
    matrix; [keep_mask[j]] is read only when [keep_mask[i]] is False. *)
Definition test_body (fuel : nat) (sets : node_sets) (keep_mask : list bool)
  (keep_mask_nonzero not_keep_nonzero : list nat)
  (e : nat * nat * Q) (acc : pairs) : L pairs :=
  let '(i, j, _) := e in
  let '(x_test, y_true) := acc in
  lbind (mask_at keep_mask i) (fun ki =>
  if ki then lret acc
  else
    lbind (mask_at keep_mask j) (fun kj =>
    if kj then lret acc
    else
      let x_test := x_test ++ [(i, j)] in
      let y_true := y_true ++ [true] in
      let false_i := i in
      lbind (choice not_keep_nonzero) (fun false_j =>
      lbind (resample fuel sets keep_mask_nonzero false_i false_j) (fun f =>
      lret (x_test ++ [(fst f, snd f)], y_true ++ [false]))))).

Fixpoint test_loop (fuel : nat) (sets : node_sets) (keep_mask : list bool)
  (keep_mask_nonzero not_keep_nonzero : list nat)
  (entries : list (nat * nat * Q)) (acc : pairs) : L pairs :=
  match entries with
  | [] => lret acc
  | e :: entries' =>
      lbind (test_body fuel sets keep_mask keep_mask_nonzero
               not_keep_nonzero e acc) (fun acc' =>
      test_loop fuel sets keep_mask keep_mask_nonzero not_keep_nonzero
        entries' acc')
  end.

(** From [keep_mask_nonzero = ...] to the end of the loop over the
    entries of [adjacency_matrix], the train matrix left aside: the lists
    [x_test] and [y_true]. *)
Definition test_pairs (fuel : nat) (keep_mask : list bool)
  (adjacency_matrix : csr_matrix) : L pairs :=
  let keep_mask_nonzero := flatnonzero keep_mask in
  let not_keep_nonzero := flatnonzero (logical_not keep_mask) in
  let nz := nonzero adjacency_matrix in
  let ij := combine (fst nz) (snd nz) in
  match build_sets ij [] with
  | None => fun st => (Raised KeyError, st)
  | Some non_zer_sets =>
      test_loop fuel non_zer_sets keep_mask keep_mask_nonzero
        not_keep_nonzero (combine ij (data adjacency_matrix)) ([], [])
  end.

End LinkPrediction.

Import LinkPrediction.

(** ** Vocabulary of the statements *)

(** Weights and matrix entries are not negative (the data model). *)
Definition nonneg (p : list Q) : bool := forallb (fun x => Qle_bool 0 x) p.

Definition nonneg_matrix (mat : csr_matrix) : bool :=
  forallb (fun r => nonneg (map snd r)) mat.

(** Some weight is positive. *)
Definition has_positive (p : list Q) : bool :=
  existsb (fun x => negb (Qle_bool x 0)) p.

(** The matrix is square: every stored column is a node. *)
Definition square (mat : csr_matrix) : bool :=
  forallb (forallb (fun e => fst e <? shape0 mat)) mat.

(** Every entry of row [i] is zero: what is stored there, if anything, is a
    zero. *)
Definition zero_row (mat : csr_matrix) (i : nat) : bool :=
  forallb (fun e => Qeq_bool (snd e) 0) (nth i mat []).

(** The matrix after the two in-place calls of the constructor. *)
Definition transition (mat : csr_matrix) : csr_matrix :=
  inplace_csr_row_normalize_l1 (eliminate_zeros mat).

(** Every stored value of the matrix is positive. *)
Definition stored_positive (mat : csr_matrix) : Prop :=
  Forall (Forall (fun e => (0 < snd e)%Q)) mat.

(** No stored value of the matrix is a zero. *)
Definition stored_nonzero (mat : csr_matrix) : Prop :=
  Forall (Forall (fun e => is_nonzero (snd e) = true)) mat.

(** The matrix stores a zero. *)
Definition stores_zero (mat : csr_matrix) : Prop :=
  exists r e, In r mat /\ In e r /\ is_nonzero (snd e) = false.

(** The only exception that a computation may raise is IndexError. *)
Definition only_IndexError {A} (c : result A) : Prop :=
  forall e, c = Raise e -> e = IndexError.

(** The stored entries are in the order of their rows. *)
Definition by_rows (entries : list (nat * nat * Q)) : Prop :=
  StronglySorted (fun e1 e2 => fst (fst e1) <= fst (fst e2)) entries.

(** What the first loop of [MultipleRandomChoice.__init__] is to find for
    row [i] with the stored entries [r]: the stored columns and values, or
    the node itself with weight 1 when nothing is stored. *)
Definition row_choices (i : nat) (r : list (nat * Q)) : list nat :=
  match r with
  | [] => [i]
  | _ :: _ => map fst r
  end.

Definition row_probs (r : list (nat * Q)) : list Q :=
  match r with
  | [] => [1%Q]
  | _ :: _ => map snd r
  end.

Fixpoint choices_from (i : nat) (mat : csr_matrix) : list (list nat) :=
  match mat with
  | [] => []
  | r :: mat' => row_choices i r :: choices_from (S i) mat'
  end.

(** The array does not decrease from one index to the next ones. *)
Definition sorted (a : list Q) : Prop :=
  forall i j, i <= j -> j < length a -> (nth i a 0 <= nth j a 0)%Q.


(** [i] is where an upper-bound search of [v] in [a] ends: the first index
    whose item is strictly greater than [v]. *)
Definition first_greater (a : list Q) (v : Q) (i : nat) : Prop :=
  i < length a /\ (v < nth i a 0)%Q /\
  forall j, j < i -> (nth j a 0 <= v)%Q.

(** [c] returns, whatever the random state, with a value that has [P]. *)
Definition returns {A} (c : M A) (P : A -> Prop) : Prop :=
  forall st, exists a st', c st = (Ok a, st') /\ P a.

(** The sampler answers for every node below [n], whatever the random
    state. *)
Definition sampler_ok (n : nat) (random_choice : MultipleRandomChoice.t) : Prop :=
  forall i, i < n ->
    returns (MultipleRandomChoice.getitem random_choice i) (fun _ => True).

(** The generator was made with these [number_negative] and [batch_size]. *)
Definition generator_params (g : generator)
  (number_negative batch_size : nat) : Prop :=
  match g with
  | Created _ k _ b => k = number_negative /\ b = batch_size
  | Suspended _ _ _ k _ b _ => k = number_negative /\ b = batch_size
  | Finished => True
  end.

(** The sample that [random_sample] draws in state [st]. *)
Definition sample_of (st : RandomState) : Q :=
  Qmake (Z.of_N (N.modulo (tape st (pos st)) (Npos two53))) two53.

(** The (source, target, label) triples of a batch. *)
Definition triples (b : batch) : list (nat * nat * Q) :=
  let '(u, v, x) := b in combine (combine u v) x.

(** The labels equal to [l] in a batch. *)
Definition count_label (l : Q) (b : batch) : nat :=
  length (filter (Qeq_bool l) (snd b)).

(** [b] is the batch of some [next] on the generator of
    [generate_batches(X, number_negative, number_iterations, batch_size)]
    started in the random state [st]. *)
Definition yielded (X : csr_matrix)
  (number_negative number_iterations batch_size : nat) (st : RandomState)
  (b : batch) : Prop :=
  exists n, In (Yield b)
    (run generator_next n
       (generate_batches X number_negative number_iterations batch_size) st).

(** A matrix of three nodes with a stored zero: row 0 has weight 3 on
    column 2, row 1 is all zero, row 2 has weight 1 on columns 1 and 0. *)
Definition stored_zero_matrix : csr_matrix :=
  [[(2, 3%Q)]; [(0, 0%Q)]; [(1, 1%Q); (0, 1%Q)]].



(** A random state whose samples are all zero. *)
Definition zero_state : RandomState := mkRandomState (fun _ => 0%N) 0.

(** The matrix of the specification's example, [[0, 1], [0, 0]]: node 0
    has one edge to node 1 and node 1 is isolated. *)
Definition example_matrix : csr_matrix := [[(1, 1%Q)]; []].

(** The sum of the first [i] weights. *)
Definition prefix (p : list Q) (i : nat) : Q := sum (firstn i p).


(** The non-zero stored entries of row [i], in storage order. *)
Definition nonzero_entries (mat : csr_matrix) (i : nat) : list (nat * Q) :=
  filter (fun e => is_nonzero (snd e)) (nth i mat []).

(** The generator was made over the matrix [X]: once it has run, it
    holds the sampler that the constructor built from [X]. *)
Definition generator_from (X : csr_matrix) (g : generator) : Prop :=
  match g with
  | Created X' _ _ _ => X' = X
  | Suspended X' n random_choice _ _ _ _ =>
      n = shape0 X /\ MultipleRandomChoice.init X = Ok (X', random_choice)
  | Finished => True
  end.

(** [v] is a target that the sampler of [X] may draw for the source [u]:
    a column where row [u] has a positive entry, or [u] itself when the
    row is all zero. *)
Definition edge_or_self (X : csr_matrix) (u v : nat) : Prop :=
  (zero_row X u = true /\ v = u) \/ (0 < entry X u v)%Q.

(** The generator and the random state after [n] successive calls of
    [next]. *)
Fixpoint run_end {G} (next : G -> RandomState -> outcome * G * RandomState)
  (n : nat) (g : G) (st : RandomState) : G * RandomState :=
  match n with
  | O => (g, st)
  | S n' => let '(_, g', st') := next g st in run_end next n' g' st'
  end.

(** The stored non-zero entries of a matrix as (row, column) pairs, in
    storage order: the pairs of [mat.nonzero()], rows zipped with columns. *)
Definition nonzero_pairs (mat : csr_matrix) : list (nat * nat) :=
  combine (fst (nonzero mat)) (snd (nonzero mat)).

(** [i] and [f] are linked in the matrix, one way or the other. *)
Definition linked (mat : csr_matrix) (i f : nat) : Prop :=
  In (i, f) (nonzero_pairs mat) \/ In (f, i) (nonzero_pairs mat).

(** The pairs and labels made of the stored pairs [l] and one drawn node
    for each: every stored pair, true, followed by its source with the
    drawn node, false. *)
Fixpoint interleave (l : list (nat * nat)) (fs : list nat)
  : LinkPrediction.pairs :=
  match l, fs with
  | (i, j) :: l', f :: fs' =>
      let '(x, y) := interleave l' fs' in
      ((i, j) :: (i, f) :: x, true :: false :: y)
  | _, _ => ([], [])
  end.

(** [k] is a key of the dictionary, and [v] is in the set kept for
    [k]. *)
Definition has_key (d : node_sets) (k : nat) : bool :=
  match lookup d k with Some _ => true | None => false end.

Definition in_set_of (d : node_sets) (k v : nat) : bool :=
  match lookup d k with Some s => set_mem v s | None => false end.

(** The dictionary holds the links of the pairs [l]: its keys are the
    nodes of the pairs, and the set of a node holds the nodes paired with
    it, one way or the other. *)
Definition records (d : node_sets) (l : list (nat * nat)) : Prop :=
  (forall k, has_key d k = true <-> exists v, In (k, v) l \/ In (v, k) l) /\
  (forall k v, in_set_of d k v = true <-> In (k, v) l \/ In (v, k) l).

(** [i] is the row of a stored non-zero entry. *)
Definition source (mat : csr_matrix) (i : nat) : Prop :=
  exists j, In (i, j) (nonzero_pairs mat).

(** [f] can stand as the false target of the source [i]: a node of the
    matrix other than [i] and not linked with it. *)
Definition negative_of (mat : csr_matrix) (i f : nat) : Prop :=
  f < shape0 mat /\ f <> i /\ ~ linked mat i f.

(** [n] is a [high] that [np.int32] allows. *)
Definition fits_int32 (n : nat) : Prop := (N.of_nat n <= int32_high)%N.

(** The node that [randint(0, n)] makes of the raw word at position
    [p]. *)
Definition node_at (t : nat -> N) (n p : nat) : nat :=
  N.to_nat (N.modulo (t p) (N.of_nat n)).

(** Node [k] is marked True, or False, in the mask. *)
Definition kept (mask : list bool) (k : nat) : bool :=
  match nth_error mask k with Some true => true | _ => false end.

Definition unkept (mask : list bool) (k : nat) : bool :=
  match nth_error mask k with Some false => true | _ => false end.

(** The stored non-zero pairs whose two nodes are marked False, in
    storage order. *)
Definition test_edges (mask : list bool) (mat : csr_matrix)
  : list (nat * nat) :=
  filter (fun ij => unkept mask (fst ij) && unkept mask (snd ij))
    (nonzero_pairs mat).

(** The pairs and labels made of the pairs [l] and one false pair for
    each: every pair of [l], true, followed by its false pair, false. *)
Fixpoint weave (l negs : list (nat * nat)) : pairs :=
  match l, negs with
  | p :: l', q :: negs' =>
      let '(x, y) := weave l' negs' in (p :: q :: x, true :: false :: y)
  | _, _ => ([], [])
  end.

(** [q] can stand as the false pair of the test pair [p]: two different
    nodes, not linked, which are either the source of [p] with a node
    marked False, or two nodes marked True. *)
Definition test_negative (mask : list bool) (mat : csr_matrix)
  (p q : nat * nat) : Prop :=
  fst q <> snd q /\ ~ linked mat (fst q) (snd q) /\
  ((fst q = fst p /\ unkept mask (snd q) = true) \/
   (kept mask (fst q) = true /\ kept mask (snd q) = true)).

(** Four nodes: 0 and 1 linked both ways, an entry from 2 to 0 and one
    from 3 to 1. *)
Definition four_node_matrix : csr_matrix :=
  [[(1, 1%Q)]; [(0, 1%Q)]; [(0, 1%Q)]; [(1, 1%Q)]].

(** The mask that keeps the nodes 2 and 3 of four. *)
Definition last_two_mask : list bool := [false; false; true; true].

(** A random state whose raw word at position [p] is [p]. *)
Definition counting_state : RandomState := mkRandomState N.of_nat 0.

(** What the normalisation can leave of a row in floating point: a
    stored zero before a stored 1, and a row that stores nothing. *)
Definition underflown_matrix : csr_matrix := [[(0, 0%Q); (1, 1%Q)]; []].

(** A triangle-free example: nodes 0 and 1 linked both ways, node 2
    isolated. *)
Definition linked_pair_matrix : csr_matrix := [[(1, 1%Q)]; [(0, 1%Q)]; []].

(** Two nodes linked both ways and nothing else. *)
Definition two_node_matrix : csr_matrix := [[(1, 1%Q)]; [(0, 1%Q)]].

(** A random state whose raw words are all 2. *)
Definition two_state : RandomState := mkRandomState (fun _ => 2%N) 0.

(** * Properties *)

(** ** Lists, indexing and the error monad *)

Section Lists.

Context {A : Type}.
Implicit Types (a x : list A) (i j n : nat).

Lemma getitem_Ok a i v : getitem a i = Ok v <-> nth_error a i = Some v.
Proof.
  unfold getitem. destruct (nth_error a i); split; intros H;
    inversion H; reflexivity.
Qed.


Lemma getitem_nth a i d : i < length a -> getitem a i = Ok (nth i a d).
Proof.
  intros H. apply getitem_Ok. now apply nth_error_nth'.
Qed.

Lemma length_update a i v : length (update a i v) = length a.
Proof.
  revert i; induction a as [|h t IH]; intros [|i]; simpl; auto.
Qed.

Lemma nth_error_update a i v n :
  i < length a ->
  nth_error (update a i v) n = if n =? i then Some v else nth_error a n.
Proof.
  revert i n; induction a as [|h t IH]; intros [|i] [|n] H; simpl in *;
    try lia; auto.
  apply IH; lia.
Qed.



Lemma swap_Permutation x i j : Permutation x (swap x i j).
Proof.
  unfold swap.
  destruct (nth_error x i) as [vi|] eqn:Ei; [|apply Permutation_refl].
  destruct (nth_error x j) as [vj|] eqn:Ej; [|apply Permutation_refl].
  assert (Hi : i < length x) by (apply nth_error_Some; congruence).
  assert (Hj : j < length x) by (apply nth_error_Some; congruence).
  apply Permutation_nth_error. split.
  - now rewrite !length_update.
  - exists (fun n => if n =? j then i else if n =? i then j else n). split.
    + intros n m.
      destruct (Nat.eqb_spec n j), (Nat.eqb_spec n i),
        (Nat.eqb_spec m j), (Nat.eqb_spec m i); lia.
    + intros n.
      rewrite nth_error_update by now rewrite length_update.
      destruct (Nat.eqb_spec n j) as [->|Hn]; [congruence|].
      rewrite nth_error_update by assumption.
      destruct (Nat.eqb_spec n i) as [->|Hn']; congruence.
Qed.

Lemma take_map a d idx :
  Forall (fun i => i < length a) idx ->
  take a idx = Ok (map (fun i => nth i a d) idx).
Proof.
  induction 1 as [|i idx Hi _ IH]; simpl; auto.
  rewrite (getitem_nth _ d Hi). simpl. rewrite IH. reflexivity.
Qed.

Lemma map_nth_seq a d : map (fun i => nth i a d) (seq 0 (length a)) = a.
Proof.
  induction a as [|h t IH]; simpl; auto.
  f_equal. rewrite <- seq_shift, map_map. exact IH.
Qed.

Lemma take_Permutation a idx :
  Permutation (seq 0 (length a)) idx ->
  exists r, take a idx = Ok r /\ Permutation a r.
Proof.
  intros HP. destruct a as [|d t] eqn:Ea.
  - simpl in HP. apply Permutation_nil in HP. subst idx.
    exists []. split; auto.
  - rewrite <- Ea in *. exists (map (fun i => nth i a d) idx). split.
    + apply take_map. apply Forall_forall. intros i Hi.
      apply (Permutation_in _ (Permutation_sym HP)) in Hi.
      apply in_seq in Hi. lia.
    + rewrite <- (map_nth_seq a d) at 1. now apply Permutation_map.
Qed.

Lemma length_tile a reps : length (tile a reps) = length a * reps.
Proof.
  induction reps as [|r IH]; simpl; [lia|].
  rewrite length_app, IH. lia.
Qed.

End Lists.

Lemma getitem_snoc {A} (l : list A) x : getitem (l ++ [x]) (length l) = Ok x.
Proof.
  apply getitem_Ok. rewrite nth_error_app2, Nat.sub_diag by lia. reflexivity.
Qed.

Lemma setitem_snoc {A} (l : list A) x y :
  setitem (l ++ [x]) (length l) y = Ok (l ++ [y]).
Proof.
  unfold setitem. rewrite length_app. simpl.
  destruct (Nat.ltb_spec (length l) (length l + 1)) as [_|H]; [|lia].
  f_equal. induction l as [|h t IH]; simpl; [reflexivity|]. now rewrite IH.
Qed.

Lemma append_at_snoc {A} (l : list (list A)) x v i :
  length l = i -> append_at (l ++ [x]) i v = Ok (l ++ [x ++ [v]]).
Proof.
  intros <-. unfold append_at. rewrite getitem_snoc. cbn [rbind].
  apply setitem_snoc.
Qed.

Lemma take_length {A} (a : list A) idx r :
  take a idx = Ok r -> length r = length idx.
Proof.
  revert r; induction idx as [|i idx IH]; simpl; intros r H.
  - now inversion H.
  - destruct (getitem a i); simpl in H; [|discriminate].
    destruct (take a idx); simpl in H; [|discriminate].
    inversion H. simpl. f_equal. now apply IH.
Qed.

(** Indexing three arrays of one length with the same index array is
    indexing the array of their triples. *)
Lemma take_combine {A B} (a : list A) (b : list B) idx ra rb :
  length a = length b ->
  take a idx = Ok ra -> take b idx = Ok rb ->
  take (combine a b) idx = Ok (combine ra rb).
Proof.
  intros Hl. revert ra rb; induction idx as [|i idx IH]; simpl; intros ra rb Ha Hb.
  - inversion Ha; inversion Hb; reflexivity.
  - destruct (getitem a i) as [x|] eqn:Ex; simpl in Ha; [|discriminate].
    destruct (take a idx) as [xs|]; simpl in Ha; [|discriminate].
    destruct (getitem b i) as [y|] eqn:Ey; simpl in Hb; [|discriminate].
    destruct (take b idx) as [ys|]; simpl in Hb; [|discriminate].
    inversion Ha; inversion Hb; subst.
    apply getitem_Ok in Ex, Ey.
    assert (Hc : getitem (combine a b) i = Ok (x, y)).
    { apply getitem_Ok. clear - Ex Ey. revert b i Ey Ex.
      induction a as [|h t IHa]; intros [|h' t'] [|i] Ey Ex; simpl in *;
        try discriminate.
      - inversion Ex; inversion Ey; reflexivity.
      - now apply IHa. }
    rewrite Hc. simpl. rewrite (IH xs ys eq_refl eq_refl). reflexivity.
Qed.

(** ** Computations that draw: total correctness *)

Lemma returns_ret {A} (a : A) (P : A -> Prop) : P a -> returns (ret a) P.
Proof. intros H st. exists a, st. auto. Qed.

Lemma returns_lift {A} (a : A) (P : A -> Prop) : P a -> returns (lift (Ok a)) P.
Proof. intros H st. exists a, st. auto. Qed.

Lemma returns_bind {A B} (c : M A) (k : A -> M B) (P : A -> Prop) (Q : B -> Prop) :
  returns c P -> (forall a, P a -> returns (k a) Q) -> returns (bind c k) Q.
Proof.
  intros Hc Hk st. destruct (Hc st) as (a & st1 & E & Ha).
  destruct (Hk a Ha st1) as (b & st2 & E' & Hb).
  exists b, st2. unfold bind. rewrite E. auto.
Qed.

Lemma returns_weaken {A} (c : M A) (P Q : A -> Prop) :
  returns c P -> (forall a, P a -> Q a) -> returns c Q.
Proof.
  intros Hc HPQ st. destruct (Hc st) as (a & st1 & E & Ha).
  exists a, st1. auto.
Qed.

Lemma bind_Ok_inv {A B} (c : M A) (k : A -> M B) st b st' :
  bind c k st = (Ok b, st') ->
  exists a st1, c st = (Ok a, st1) /\ k a st1 = (Ok b, st').
Proof.
  unfold bind. destruct (c st) as [[a|e] st1]; intros H; [|discriminate].
  exists a, st1. auto.
Qed.

Lemma lift_Ok_inv {A} (r : result A) st a st' :
  lift r st = (Ok a, st') -> r = Ok a /\ st' = st.
Proof. unfold lift. intros H. inversion H. auto. Qed.

(** ** np.random *)


(** The sample is a number of the half-open interval [0, 1). *)
Lemma sample_of_range st : (0 <= sample_of st)%Q /\ (sample_of st < 1)%Q.
Proof.
  unfold sample_of, Qle, Qlt. simpl.
  pose proof (N.mod_lt (tape st (pos st)) (Npos two53)) as H.
  assert (Hz : (Z.of_N (tape st (pos st) mod N.pos two53) < Z.pos two53)%Z).
  { change (Z.pos two53) with (Z.of_N (N.pos two53)). apply N2Z.inj_lt.
    apply H. discriminate. }
  split; [|rewrite Z.mul_1_r; exact Hz].
  rewrite Z.mul_1_r. apply N2Z.is_nonneg.
Qed.

Lemma mod_to_nat_lt w d : 0 < d -> N.to_nat (w mod N.of_nat d) < d.
Proof.
  intros H. pose proof (N.mod_lt w (N.of_nat d)) as Hm.
  assert (Hd : N.of_nat d <> 0%N) by lia. specialize (Hm Hd).
  unfold N.lt in Hm. rewrite N2Nat.inj_compare, Nat2N.id in Hm.
  now apply Nat.compare_lt_iff.
Qed.

Lemma next_words_returns n : returns (next_words n) (fun ws => length ws = n).
Proof.
  induction n as [|n IH]; simpl.
  - now apply returns_ret.
  - apply returns_bind with (P := fun _ => True).
    + intros st. eexists _, _. split; [reflexivity|exact I].
    + intros w _. apply returns_bind with (P := fun ws => length ws = n); auto.
      intros ws Hws. apply returns_ret. simpl. now f_equal.
Qed.

Lemma randint_returns low high size :
  low < high -> fits_int32 high ->
  returns (randint low high size)
    (fun l => length l = size /\ Forall (fun v => low <= v < high) l).
Proof.
  intros H Hf. unfold randint, fits_int32 in *.
  destruct (Nat.leb_spec high low); [lia|].
  destruct (N.ltb_spec int32_high (N.of_nat high)); [lia|]. cbn [orb].
  apply returns_bind with (P := fun ws => length ws = size).
  - apply next_words_returns.
  - intros ws Hws. apply returns_ret. split.
    + now rewrite length_map.
    + apply Forall_forall. intros v Hv. apply in_map_iff in Hv.
      destruct Hv as (w & <- & _).
      pose proof (@mod_to_nat_lt w (high - low)) as Hm.
      set (m := N.to_nat (w mod N.of_nat (high - low))) in *. lia.
Qed.

Lemma shuffle_from_returns {A} i (x : list A) :
  returns (shuffle_from i x) (fun y => Permutation x y).
Proof.
  revert x; induction i as [|i IH]; intros x; simpl.
  - apply returns_ret. apply Permutation_refl.
  - apply returns_bind with (P := fun _ => True).
    + intros st. eexists _, _. split; [reflexivity|exact I].
    + intros w _. eapply returns_weaken; [apply IH|].
      intros y Hy. simpl in Hy.
      eapply Permutation_trans; [apply swap_Permutation|exact Hy].
Qed.

Lemma shuffle_returns {A} (x : list A) :
  returns (shuffle x) (fun y => Permutation x y).
Proof. apply shuffle_from_returns. Qed.

(** ** Sums, cumulative sums and the binary search *)

Lemma nonneg_Forall p : nonneg p = true <-> Forall (fun x => (0 <= x)%Q) p.
Proof.
  unfold nonneg. rewrite forallb_forall, Forall_forall.
  split; intros H x Hx; apply Qle_bool_iff; auto.
Qed.

Lemma sum_nonneg p : nonneg p = true -> (0 <= sum p)%Q.
Proof.
  rewrite nonneg_Forall. induction 1 as [|x t Hx _ IH]; simpl.
  - apply Qle_refl.
  - rewrite <- (Qplus_0_l 0). now apply Qplus_le_compat.
Qed.

Lemma sum_positive p :
  nonneg p = true -> has_positive p = true -> (0 < sum p)%Q.
Proof.
  intros Hn Hp. apply existsb_exists in Hp. destruct Hp as (x & Hx & Hpos).
  assert (Hx0 : (0 < x)%Q).
  { apply Qnot_le_lt. intros Hle. apply Qle_bool_iff in Hle.
    rewrite Hle in Hpos. discriminate. }
  clear Hpos. induction p as [|y t IH]; simpl in *; [contradiction|].
  apply andb_prop in Hn. destruct Hn as [Hy Ht]. apply Qle_bool_iff in Hy.
  destruct Hx as [->|Hx].
  - rewrite <- (Qplus_0_r 0).
    apply Qplus_lt_le_compat; [assumption|now apply sum_nonneg].
  - rewrite <- (Qplus_0_l 0), (Qplus_comm y).
    apply Qplus_lt_le_compat; [now apply IH|assumption].
Qed.

Lemma sum_map_div p s : (sum (map (fun x => x / s) p) == sum p / s)%Q.
Proof.
  induction p as [|x t IH]; simpl.
  - unfold Qdiv. now rewrite Qmult_0_l.
  - rewrite IH. unfold Qdiv. now rewrite Qmult_plus_distr_l.
Qed.

Lemma length_cumsum_from acc p : length (cumsum_from acc p) = length p.
Proof. revert acc; induction p; intros; simpl; auto. Qed.

Lemma cumsum_from_last acc p :
  p <> [] ->
  (nth (length p - 1) (cumsum_from acc p) 0 == acc + sum p)%Q.
Proof.
  revert acc; induction p as [|x t IH]; intros acc H; [congruence|].
  destruct t as [|y t'].
  - simpl. now rewrite Qplus_0_r.
  - replace (length (x :: y :: t') - 1) with (S (length (y :: t') - 1))
      by (simpl; lia).
    change (cumsum_from acc (x :: y :: t'))
      with ((acc + x)%Q :: cumsum_from (acc + x) (y :: t')).
    cbn [nth]. rewrite IH by discriminate.
    change (sum (x :: y :: t')) with (x + sum (y :: t'))%Q.
    now rewrite Qplus_assoc.
Qed.

Lemma cumsum_from_lower acc p j :
  nonneg p = true -> j < length p -> (acc <= nth j (cumsum_from acc p) 0)%Q.
Proof.
  revert acc j; induction p as [|x t IH]; intros acc j Hn Hj; simpl in *; [lia|].
  apply andb_prop in Hn. destruct Hn as [Hx Ht]. apply Qle_bool_iff in Hx.
  assert (Hacc : (acc <= acc + x)%Q).
  { rewrite <- (Qplus_0_r acc) at 1. apply Qplus_le_compat; [apply Qle_refl|auto]. }
  destruct j as [|j]; [assumption|].
  eapply Qle_trans; [exact Hacc|]. apply IH; [assumption|lia].
Qed.

Lemma cumsum_from_sorted acc p : nonneg p = true -> sorted (cumsum_from acc p).
Proof.
  revert acc; induction p as [|x t IH]; intros acc Hn i j Hij Hj; simpl in *; [lia|].
  apply andb_prop in Hn. destruct Hn as [Hx Ht].
  destruct i as [|i], j as [|j]; try lia.
  - apply Qle_refl.
  - apply cumsum_from_lower; [assumption|].
    rewrite length_cumsum_from in Hj. lia.
  - apply IH; [assumption|lia|lia].
Qed.

Lemma sorted_map_div a l : (0 < l)%Q -> sorted a -> sorted (map (fun x => x / l)%Q a).
Proof.
  intros Hl Ha i j Hij Hj. rewrite length_map in Hj.
  assert (E : forall n, n < length a ->
            nth n (map (fun x => x / l)%Q a) 0%Q = (nth n a 0 / l)%Q).
  { intros n Hn. rewrite (nth_indep _ 0%Q (0 / l)%Q) by now rewrite length_map.
    apply (map_nth (fun x => (x / l)%Q)). }
  rewrite !E by lia. unfold Qdiv. apply Qmult_le_compat_r; [now apply Ha|].
  apply Qlt_le_weak. now apply Qinv_lt_0_compat.
Qed.

(** The binary search ends on the first item greater than [v], or on [hi]
    when there is none before it. *)
Lemma binsearch_right_spec a v : sorted a ->
  forall fuel lo hi,
    lo <= hi -> hi <= length a -> hi - lo <= fuel ->
    (forall j, j < lo -> (nth j a 0 <= v)%Q) ->
    (forall j, hi <= j -> j < length a -> (v < nth j a 0)%Q) ->
    let r := binsearch_right fuel a v lo hi in
    lo <= r <= hi /\
    (forall j, j < r -> (nth j a 0 <= v)%Q) /\
    (forall j, r <= j -> j < length a -> (v < nth j a 0)%Q).
Proof.
  intros Hs. induction fuel as [|fuel IH]; intros lo hi Hlo Hhi Hf Hbelow Habove.
  - simpl. assert (lo = hi) by lia. subst. repeat split; auto.
  - cbn [binsearch_right]. cbv zeta.
    destruct (Nat.ltb_spec lo hi) as [Hlt|Hge].
    + assert (Hmid : (hi - lo) / 2 < hi - lo) by (apply Nat.div_lt; lia).
      set (mid := lo + (hi - lo) / 2) in *.
      assert (Hm : lo <= mid < hi) by (unfold mid; lia). clearbody mid.
      destruct (Qle_bool (nth mid a 0%Q) v) eqn:E.
      * apply Qle_bool_iff in E.
        destruct (IH (S mid) hi) as (H1 & H2 & H3); try lia; auto.
        { intros j Hj. eapply Qle_trans; [|exact E]. apply Hs; lia. }
        cbv zeta in *. split; [lia|split; assumption].
      * assert (E' : (v < nth mid a 0)%Q).
        { apply Qnot_le_lt. intros Hle. apply Qle_bool_iff in Hle. congruence. }
        destruct (IH lo mid) as (H1 & H2 & H3); try lia; auto.
        { intros j Hj Hj'. eapply Qlt_le_trans; [exact E'|]. apply Hs; lia. }
        cbv zeta in *. split; [lia|split; assumption].
    + assert (lo = hi) by lia. subst. repeat split; auto.
Qed.

Lemma searchsorted_right_spec a v :
  sorted a ->
  let r := searchsorted_right a v in
  r <= length a /\
  (forall j, j < r -> (nth j a 0 <= v)%Q) /\
  (forall j, r <= j -> j < length a -> (v < nth j a 0)%Q).
Proof.
  intros Hs. unfold searchsorted_right.
  destruct (@binsearch_right_spec a v Hs (length a) 0 (length a))
    as (H1 & H2 & H3); try lia.
  cbv zeta in *. split; [lia|split; assumption].
Qed.

(** When the last item of a sorted array is above [v], the search ends on
    an index of the array: the first item strictly greater than [v]. *)
Lemma searchsorted_right_first_greater a v :
  sorted a -> a <> [] -> (v < nth (length a - 1) a 0)%Q ->
  first_greater a v (searchsorted_right a v).
Proof.
  intros Hs Hne Hlast.
  destruct (searchsorted_right_spec v Hs) as (H1 & H2 & H3).
  assert (Hlen : 0 < length a) by (destruct a; simpl; [congruence|lia]).
  assert (Hr : searchsorted_right a v < length a).
  { destruct (Nat.eq_dec (searchsorted_right a v) (length a)) as [E|E]; [|lia].
    exfalso. apply (Qlt_not_le _ _ Hlast). apply H2. lia. }
  repeat split; auto.
Qed.

(** ** RandomChoice *)

Lemma nonneg_map_div p s :
  (0 < s)%Q -> nonneg p = true -> nonneg (map (fun x => x / s)%Q p) = true.
Proof.
  intros Hs Hp. apply nonneg_Forall. apply nonneg_Forall in Hp.
  apply Forall_map. eapply Forall_impl; [|exact Hp]. intros x Hx. simpl in *.
  unfold Qdiv. apply Qmult_le_0_compat; [assumption|].
  apply Qlt_le_weak. now apply Qinv_lt_0_compat.
Qed.

Lemma Qeq_bool_false_of_lt x : (0 < x)%Q -> Qeq_bool x 0 = false.
Proof.
  intros H. destruct (Qeq_bool x 0) eqn:E; [|reflexivity].
  apply Qeq_bool_iff in E. rewrite E in H. now apply Qlt_irrefl in H.
Qed.

(** The table built from non-negative weights with a positive one: as long
    as the weights, sorted, and ending on 1. *)
Lemma RandomChoice_init_ok_sum p :
  nonneg p = true -> (0 < sum p)%Q ->
  exists rc, RandomChoice.init p = Ok rc /\
    length (RandomChoice.cdf rc) = length p /\
    sorted (RandomChoice.cdf rc) /\
    (nth (length p - 1) (RandomChoice.cdf rc) 0 == 1)%Q.
Proof.
  intros Hn Hs.
  assert (Hne : p <> []) by (intros ->; now apply Qlt_irrefl in Hs).
  unfold RandomChoice.init.
  assert (E1 : div_array p (sum p) = Ok (map (fun x => x / sum p)%Q p)).
  { unfold div_array. destruct p; [congruence|].
    now rewrite (Qeq_bool_false_of_lt Hs). }
  rewrite E1. cbn [rbind].
  set (p1 := map (fun x => (x / sum p)%Q) p).
  set (c := cumsum p1).
  assert (Hlen : length c = length p).
  { unfold c, cumsum. rewrite length_cumsum_from. apply length_map. }
  assert (Hp1 : p1 <> []) by (unfold p1; destruct p; [congruence|discriminate]).
  assert (Hl : (nth (length c - 1) c 0 == 1)%Q).
  { rewrite Hlen. replace (length p) with (length p1) by apply length_map.
    unfold c, cumsum. rewrite cumsum_from_last by assumption.
    rewrite Qplus_0_l. unfold p1. rewrite sum_map_div.
    apply Qmult_inv_r. intros E. rewrite E in Hs. now apply Qlt_irrefl in Hs. }
  assert (Hpos : (0 < nth (length c - 1) c 0)%Q) by (rewrite Hl; reflexivity).
  assert (Hc : 0 < length c) by (rewrite Hlen; destruct p; simpl; [congruence|lia]).
  rewrite (getitem_nth c 0%Q) by lia. cbn [rbind].
  set (l := nth (length c - 1) c 0%Q) in *.
  assert (E2 : div_array c l = Ok (map (fun x => x / l)%Q c)).
  { unfold div_array. destruct c; [simpl in Hc; lia|].
    now rewrite (Qeq_bool_false_of_lt Hpos). }
  rewrite E2. cbn [rbind]. eexists. split; [reflexivity|]. simpl.
  split; [now rewrite length_map|]. split.
  - apply sorted_map_div; [assumption|]. apply cumsum_from_sorted.
    now apply nonneg_map_div.
  - rewrite <- Hlen.
    rewrite (nth_indep _ 0%Q (0 / l)%Q) by (rewrite length_map; lia).
    rewrite (map_nth (fun x => (x / l)%Q)). fold l.
    apply Qmult_inv_r. intros E. rewrite E in Hpos. now apply Qlt_irrefl in Hpos.
Qed.

Lemma RandomChoice_init_ok p :
  nonneg p = true -> has_positive p = true ->
  exists rc, RandomChoice.init p = Ok rc /\
    length (RandomChoice.cdf rc) = length p /\
    sorted (RandomChoice.cdf rc) /\
    (nth (length p - 1) (RandomChoice.cdf rc) 0 == 1)%Q.
Proof.
  intros Hn Hp. apply RandomChoice_init_ok_sum; [assumption|].
  now apply sum_positive.
Qed.

Lemma RandomChoice_get_eq rc st :
  RandomChoice.get rc st =
  (Ok (searchsorted_right (RandomChoice.cdf rc) (sample_of st)),
   mkRandomState (tape st) (S (pos st))).
Proof. reflexivity. Qed.

(** On a sorted table that ends on 1, [get] ends on the first item strictly
    greater than the sample. *)
Lemma RandomChoice_get_first_greater rc st :
  sorted (RandomChoice.cdf rc) ->
  RandomChoice.cdf rc <> [] ->
  (nth (length (RandomChoice.cdf rc) - 1) (RandomChoice.cdf rc) 0 == 1)%Q ->
  first_greater (RandomChoice.cdf rc) (sample_of st)
    (searchsorted_right (RandomChoice.cdf rc) (sample_of st)).
Proof.
  intros Hs Hne Hl. apply searchsorted_right_first_greater; auto.
  rewrite Hl. apply sample_of_range.
Qed.

(** ** MultipleRandomChoice: the first loop of the constructor *)

Lemma tocoo_from_rows i mat :
  Forall (fun e => i <= fst (fst e)) (tocoo_from i mat).
Proof.
  revert i; induction mat as [|r mat IH]; intros i; simpl; [constructor|].
  apply Forall_app. split.
  - apply Forall_map. apply Forall_forall. intros e _. simpl. lia.
  - eapply Forall_impl; [|apply IH]. intros e He. simpl in *. lia.
Qed.

Lemma tocoo_from_rows_lt i mat :
  Forall (fun e => fst (fst e) < i + length mat) (tocoo_from i mat).
Proof.
  revert i; induction mat as [|r mat IH]; intros i; simpl; [constructor|].
  apply Forall_app. split.
  - apply Forall_map. apply Forall_forall. intros e _. simpl. lia.
  - eapply Forall_impl; [|apply IH]. intros e He. simpl in *. lia.
Qed.

Lemma nth_error_map_middle {A B} (f : A -> B) pre x post :
  nth_error (map f (pre ++ x :: post)) (length pre) = Some (f x).
Proof.
  rewrite map_app, nth_error_app2 by (rewrite length_map; lia).
  rewrite length_map, Nat.sub_diag. reflexivity.
Qed.

Lemma nth_error_map_middle_getitem {A B} (f : A -> B) pre x post :
  getitem (map f (pre ++ x :: post)) (length pre) = Ok (f x).
Proof. apply getitem_Ok, nth_error_map_middle. Qed.

Section FirstLoop.

Variable entries : list (nat * nat * Q).

Let nonzero0 := map (fun e => fst (fst e)) entries.
Let nonzero1 := map (fun e => snd (fst e)) entries.
Let data := map snd entries.
Let K := length entries.

(** The inner loop at the start of the entries of row [i]: it takes them
    all, in order, and stops at the first entry of another row or at the
    end of the data, before the fuel is spent. *)
Lemma while_row_spec i post : Forall (fun e => fst (fst e) <> i) post ->
  forall r pre chs ch prs pr fuel,
    entries = pre ++ map (fun e => (i, fst e, snd e)) r ++ post ->
    K <= fuel + length pre ->
    length chs = i -> length prs = i ->
    MultipleRandomChoice.while_row nonzero0 nonzero1 data K fuel i
      (length pre) (chs ++ [ch]) (prs ++ [pr])
    = Ok (length pre + length r,
          chs ++ [ch ++ map fst r], prs ++ [pr ++ map snd r]).
Proof.
  intros Hpost. induction r as [|e r IH];
    intros pre chs ch prs pr fuel He Hf Hchs Hprs.
  - simpl in He. rewrite Nat.add_0_r, !app_nil_r.
    destruct fuel as [|fuel]; [reflexivity|].
    cbn [MultipleRandomChoice.while_row].
    destruct (Nat.ltb_spec (length pre) K) as [Hk|Hk]; [|reflexivity].
    destruct post as [|e0 post].
    + exfalso. unfold K in Hk. rewrite He, app_nil_r in Hk. lia.
    + assert (G0 : getitem nonzero0 (length pre) = Ok (fst (fst e0))).
      { unfold nonzero0. rewrite He.
        apply (nth_error_map_middle_getitem (fun e => fst (fst e))). }
      rewrite G0. cbn [rbind].
      inversion Hpost as [|? ? Hne _]; subst.
      destruct (Nat.eqb_spec (fst (fst e0)) (length chs));
        [contradiction|reflexivity].
  - simpl in He.
    assert (HK : length pre < K).
    { unfold K. rewrite He, length_app. simpl. lia. }
    destruct fuel as [|fuel]; [lia|]. cbn [MultipleRandomChoice.while_row].
    destruct (Nat.ltb_spec (length pre) K) as [_|Hk]; [|lia].
    assert (G0 : getitem nonzero0 (length pre) = Ok i).
    { unfold nonzero0. rewrite He.
      apply (nth_error_map_middle_getitem (fun e => fst (fst e))). }
    assert (G1 : getitem nonzero1 (length pre) = Ok (fst e)).
    { unfold nonzero1. rewrite He.
      apply (nth_error_map_middle_getitem (fun e => snd (fst e))). }
    assert (G2 : getitem data (length pre) = Ok (snd e)).
    { unfold data. rewrite He.
      apply (nth_error_map_middle_getitem (fun e : nat * nat * Q => snd e)). }
    rewrite G0. cbn [rbind]. rewrite Nat.eqb_refl, G1. cbn [rbind].
    rewrite (append_at_snoc chs ch (fst e) Hchs). cbn [rbind].
    rewrite G2. cbn [rbind].
    rewrite (append_at_snoc prs pr (snd e) Hprs). cbn [rbind].
    replace (S (length pre)) with (length (pre ++ [(i, fst e, snd e)]))
      by (rewrite length_app; simpl; lia).
    rewrite (IH (pre ++ [(i, fst e, snd e)])); auto.
    + rewrite length_app. simpl. rewrite <- !app_assoc. simpl.
      f_equal. f_equal. f_equal. lia.
    + rewrite He, <- app_assoc. reflexivity.
    + rewrite length_app. simpl. lia.
Qed.

Lemma to_arrays_snoc i k (chs : list (list nat)) ch (prs : list (list Q)) pr :
  length chs = i -> length prs = i ->
  MultipleRandomChoice.to_arrays i (k, chs ++ [ch], prs ++ [pr])
  = Ok (k, chs ++ [ch], prs ++ [pr]).
Proof.
  intros Hc Hp. unfold MultipleRandomChoice.to_arrays, array. subst i.
  rewrite getitem_snoc. cbn [rbind]. rewrite setitem_snoc. cbn [rbind].
  rewrite <- Hp. rewrite getitem_snoc. cbn [rbind].
  rewrite setitem_snoc. reflexivity.
Qed.

(** The outer loop from row [i] on, with the cursor at the first entry
    of that row: every row takes its own entries, an empty row the
    self-loop, and the cursor ends at the end of the data. *)
Lemma rows_loop_spec rest : forall i pre ch pr,
  entries = pre ++ tocoo_from i rest ->
  length ch = i -> length pr = i ->
  for_each (seq i (length rest))
    (MultipleRandomChoice.row_body nonzero0 nonzero1 data K)
    (length pre, ch, pr)
  = Ok (K, ch ++ choices_from i rest, pr ++ map row_probs rest).
Proof.
  induction rest as [|r rest IH]; intros i pre ch pr He Hch Hpr.
  - simpl in *. rewrite app_nil_r in He. rewrite !app_nil_r.
    unfold K. now rewrite He.
  - cbn [length seq for_each]. unfold MultipleRandomChoice.row_body at 1.
    cbv zeta.
    destruct r as [|e r].
    + simpl in He.
      assert (Hstep :
        (let* s' := Ok (length pre, ch ++ [[i]], pr ++ [[1%Q]]) in
         for_each (seq (S i) (length rest))
           (MultipleRandomChoice.row_body nonzero0 nonzero1 data K) s')
        = Ok (K, ch ++ choices_from i ([] :: rest),
              pr ++ map row_probs ([] :: rest))).
      { cbn [rbind]. rewrite (IH (S i) pre);
          [|assumption|rewrite length_app; simpl; lia
           |rewrite length_app; simpl; lia].
        simpl. now rewrite <- !app_assoc. }
      assert (S1 : setitem (ch ++ [[]]) i [i] = Ok (ch ++ [[i]])).
      { rewrite <- Hch. apply setitem_snoc. }
      assert (S2 : setitem (pr ++ [[]]) i [1%Q] = Ok (pr ++ [[1%Q]])).
      { rewrite <- Hpr. apply setitem_snoc. }
      unfold array.
      destruct (Nat.leb_spec K (length pre)) as [Hk|Hk].
      { rewrite S1. cbn [rbind]. rewrite S2. cbn [rbind]. exact Hstep. }
      destruct (tocoo_from (S i) rest) as [|e0 post] eqn:Et.
      * exfalso. unfold K in Hk. rewrite He, app_nil_r in Hk. lia.
      * assert (G0 : getitem nonzero0 (length pre) = Ok (fst (fst e0))).
        { unfold nonzero0. rewrite He.
          apply (nth_error_map_middle_getitem (fun e => fst (fst e))). }
        rewrite G0. cbn [rbind].
        pose proof (tocoo_from_rows (S i) rest) as Hrows. rewrite Et in Hrows.
        inversion Hrows as [|? ? Hge _]; subst.
        destruct (Nat.ltb_spec (length ch) (fst (fst e0))) as [_|Hlt]; [|lia].
        rewrite S1. cbn [rbind]. rewrite S2. cbn [rbind].
        rewrite to_arrays_snoc by auto. exact Hstep.
    + change (tocoo_from i ((e :: r) :: rest))
        with (map (fun e1 => (i, fst e1, snd e1)) (e :: r) ++ tocoo_from (S i) rest)
        in He.
      assert (HK : length pre < K).
      { unfold K. rewrite He. simpl. rewrite length_app. simpl. lia. }
      destruct (Nat.leb_spec K (length pre)) as [Hk|_]; [lia|].
      assert (G0 : getitem nonzero0 (length pre) = Ok i).
      { unfold nonzero0. rewrite He.
        apply (nth_error_map_middle_getitem (fun e => fst (fst e))). }
      rewrite G0. cbn [rbind]. rewrite Nat.ltb_irrefl.
      rewrite (@while_row_spec i (tocoo_from (S i) rest)) with (r := e :: r);
        auto; try lia.
      * cbn [rbind app]. rewrite to_arrays_snoc by auto. cbn [rbind].
        replace (length pre + length (e :: r))
          with (length (pre ++ map (fun e1 => (i, fst e1, snd e1)) (e :: r)))
          by (rewrite length_app, length_map; reflexivity).
        rewrite IH.
        -- cbn [choices_from row_choices map row_probs app].
           now rewrite <- !app_assoc.
        -- rewrite He, <- app_assoc. reflexivity.
        -- rewrite length_app. simpl. lia.
        -- rewrite length_app. simpl. lia.
      * eapply Forall_impl; [|apply tocoo_from_rows]. intros e1 H1. simpl in *. lia.
Qed.

End FirstLoop.

Lemma filter_id {A} (f : A -> bool) l :
  Forall (fun x => f x = true) l -> filter f l = l.
Proof.
  induction 1 as [|x l Hx _ IH]; simpl; [reflexivity|].
  now rewrite Hx, IH.
Qed.

Lemma tocoo_from_values i mat :
  stored_nonzero mat ->
  Forall (fun e => is_nonzero (snd e) = true) (tocoo_from i mat).
Proof.
  intros H. revert i; induction H as [|r mat Hr _ IH]; intros i; simpl;
    [constructor|].
  apply Forall_app. split; [|apply IH].
  apply Forall_map. eapply Forall_impl; [|exact Hr]. auto.
Qed.

(** On a matrix without stored zeros the first loop finds the rows. *)
Lemma first_loop_spec T :
  stored_nonzero T ->
  MultipleRandomChoice.first_loop T (length T)
  = Ok (length (tocoo T), choices_from 0 T, map row_probs T).
Proof.
  intros H. unfold MultipleRandomChoice.first_loop, nonzero, data, tocoo.
  cbv zeta. rewrite (filter_id _ (tocoo_from_values 0 H)). cbn [fst snd].
  rewrite length_map.
  apply (@rows_loop_spec (tocoo_from 0 T) T 0 [] [] []); reflexivity.
Qed.

(** *** The first loop when the data and the non-zero positions differ

    [nonzero()] leaves out the stored zeros and [data] keeps them: the
    cursor [k] then runs off the end of [nonzero], and the loop raises
    IndexError. *)

Lemma rbind_Ok {A B} (c : result A) (k : A -> result B) b :
  rbind c k = Ok b -> exists a, c = Ok a /\ k a = Ok b.
Proof. destruct c as [a|e]; [|discriminate]. intros H. now exists a. Qed.

Lemma only_IndexError_Ok {A} (a : A) : only_IndexError (Ok a).
Proof. intros e H. discriminate. Qed.

Lemma only_IndexError_bind {A B} (c : result A) (k : A -> result B) :
  only_IndexError c -> (forall a, only_IndexError (k a)) ->
  only_IndexError (rbind c k).
Proof.
  intros Hc Hk e. destruct c as [a|e0]; cbn [rbind].
  - apply Hk.
  - intros H. inversion H; subst. now apply Hc.
Qed.

Lemma only_IndexError_getitem {A} (a : list A) i : only_IndexError (getitem a i).
Proof.
  intros e. unfold getitem. destruct (nth_error a i); intros H; now inversion H.
Qed.

Lemma only_IndexError_setitem {A} (a : list A) i v :
  only_IndexError (setitem a i v).
Proof.
  intros e. unfold setitem. destruct (i <? length a); intros H; now inversion H.
Qed.

Lemma only_IndexError_append_at {A} (a : list (list A)) i v :
  only_IndexError (append_at a i v).
Proof.
  unfold append_at. apply only_IndexError_bind.
  - apply only_IndexError_getitem.
  - intros ai. apply only_IndexError_setitem.
Qed.

Lemma only_IndexError_for_each {St} (body : nat -> St -> result St) l :
  (forall i s, only_IndexError (body i s)) ->
  forall s, only_IndexError (for_each l body s).
Proof.
  intros Hb. induction l as [|i l IH]; intros s; simpl.
  - apply only_IndexError_Ok.
  - apply only_IndexError_bind; [apply Hb|exact IH].
Qed.

Lemma for_each_seq_inv {St} (I : nat -> St -> Prop)
  (body : nat -> St -> result St) :
  forall n a s s',
    (forall j s0 s1, a <= j < a + n ->
       body j s0 = Ok s1 -> I j s0 -> I (S j) s1) ->
    I a s ->
    for_each (seq a n) body s = Ok s' -> I (a + n) s'.
Proof.
  induction n as [|n IH]; intros a s s' Hbody Hs E; simpl in E.
  - inversion E; subst. now rewrite Nat.add_0_r.
  - apply rbind_Ok in E. destruct E as (s1 & E1 & E2).
    replace (a + S n) with (S a + n) by lia.
    eapply IH; [|eapply Hbody; [|exact E1|exact Hs]; lia|exact E2].
    intros j s0 s2 Hj. apply Hbody. lia.
Qed.

Section Cursor.

Variables (nonzero0 nonzero1 : list nat) (data : list Q) (K : nat).

Lemma only_IndexError_while_row fuel : forall i k choices probs,
  only_IndexError
    (MultipleRandomChoice.while_row nonzero0 nonzero1 data K fuel i k
       choices probs).
Proof.
  induction fuel as [|fuel IH]; intros i k choices probs;
    cbn [MultipleRandomChoice.while_row]; [apply only_IndexError_Ok|].
  destruct (k <? K); [|apply only_IndexError_Ok].
  apply only_IndexError_bind; [apply only_IndexError_getitem|]. intros r.
  destruct (r =? i); [|apply only_IndexError_Ok].
  apply only_IndexError_bind; [apply only_IndexError_getitem|]. intros c.
  apply only_IndexError_bind; [apply only_IndexError_append_at|]. intros ch.
  apply only_IndexError_bind; [apply only_IndexError_getitem|]. intros d.
  apply only_IndexError_bind; [apply only_IndexError_append_at|]. intros pr.
  apply IH.
Qed.

Lemma only_IndexError_to_arrays i s :
  only_IndexError (MultipleRandomChoice.to_arrays i s).
Proof.
  destruct s as [[k choices] probs]. unfold MultipleRandomChoice.to_arrays.
  apply only_IndexError_bind; [apply only_IndexError_getitem|]. intros ci.
  apply only_IndexError_bind; [apply only_IndexError_setitem|]. intros ch.
  apply only_IndexError_bind; [apply only_IndexError_getitem|]. intros pi.
  apply only_IndexError_bind; [apply only_IndexError_setitem|]. intros pr.
  apply only_IndexError_Ok.
Qed.

Lemma only_IndexError_row_body i s :
  only_IndexError (MultipleRandomChoice.row_body nonzero0 nonzero1 data K i s).
Proof.
  destruct s as [[k choices] probs]. unfold MultipleRandomChoice.row_body.
  cbv zeta. destruct (K <=? k).
  - apply only_IndexError_bind; [apply only_IndexError_setitem|]. intros ch.
    apply only_IndexError_bind; [apply only_IndexError_setitem|]. intros pr.
    apply only_IndexError_Ok.
  - apply only_IndexError_bind; [apply only_IndexError_getitem|]. intros r.
    destruct (i <? r).
    + apply only_IndexError_bind; [apply only_IndexError_setitem|]. intros ch.
      apply only_IndexError_bind; [apply only_IndexError_setitem|]. intros pr.
      apply only_IndexError_to_arrays.
    + apply only_IndexError_bind; [apply only_IndexError_while_row|].
      intros s'. apply only_IndexError_to_arrays.
Qed.

(** The inner loop, when it ends: the cursor went over entries of row
    [i] only, and stopped at the end of the data, at an entry of another
    row, or with its fuel spent. *)
Lemma while_row_inv fuel : forall i k choices probs k' choices' probs',
  MultipleRandomChoice.while_row nonzero0 nonzero1 data K fuel i k
    choices probs = Ok (k', choices', probs') ->
  k <= k' /\
  (forall a, k <= a < k' -> nth_error nonzero0 a = Some i) /\
  (k' = k + fuel \/ K <= k' \/
   exists r, nth_error nonzero0 k' = Some r /\ r <> i).
Proof.
  induction fuel as [|fuel IH]; intros i k ch pr k' ch' pr' E;
    cbn [MultipleRandomChoice.while_row] in E.
  - inversion E; subst. split; [lia|]. split; [intros a Ha; lia|]. left. lia.
  - destruct (Nat.ltb_spec k K) as [HkK|HkK].
    2:{ inversion E; subst. split; [lia|]. split; [intros a Ha; lia|].
        right. now left. }
    apply rbind_Ok in E. destruct E as (r & Er & E). apply getitem_Ok in Er.
    destruct (Nat.eqb_spec r i) as [->|Hne].
    2:{ inversion E; subst. split; [lia|]. split; [intros a Ha; lia|].
        right. right. now exists r. }
    apply rbind_Ok in E. destruct E as (c & _ & E).
    apply rbind_Ok in E. destruct E as (ch1 & _ & E).
    apply rbind_Ok in E. destruct E as (d & _ & E).
    apply rbind_Ok in E. destruct E as (pr1 & _ & E).
    apply IH in E. destruct E as (Hle & Hrows & Hexit).
    split; [lia|]. split.
    + intros a Ha. destruct (Nat.eq_dec a k) as [->|Hak]; [exact Er|].
      apply Hrows. lia.
    + destruct Hexit as [->|Hexit]; [left; lia|right; exact Hexit].
Qed.

Lemma to_arrays_cursor i k choices probs k' choices' probs' :
  MultipleRandomChoice.to_arrays i (k, choices, probs)
  = Ok (k', choices', probs') -> k' = k.
Proof.
  unfold MultipleRandomChoice.to_arrays. intros E.
  apply rbind_Ok in E. destruct E as (ci & _ & E).
  apply rbind_Ok in E. destruct E as (ch & _ & E).
  apply rbind_Ok in E. destruct E as (pi & _ & E).
  apply rbind_Ok in E. destruct E as (pr & _ & E).
  now inversion E.
Qed.

Hypothesis Hsorted : forall a b r s,
  a <= b -> nth_error nonzero0 a = Some r -> nth_error nonzero0 b = Some s ->
  r <= s.

(** What holds of the cursor [k] before the iteration of row [i]: it is
    within [nonzero], every position of a row before [i] is behind it,
    and once an iteration has ended it is short of the end of [nonzero],
    unless it is at the end of the data. *)
Let cursor_inv (i k : nat) : Prop :=
  k <= length nonzero0 /\
  (forall a r, nth_error nonzero0 a = Some r -> r < i -> a < k) /\
  (0 < i -> K <= k \/ k < length nonzero0).

Lemma row_body_cursor i k choices probs k' choices' probs' :
  length nonzero0 <= K ->
  MultipleRandomChoice.row_body nonzero0 nonzero1 data K i (k, choices, probs)
  = Ok (k', choices', probs') ->
  cursor_inv i k -> cursor_inv (S i) k'.
Proof.
  intros HLK E (Hk & Hbehind & _). unfold MultipleRandomChoice.row_body in E.
  cbv zeta in E.
  assert (Hlt : forall a r, nth_error nonzero0 a = Some r ->
                  a < length nonzero0).
  { intros a r Ha. apply nth_error_Some. congruence. }
  destruct (Nat.leb_spec K k) as [HKk|HKk].
  - apply rbind_Ok in E. destruct E as (ch & _ & E).
    apply rbind_Ok in E. destruct E as (pr & _ & E).
    inversion E; subst. split; [exact Hk|]. split; [|intros _; now left].
    intros a r Ha _. apply Hlt in Ha. lia.
  - apply rbind_Ok in E. destruct E as (r0 & Er0 & E). apply getitem_Ok in Er0.
    pose proof (Hlt _ _ Er0) as HkL.
    destruct (Nat.ltb_spec i r0) as [Hir|Hir].
    + apply rbind_Ok in E. destruct E as (ch & _ & E).
      apply rbind_Ok in E. destruct E as (pr & _ & E).
      apply to_arrays_cursor in E. subst k'.
      split; [exact Hk|]. split; [|intros _; now right].
      intros a r Ha Hr. destruct (Nat.lt_ge_cases a k) as [|Hka]; [assumption|].
      pose proof (Hsorted Hka Er0 Ha). lia.
    + apply rbind_Ok in E. destruct E as ([[k1 ch1] pr1] & Ew & E).
      apply to_arrays_cursor in E. subst k'.
      apply while_row_inv in Ew. destruct Ew as (Hle & Hrows & Hexit).
      assert (Hr0 : r0 = i).
      { destruct (Nat.lt_ge_cases r0 i) as [Hlti|]; [|lia].
        pose proof (Hbehind _ _ Er0 Hlti). lia. }
      subst r0.
      assert (Hk1 : k1 <= length nonzero0).
      { destruct (Nat.eq_dec k1 k) as [->|]; [exact Hk|].
        assert (Ha : nth_error nonzero0 (k1 - 1) = Some i)
          by (apply Hrows; lia).
        apply Hlt in Ha. lia. }
      assert (Hend : K <= k1 \/ exists r, nth_error nonzero0 k1 = Some r /\ i < r).
      { destruct Hexit as [->|[H|(r & Hr & Hne)]]; [left; lia|now left|].
        right. exists r. split; [exact Hr|].
        pose proof (Hsorted Hle Er0 Hr). lia. }
      split; [exact Hk1|]. split.
      * intros a r Ha Hr. destruct (Nat.lt_ge_cases a k1) as [|Hka]; [assumption|].
        destruct Hend as [HK|(r1 & Hr1 & Hir1)].
        -- apply Hlt in Ha. lia.
        -- pose proof (Hsorted Hka Hr1 Ha). lia.
      * intros _. destruct Hend as [HK|(r1 & Hr1 & _)]; [now left|right].
        now apply Hlt in Hr1.
Qed.

(** When the loop over the rows ends, [nonzero] is as long as the data. *)
Lemma rows_loop_aligned nodes_number s :
  0 < nodes_number ->
  length nonzero0 <= K ->
  Forall (fun r => r < nodes_number) nonzero0 ->
  for_each (seq 0 nodes_number)
    (MultipleRandomChoice.row_body nonzero0 nonzero1 data K) (0, [], [])
  = Ok s ->
  length nonzero0 = K.
Proof.
  intros HN HLK Hrows E.
  pose (I := fun (i : nat) (s : MultipleRandomChoice.rows_state) =>
               cursor_inv i (fst (fst s))).
  assert (Hfin : I (0 + nodes_number) s).
  { apply (@for_each_seq_inv _ I
             (MultipleRandomChoice.row_body nonzero0 nonzero1 data K)
             nodes_number 0 (0, [], []) s); [| |exact E].
    - intros j [[k ch] pr] [[k1 ch1] pr1] _ Eb Hinv. unfold I in *.
      cbn [fst] in *. eapply row_body_cursor; eauto.
    - unfold I. cbn [fst]. split; [lia|]. split; [intros a r _ Hr; lia|].
      intros H. lia. }
  unfold I in Hfin. cbn [Nat.add] in Hfin.
  destruct Hfin as (Hk & Hbehind & Hend).
  destruct (Hend HN) as [HK|Hlt]; [lia|]. exfalso.
  destruct (nth_error nonzero0 (fst (fst s))) as [r|] eqn:Er.
  - rewrite Forall_forall in Hrows.
    pose proof (Hrows r (nth_error_In _ _ Er)) as Hr.
    pose proof (Hbehind _ _ Er Hr). lia.
  - apply nth_error_None in Er. lia.
Qed.

End Cursor.

Lemma only_IndexError_first_loop T n :
  only_IndexError (MultipleRandomChoice.first_loop T n).
Proof.
  unfold MultipleRandomChoice.first_loop. cbv zeta.
  apply only_IndexError_for_each. intros i s.
  apply only_IndexError_row_body.
Qed.

Lemma StronglySorted_app {A} (R : A -> A -> Prop) l1 l2 :
  StronglySorted R l1 -> StronglySorted R l2 ->
  (forall x y, In x l1 -> In y l2 -> R x y) ->
  StronglySorted R (l1 ++ l2).
Proof.
  induction 1 as [|a l1 Hs IH Ha]; intros H2 H12; simpl; [exact H2|].
  constructor.
  - apply IH; [exact H2|]. intros x y Hx Hy. apply H12; [now right|exact Hy].
  - apply Forall_app. split; [exact Ha|].
    apply Forall_forall. intros y Hy. apply H12; [now left|exact Hy].
Qed.

Lemma StronglySorted_filter {A} (R : A -> A -> Prop) (f : A -> bool) l :
  StronglySorted R l -> StronglySorted R (filter f l).
Proof.
  induction 1 as [|a l Hs IH Ha]; simpl; [constructor|].
  destruct (f a); [|exact IH]. constructor; [exact IH|].
  apply Forall_forall. intros x Hx. apply filter_In in Hx.
  rewrite Forall_forall in Ha. now apply Ha.
Qed.

Lemma StronglySorted_nth_error {A} (R : A -> A -> Prop) l :
  StronglySorted R l ->
  forall a b x y, a < b -> nth_error l a = Some x -> nth_error l b = Some y ->
    R x y.
Proof.
  induction 1 as [|h l Hs IH Hh]; intros a b x y Hab Ha Hb.
  - destruct a; discriminate.
  - destruct b as [|b]; [lia|]. simpl in Hb. destruct a as [|a].
    + simpl in Ha. inversion Ha; subst. rewrite Forall_forall in Hh.
      apply Hh. eapply nth_error_In. exact Hb.
    + simpl in Ha. apply (IH a b); [lia|exact Ha|exact Hb].
Qed.

Lemma tocoo_from_by_rows i mat : by_rows (tocoo_from i mat).
Proof.
  unfold by_rows. revert i; induction mat as [|r mat IH]; intros i; simpl;
    [constructor|].
  apply StronglySorted_app; [|apply IH|].
  - induction r as [|e r IHr]; simpl; constructor; [exact IHr|].
    apply Forall_map, Forall_forall. intros x _. simpl. lia.
  - intros x y Hx Hy. apply in_map_iff in Hx. destruct Hx as (e & <- & _).
    pose proof (tocoo_from_rows (S i) mat) as Hr. rewrite Forall_forall in Hr.
    specialize (Hr y Hy). simpl in *. lia.
Qed.

Lemma filter_length_all {A} (f : A -> bool) l :
  length (filter f l) = length l -> Forall (fun x => f x = true) l.
Proof.
  induction l as [|x l IH]; simpl; [constructor|].
  pose proof (filter_length_le f l) as Hle.
  destruct (f x) eqn:E; simpl; intros H; [|lia].
  constructor; [exact E|]. apply IH. lia.
Qed.

Lemma tocoo_from_stored i mat :
  Forall (fun e => is_nonzero (snd e) = true) (tocoo_from i mat) ->
  stored_nonzero mat.
Proof.
  revert i; induction mat as [|r mat IH]; intros i H; simpl in H;
    [constructor|].
  apply Forall_app in H. destruct H as [Hr Hm]. constructor.
  - rewrite Forall_map in Hr. exact Hr.
  - now apply (IH (S i)).
Qed.

(** When the first loop returns, the matrix it went through stores no
    zero. *)
Lemma first_loop_Ok_stored T s :
  MultipleRandomChoice.first_loop T (length T) = Ok s -> stored_nonzero T.
Proof.
  destruct T as [|r0 T0] eqn:ET; [constructor|]. rewrite <- ET. intros E.
  assert (HN : 0 < length T) by (rewrite ET; simpl; lia). clear ET.
  unfold MultipleRandomChoice.first_loop, nonzero, data, tocoo in E.
  cbv zeta in E. cbn [fst snd] in E.
  set (nz := filter (fun e => is_nonzero (snd e)) (tocoo_from 0 T)) in *.
  apply rows_loop_aligned in E; [| |exact HN| |].
  - rewrite !length_map in E. apply (@tocoo_from_stored 0).
    now apply filter_length_all.
  - intros a b x y Hab Ha Hb.
    rewrite nth_error_map in Ha, Hb.
    destruct (nth_error nz a) as [ea|] eqn:Ea; [|discriminate].
    destruct (nth_error nz b) as [eb|] eqn:Eb; [|discriminate].
    inversion Ha; inversion Hb; subst.
    destruct (Nat.eq_dec a b) as [->|Hne]; [rewrite Ea in Eb; now inversion Eb|].
    apply (@StronglySorted_nth_error _ _ nz
             (StronglySorted_filter _ (tocoo_from_by_rows 0 T)) a b);
      [lia|exact Ea|exact Eb].
  - rewrite !length_map. apply filter_length_le.
  - apply Forall_map, Forall_forall. intros e He. apply filter_In in He.
    pose proof (tocoo_from_rows_lt 0 T) as Hr. rewrite Forall_forall in Hr.
    apply (Hr e), He.
Qed.

(** ** MultipleRandomChoice: the matrix after normalisation *)

Lemma row_norm_l1_nonneg r : (0 <= row_norm_l1 r)%Q.
Proof.
  unfold row_norm_l1. induction r as [|e r IH]; simpl; [apply Qle_refl|].
  rewrite <- (Qplus_0_l 0). apply Qplus_le_compat; [apply Qabs_nonneg|exact IH].
Qed.

Lemma positive_nonzero v : (0 < v)%Q -> is_nonzero v = true.
Proof. intros H. unfold is_nonzero. now rewrite Qeq_bool_false_of_lt. Qed.

Lemma stored_positive_nonzero T : stored_positive T -> stored_nonzero T.
Proof.
  intros H. eapply Forall_impl; [|exact H]. intros r Hr.
  eapply Forall_impl; [|exact Hr]. intros e. apply positive_nonzero.
Qed.

Lemma eliminate_zeros_positive_row (r : list (nat * Q)) :
  nonneg (map snd r) = true ->
  Forall (fun e => (0 < snd e)%Q) (filter (fun e => is_nonzero (snd e)) r).
Proof.
  intros Hn. apply Forall_forall. intros e He. apply filter_In in He.
  destruct He as [Hin Hnz]. apply nonneg_Forall in Hn.
  rewrite Forall_map, Forall_forall in Hn. specialize (Hn e Hin).
  apply Qle_lteq in Hn. destruct Hn as [Hlt|Heq]; [assumption|].
  unfold is_nonzero in Hnz. apply negb_true_iff, Qeq_bool_neq in Hnz.
  exfalso. apply Hnz. now symmetry.
Qed.

Lemma normalize_row_positive r :
  Forall (fun e => (0 < snd e)%Q) r ->
  Forall (fun e => (0 < snd e)%Q) (normalize_row r).
Proof.
  intros H. unfold normalize_row.
  destruct (Qeq_bool (row_norm_l1 r) 0) eqn:E; [assumption|].
  apply Qeq_bool_neq in E.
  assert (Hs : (0 < row_norm_l1 r)%Q).
  { pose proof (row_norm_l1_nonneg r) as Hn. apply Qle_lteq in Hn.
    destruct Hn as [Hn|Hn]; [assumption|]. exfalso. apply E. now symmetry. }
  apply Forall_map. eapply Forall_impl; [|exact H]. intros e He. simpl.
  unfold Qdiv. apply Qmult_lt_0_compat; [assumption|].
  now apply Qinv_lt_0_compat.
Qed.

Lemma transition_positive mat :
  nonneg_matrix mat = true -> stored_positive (transition mat).
Proof.
  intros H. unfold nonneg_matrix in H. rewrite forallb_forall in H.
  unfold transition, inplace_csr_row_normalize_l1, eliminate_zeros, stored_positive.
  rewrite map_map. apply Forall_map. apply Forall_forall. intros r Hr.
  apply normalize_row_positive, eliminate_zeros_positive_row. auto.
Qed.

Lemma length_transition mat : length (transition mat) = length mat.
Proof. unfold transition, inplace_csr_row_normalize_l1, eliminate_zeros. now rewrite !length_map. Qed.

(** The weights found for a row of positive stored values: none is
    negative and one is positive. *)
Lemma row_probs_weights r :
  Forall (fun e => (0 < snd e)%Q) r ->
  nonneg (row_probs r) = true /\ has_positive (row_probs r) = true.
Proof.
  intros H. destruct r as [|e r]; [split; reflexivity|].
  cbn [row_probs]. split.
  - apply nonneg_Forall, Forall_map. eapply Forall_impl; [|exact H].
    intros x Hx. simpl in *. now apply Qlt_le_weak.
  - inversion H as [|? ? He _]; subst. simpl.
    destruct (Qle_bool (snd e) 0) eqn:E; [|reflexivity].
    apply Qle_bool_iff in E. exfalso. exact (Qlt_not_le _ _ He E).
Qed.

(** ** MultipleRandomChoice: the second loop and the constructor *)

Lemma rc_loop_spec probs : forall todo done acc,
  probs = done ++ todo ->
  Forall (fun p => nonneg p = true /\ has_positive p = true) todo ->
  exists rcs,
    for_each (seq (length done) (length todo))
      (MultipleRandomChoice.rc_body probs) acc = Ok (acc ++ rcs) /\
    Forall2 (fun p r => RandomChoice.init p = Ok r) todo rcs.
Proof.
  induction todo as [|p todo IH]; intros done acc He Hw.
  - exists []. simpl. rewrite app_nil_r. split; constructor.
  - inversion Hw as [|? ? [Hn Hp] Hw']; subst.
    destruct (RandomChoice_init_ok p Hn Hp) as (r & Er & _).
    destruct (IH (done ++ [p]) (acc ++ [r])) as (rcs & Eloop & Hall).
    { now rewrite <- app_assoc. }
    { assumption. }
    exists (r :: rcs). split; [|now constructor].
    cbn [length seq for_each]. unfold MultipleRandomChoice.rc_body at 1.
    assert (G : getitem (done ++ p :: todo) (length done) = Ok p).
    { apply getitem_Ok. rewrite nth_error_app2, Nat.sub_diag by lia. reflexivity. }
    rewrite G. cbn [rbind]. rewrite Er. cbn [rbind].
    rewrite length_app in Eloop. simpl in Eloop.
    rewrite Nat.add_1_r in Eloop. rewrite Eloop, <- app_assoc. reflexivity.
Qed.

(** The constructor returns only on a matrix that has a row. *)
Lemma init_Ok_rows mat mat' mrc :
  MultipleRandomChoice.init mat = Ok (mat', mrc) -> 0 < length mat.
Proof.
  destruct mat as [|r mat]; [discriminate|]. simpl. lia.
Qed.

(** The constructor in the model, on a matrix of the data model that has
    a row: it leaves the normalised matrix behind, and holds for each row
    the choices and the table of that row. *)
Lemma init_spec mat :
  nonneg_matrix mat = true -> 0 < length mat ->
  exists rcs,
    MultipleRandomChoice.init mat
    = Ok (transition mat,
          MultipleRandomChoice.mk (length mat)
            (choices_from 0 (transition mat)) rcs) /\
    Forall2 (fun p r => RandomChoice.init p = Ok r)
      (map row_probs (transition mat)) rcs.
Proof.
  intros Hn Hlen. pose proof (transition_positive mat Hn) as Hpos.
  destruct (@rc_loop_spec (map row_probs (transition mat))
              (map row_probs (transition mat)) [] [])
    as (rcs & Eloop & Hall); [reflexivity| |].
  { apply Forall_map. eapply Forall_impl; [|exact Hpos].
    intros r. apply row_probs_weights. }
  exists rcs. split; [|exact Hall].
  unfold MultipleRandomChoice.init.
  assert (En : normalize_l1 (eliminate_zeros mat) = Ok (transition mat)).
  { unfold normalize_l1, check_array, transition.
    destruct mat as [|r mat]; [simpl in Hlen; lia|reflexivity]. }
  rewrite En. cbn [rbind].
  replace (shape0 (eliminate_zeros mat)) with (length (transition mat))
    by (rewrite length_transition; unfold shape0, eliminate_zeros;
        now rewrite length_map).
  rewrite first_loop_spec by now apply stored_positive_nonzero.
  cbn [rbind]. rewrite length_map in Eloop. simpl in Eloop. rewrite Eloop.
  cbn [rbind]. now rewrite length_transition.
Qed.

(** ** MultipleRandomChoice: drawing from a row *)

Lemma nth_error_choices_from T : forall i0 i r,
  nth_error T i = Some r ->
  nth_error (choices_from i0 T) i = Some (row_choices (i0 + i) r).
Proof.
  induction T as [|r0 T IH]; intros i0 [|i] r H; simpl in *; try discriminate.
  - inversion H. now rewrite Nat.add_0_r.
  - rewrite (IH (S i0) i r H). f_equal. f_equal. lia.
Qed.

Lemma Forall2_nth_error {A B} (P : A -> B -> Prop) l l' :
  Forall2 P l l' ->
  forall i x, nth_error l i = Some x ->
  exists y, nth_error l' i = Some y /\ P x y.
Proof.
  induction 1 as [|a b l l' Hab _ IH]; intros [|i] x Hx; simpl in *;
    try discriminate.
  - inversion Hx; subst. exists b. auto.
  - now apply IH.
Qed.

Lemma length_row_choices i r : length (row_choices i r) = length (row_probs r).
Proof. destruct r; simpl; [reflexivity|now rewrite !length_map]. Qed.

Lemma row_choices_nonempty i r : row_choices i r <> [].
Proof. destruct r; discriminate. Qed.

(** What [random_choice[i]] is on the sampler of a matrix of the data
    model: the constructor returns, and in every random state the call
    returns the choice of row [i] at the index where the search of that
    row's table ends, an index of the table and of the choices. *)
Lemma getitem_spec mat i :
  nonneg_matrix mat = true -> i < length mat ->
  exists mrc rc,
    MultipleRandomChoice.init mat = Ok (transition mat, mrc) /\
    RandomChoice.init (row_probs (nth i (transition mat) [])) = Ok rc /\
    forall st,
      let idx := searchsorted_right (RandomChoice.cdf rc) (sample_of st) in
      first_greater (RandomChoice.cdf rc) (sample_of st) idx /\
      idx < length (row_choices i (nth i (transition mat) [])) /\
      MultipleRandomChoice.getitem mrc i st
      = (Ok (nth idx (row_choices i (nth i (transition mat) [])) 0),
         mkRandomState (tape st) (S (pos st))).
Proof.
  intros Hn Hi.
  destruct (@init_spec mat Hn ltac:(lia)) as (rcs & Einit & Hall).
  pose proof (transition_positive mat Hn) as Hpos.
  set (T := transition mat) in *.
  assert (HiT : i < length T) by (unfold T; now rewrite length_transition).
  assert (Er : nth_error T i = Some (nth i T [])) by now apply nth_error_nth'.
  set (r := nth i T []) in *.
  destruct (@Forall2_nth_error _ _ _ _ _ Hall i (row_probs r))
    as (rc & Erc & Hrc).
  { rewrite nth_error_map, Er. reflexivity. }
  eexists _, rc. split; [exact Einit|]. split; [exact Hrc|].
  intros st idx.
  assert (Hr : Forall (fun e => (0 < snd e)%Q) r).
  { unfold stored_positive in Hpos. rewrite Forall_forall in Hpos.
    apply Hpos. eapply nth_error_In. exact Er. }
  destruct (row_probs_weights Hr) as [Hw1 Hw2].
  destruct (RandomChoice_init_ok _ Hw1 Hw2) as (rc' & Erc' & Hlen & Hsorted & Hlast).
  rewrite Hrc in Erc'. inversion Erc'; subst rc'. clear Erc'.
  assert (Hne : RandomChoice.cdf rc <> []).
  { intros E. rewrite E in Hlen. simpl in Hlen.
    pose proof (length_row_choices i r) as Hl.
    pose proof (@row_choices_nonempty i r) as Hne.
    destruct (row_choices i r); [congruence|]. simpl in Hl. lia. }
  assert (Hfg : first_greater (RandomChoice.cdf rc) (sample_of st) idx).
  { apply RandomChoice_get_first_greater; auto. now rewrite Hlen. }
  assert (Hidx : idx < length (row_choices i r)).
  { rewrite length_row_choices, <- Hlen. apply Hfg. }
  split; [exact Hfg|]. split; [exact Hidx|].
  unfold MultipleRandomChoice.getitem. cbn [MultipleRandomChoice.choices MultipleRandomChoice.rc].
  assert (G1 : getitem (choices_from 0 T) i = Ok (row_choices i r)).
  { apply getitem_Ok. now rewrite (nth_error_choices_from T 0 i Er). }
  assert (G2 : getitem rcs i = Ok rc) by now apply getitem_Ok.
  rewrite G1, G2. unfold bind, lift. rewrite RandomChoice_get_eq.
  fold idx. now rewrite (getitem_nth _ 0 Hidx).
Qed.

(** * The samplers: what a draw returns *)




(** ** The rows of the normalised matrix against the rows passed in *)

Lemma nth_transition mat i :
  nth i (transition mat) []
  = normalize_row (filter (fun e => is_nonzero (snd e)) (nth i mat [])).
Proof.
  unfold transition, inplace_csr_row_normalize_l1, eliminate_zeros. rewrite map_map.
  change (@nil (nat * Q))
    with (normalize_row (filter (fun e => is_nonzero (snd e)) [])) at 1.
  apply (map_nth (fun r => normalize_row (filter (fun e => is_nonzero (snd e)) r))).
Qed.

Lemma In_normalize_row j v r :
  In (j, v) (normalize_row r) -> exists v0, In (j, v0) r.
Proof.
  unfold normalize_row. destruct (Qeq_bool (row_norm_l1 r) 0).
  - intros H. now exists v.
  - intros H. apply in_map_iff in H. destruct H as ([j0 v0] & E & Hin).
    simpl in E. inversion E; subst. now exists v0.
Qed.

Lemma length_normalize_row r : length (normalize_row r) = length r.
Proof.
  unfold normalize_row. destruct (Qeq_bool (row_norm_l1 r) 0); [reflexivity|].
  apply length_map.
Qed.

Lemma nonneg_row mat i :
  nonneg_matrix mat = true -> nonneg (map snd (nth i mat [])) = true.
Proof.
  intros H. unfold nonneg_matrix in H. rewrite forallb_forall in H.
  destruct (Nat.lt_ge_cases i (length mat)) as [Hi|Hi].
  - apply H. now apply nth_In.
  - now rewrite nth_overflow.
Qed.

Lemma has_positive_In x p : In x p -> (0 < x)%Q -> has_positive p = true.
Proof.
  intros Hin Hx. apply existsb_exists. exists x. split; [assumption|].
  destruct (Qle_bool x 0) eqn:E; [|reflexivity].
  apply Qle_bool_iff in E. exfalso. exact (Qlt_not_le _ _ Hx E).
Qed.

Lemma nonneg_filter (f : nat * Q -> bool) r :
  nonneg (map snd r) = true -> nonneg (map snd (filter f r)) = true.
Proof.
  intros H. apply nonneg_Forall, Forall_map, Forall_forall.
  apply nonneg_Forall in H. rewrite Forall_map, Forall_forall in H.
  intros e He. apply filter_In in He. apply H, He.
Qed.

(** A stored positive value makes the entry positive when no value of the
    row is negative. *)
Lemma entry_positive mat i j v0 :
  nonneg_matrix mat = true ->
  In (j, v0) (nth i mat []) -> (0 < v0)%Q -> (0 < entry mat i j)%Q.
Proof.
  intros Hn Hin Hv. unfold entry. apply sum_positive.
  - apply nonneg_filter. now apply nonneg_row.
  - apply has_positive_In with (x := v0); [|assumption].
    apply in_map_iff. exists (j, v0). split; [reflexivity|].
    apply filter_In. split; [assumption|]. simpl. apply Nat.eqb_refl.
Qed.

(** The choices of a row that stores a non-zero value are columns where
    the row passed in stores a positive value. *)
Lemma row_choices_stored mat i j :
  nonneg_matrix mat = true ->
  nth i (transition mat) [] <> [] ->
  In j (row_choices i (nth i (transition mat) [])) ->
  exists v0, In (j, v0) (nth i mat []) /\ (0 < v0)%Q.
Proof.
  intros Hn Hne Hin. destruct (nth i (transition mat) []) as [|e r] eqn:Er;
    [congruence|].
  cbn [row_choices] in Hin. rewrite <- Er in Hin. clear Hne.
  apply in_map_iff in Hin. destruct Hin as ([j0 v] & E & Hin). simpl in E. subst j0.
  rewrite nth_transition in Hin. apply In_normalize_row in Hin.
  destruct Hin as (v0 & Hin).
  pose proof (eliminate_zeros_positive_row _ (@nonneg_row mat i Hn)) as Hpos.
  rewrite Forall_forall in Hpos. specialize (Hpos _ Hin).
  apply filter_In in Hin. exists v0. split; [apply Hin|exact Hpos].
Qed.

Lemma zero_row_transition mat i :
  zero_row mat i = true -> nth i (transition mat) [] = [].
Proof.
  intros H. rewrite nth_transition. unfold zero_row in H.
  rewrite forallb_forall in H.
  assert (E : filter (fun e => is_nonzero (snd e)) (nth i mat []) = []).
  { induction (nth i mat []) as [|e r IH]; [reflexivity|]. simpl.
    unfold is_nonzero at 1. rewrite (H e) by now left. simpl.
    apply IH. intros x Hx. apply H. now right. }
  rewrite E. reflexivity.
Qed.

Lemma nonzero_row_transition mat i :
  zero_row mat i = false -> nth i (transition mat) [] <> [].
Proof.
  intros H. rewrite nth_transition. unfold zero_row in H.
  intros E. apply (f_equal (@length _)) in E.
  rewrite length_normalize_row in E. simpl in E.
  apply length_zero_iff_nil in E.
  assert (Hall : forallb (fun e => Qeq_bool (snd e) 0) (nth i mat []) = true);
    [|congruence].
  apply forallb_forall. intros e He.
  destruct (Qeq_bool (snd e) 0) eqn:Ee; [reflexivity|]. exfalso.
  assert (Hin : In e (filter (fun e => is_nonzero (snd e)) (nth i mat []))).
  { apply filter_In. split; [assumption|]. unfold is_nonzero. now rewrite Ee. }
  now rewrite E in Hin.
Qed.

(** A row whose list of choices has one item returns that item. *)
Lemma getitem_single mat i c :
  nonneg_matrix mat = true -> i < length mat ->
  row_choices i (nth i (transition mat) []) = [c] ->
  exists mrc,
    MultipleRandomChoice.init mat = Ok (transition mat, mrc) /\
    forall st, exists st', MultipleRandomChoice.getitem mrc i st = (Ok c, st').
Proof.
  intros Hn Hi Hc. destruct (getitem_spec mat Hn Hi) as (mrc & rc & E & _ & H).
  exists mrc. split; [exact E|]. intros st.
  destruct (H st) as (_ & Hidx & Eg). eexists. rewrite Eg.
  rewrite Hc in *. simpl in Hidx.
  destruct (searchsorted_right (RandomChoice.cdf rc) (sample_of st)); [|lia].
  reflexivity.
Qed.

(** C5: for every matrix of the data model on which the constructor has
    returned a sampler, and every row [i] whose entries are all zero,
    [MultipleRandomChoice.__getitem__(i)] returns [i] in every random
    state; and on the matrix [[0, 1], [0, 0]] the constructor returns and
    both [sample(1)] and [sample(0)] return 1 in every random state. *)
Theorem zero_row_self_loop :
  (forall mat mat' mrc i,
     nonneg_matrix mat = true ->
     MultipleRandomChoice.init mat = Ok (mat', mrc) ->
     i < shape0 mat -> zero_row mat i = true ->
     forall st, exists st',
       MultipleRandomChoice.getitem mrc i st = (Ok i, st'))
  /\
  (exists mat' mrc,
     MultipleRandomChoice.init example_matrix = Ok (mat', mrc) /\
     forall st,
       (exists st', MultipleRandomChoice.getitem mrc 1 st = (Ok 1, st')) /\
       (exists st', MultipleRandomChoice.getitem mrc 0 st = (Ok 1, st'))).
Proof.
  split.
  - intros mat mat' mrc i Hn Hinit Hi Hz.
    destruct (@getitem_single mat i i Hn Hi) as (mrc0 & E & H).
    { now rewrite (zero_row_transition mat i Hz). }
    rewrite Hinit in E. inversion E; subst mrc0. exact H.
  - destruct (@getitem_single example_matrix 1 1) as (mrc & E & H1);
      try reflexivity. { simpl; lia. }
    destruct (@getitem_single example_matrix 0 1) as (mrc' & E' & H0);
      try reflexivity. { simpl; lia. }
    rewrite E in E'. inversion E'; subst mrc'.
    exists (transition example_matrix), mrc. split; [exact E|].
    intros st. split; [apply H1|apply H0].
Qed.

Lemma zero_row_self_loop_witness :
  exists mat' mrc,
    MultipleRandomChoice.init stored_zero_matrix = Ok (mat', mrc) /\
    forall st, exists st',
      MultipleRandomChoice.getitem mrc 1 st = (Ok 1, st').
Proof.
  eexists _, _. split; [reflexivity|].
  eapply (proj1 zero_row_self_loop stored_zero_matrix).
  - reflexivity.
  - reflexivity.
  - simpl. lia.
  - reflexivity.
Defined.
(** C6: for every matrix of the data model on which the constructor has
    returned a sampler, and every row [i] that has a non-zero entry,
    [MultipleRandomChoice.__getitem__(i)] returns, in every random state,
    a column [j] with [M[i][j] > 0]: a zero entry is never selected. *)
Theorem nonzero_row_choice_positive (mat mat' : csr_matrix)
  (mrc : MultipleRandomChoice.t) (i : nat) :
  nonneg_matrix mat = true ->
  MultipleRandomChoice.init mat = Ok (mat', mrc) ->
  i < shape0 mat -> zero_row mat i = false ->
  forall st, exists j st',
    MultipleRandomChoice.getitem mrc i st = (Ok j, st') /\
    (0 < entry mat i j)%Q.
Proof.
  intros Hn Hinit Hi Hz st.
  destruct (getitem_spec mat Hn Hi) as (mrc0 & rc & E & _ & H).
  rewrite Hinit in E. inversion E; subst mrc0.
  destruct (H st) as (_ & Hidx & Eg). eexists _, _. split; [exact Eg|].
  destruct (@row_choices_stored mat i
              (nth (searchsorted_right (RandomChoice.cdf rc) (sample_of st))
                 (row_choices i (nth i (transition mat) [])) 0) Hn)
    as (v0 & Hin & Hv).
  - now apply nonzero_row_transition.
  - now apply nth_In.
  - eapply entry_positive; eauto.
Qed.

Lemma nonzero_row_choice_positive_witness :
  exists mat' mrc,
    MultipleRandomChoice.init stored_zero_matrix = Ok (mat', mrc) /\
    forall st, exists j st',
      MultipleRandomChoice.getitem mrc 2 st = (Ok j, st') /\
      (0 < entry stored_zero_matrix 2 j)%Q.
Proof.
  eexists _, _. split; [reflexivity|].
  eapply (@nonzero_row_choice_positive stored_zero_matrix).
  - reflexivity.
  - reflexivity.
  - simpl. lia.
  - reflexivity.
Defined.
Lemma square_column mat i j v :
  square mat = true -> In (j, v) (nth i mat []) -> j < shape0 mat.
Proof.
  intros Hsq Hin. unfold square in Hsq. rewrite forallb_forall in Hsq.
  destruct (Nat.lt_ge_cases i (length mat)) as [Hi|Hi].
  - specialize (Hsq _ (nth_In mat [] Hi)). rewrite forallb_forall in Hsq.
    specialize (Hsq _ Hin). now apply Nat.ltb_lt in Hsq.
  - rewrite nth_overflow in Hin by assumption. contradiction.
Qed.

Lemma row_choices_in_range mat i j :
  nonneg_matrix mat = true -> square mat = true -> i < shape0 mat ->
  In j (row_choices i (nth i (transition mat) [])) -> j < shape0 mat.
Proof.
  intros Hn Hsq Hi Hin.
  destruct (nth i (transition mat) []) as [|e r] eqn:Er.
  - simpl in Hin. destruct Hin as [E|[]]. now subst.
  - rewrite <- Er in Hin.
    destruct (@row_choices_stored mat i j Hn) as (v0 & Hv0 & _).
    + rewrite Er. discriminate.
    + exact Hin.
    + eapply square_column; eauto.
Qed.

(** C10: for every vector of non-negative weights with a positive entry,
    [RandomChoice.get] returns, in every random state, an index of the
    vector; and for every square matrix of the data model with N nodes on
    which the constructor has returned a sampler, and every node [i],
    [MultipleRandomChoice.__getitem__(i)] returns, in every random state
    and without an index error, a node of [0, N). *)
Theorem get_index_in_range :
  (forall p,
     nonneg p = true -> has_positive p = true ->
     exists rc,
       RandomChoice.init p = Ok rc /\
       forall st, exists idx st',
         RandomChoice.get rc st = (Ok idx, st') /\ idx < length p)
  /\
  (forall mat mat' mrc i,
     nonneg_matrix mat = true -> square mat = true ->
     MultipleRandomChoice.init mat = Ok (mat', mrc) ->
     i < shape0 mat ->
     forall st, exists j st',
       MultipleRandomChoice.getitem mrc i st = (Ok j, st') /\
       j < shape0 mat).
Proof.
  split.
  - intros p Hn Hp.
    destruct (RandomChoice_init_ok p Hn Hp) as (rc & E & Hlen & Hsorted & Hlast).
    exists rc. split; [exact E|]. intros st.
    eexists _, _. split; [apply RandomChoice_get_eq|].
    rewrite <- Hlen. apply RandomChoice_get_first_greater; auto.
    + intros Ec. rewrite Ec in Hlen. destruct p; discriminate.
    + now rewrite Hlen.
  - intros mat mat' mrc i Hn Hsq Hinit Hi st.
    destruct (getitem_spec mat Hn Hi) as (mrc0 & rc & E & _ & H).
    rewrite Hinit in E. inversion E; subst mrc0.
    destruct (H st) as (_ & Hidx & Eg). eexists _, _. split; [exact Eg|].
    eapply row_choices_in_range; eauto. now apply nth_In.
Qed.

Lemma get_index_in_range_witness :
  (exists rc,
     RandomChoice.init [0; 2; 1]%Q = Ok rc /\
     forall st, exists idx st',
       RandomChoice.get rc st = (Ok idx, st') /\ idx < 3) /\
  (exists mat' mrc,
     MultipleRandomChoice.init stored_zero_matrix = Ok (mat', mrc) /\
     forall st, exists j st',
       MultipleRandomChoice.getitem mrc 0 st = (Ok j, st') /\ j < 3).
Proof.
  split.
  - apply (proj1 get_index_in_range [0; 2; 1]%Q); reflexivity.
  - eexists _, _. split; [reflexivity|].
    eapply (proj2 get_index_in_range stored_zero_matrix).
    + reflexivity.
    + reflexivity.
    + reflexivity.
    + simpl. lia.
Defined.
(** What the constructor went through when it returned. *)
Lemma init_Ok_inv mat mat' mrc :
  MultipleRandomChoice.init mat = Ok (mat', mrc) ->
  mat' = transition mat /\
  exists k choices probs,
    MultipleRandomChoice.first_loop mat' (shape0 mat') = Ok (k, choices, probs) /\
    MultipleRandomChoice.choices mrc = choices /\
    for_each (seq 0 (shape0 mat')) (MultipleRandomChoice.rc_body probs) []
    = Ok (MultipleRandomChoice.rc mrc).
Proof.
  unfold MultipleRandomChoice.init. intros E.
  apply rbind_Ok in E. destruct E as (T & ET & E).
  assert (HT : T = transition mat).
  { unfold normalize_l1 in ET. apply rbind_Ok in ET.
    destruct ET as (m & Em & ET). unfold check_array in Em.
    destruct (eliminate_zeros mat) eqn:Ee; [discriminate|].
    inversion Em; subst m. inversion ET. unfold transition. now rewrite Ee. }
  assert (HN : shape0 (eliminate_zeros mat) = shape0 T).
  { rewrite HT. unfold shape0, transition, inplace_csr_row_normalize_l1.
    now rewrite length_map. }
  rewrite HN in E.
  apply rbind_Ok in E. destruct E as ([[k choices] probs] & E1 & E).
  apply rbind_Ok in E. destruct E as (rcs & E2 & E).
  inversion E; subst mat' mrc. split; [exact HT|].
  exists k, choices, probs. cbn. repeat split; assumption.
Qed.

(** C9: whatever the normalisation has left in [transition_probs] (any
    matrix [T] without a negative value), when the first loop of
    [MultipleRandomChoice.__init__] returns, [T] stores no zero and the
    loop has built one weight vector per row, each with a strictly
    positive entry and accepted by [RandomChoice]: the division by a zero
    sum is not reached.  And when the constructor returns, its first loop
    has returned over the matrix that it leaves behind. *)
Theorem init_weights_positive :
  (forall T k choices probs,
     nonneg_matrix T = true ->
     MultipleRandomChoice.first_loop T (shape0 T) = Ok (k, choices, probs) ->
     stored_nonzero T /\
     length probs = shape0 T /\
     forall p, In p probs ->
       has_positive p = true /\ exists rc, RandomChoice.init p = Ok rc)
  /\
  (forall mat mat' mrc,
     MultipleRandomChoice.init mat = Ok (mat', mrc) ->
     exists k choices probs,
       MultipleRandomChoice.first_loop mat' (shape0 mat')
       = Ok (k, choices, probs)).
Proof.
  split.
  - intros T k choices probs Hn E.
    pose proof (first_loop_Ok_stored T E) as Hnz.
    unfold shape0 in *. rewrite (first_loop_spec Hnz) in E.
    inversion E; subst k choices probs. clear E.
    split; [exact Hnz|]. split; [apply length_map|].
    intros p Hp. apply in_map_iff in Hp. destruct Hp as (r & <- & Hr).
    assert (Hpos : Forall (fun e => (0 < snd e)%Q) r).
    { unfold nonneg_matrix in Hn. rewrite forallb_forall in Hn.
      specialize (Hn r Hr). apply nonneg_Forall in Hn.
      rewrite Forall_map in Hn.
      unfold stored_nonzero in Hnz. rewrite Forall_forall in Hnz.
      specialize (Hnz r Hr). rewrite Forall_forall in *.
      intros e He. specialize (Hn e He). specialize (Hnz e He).
      apply Qle_lteq in Hn. destruct Hn as [Hlt|Heq]; [exact Hlt|].
      unfold is_nonzero in Hnz. apply negb_true_iff, Qeq_bool_neq in Hnz.
      exfalso. apply Hnz. now symmetry. }
    destruct (row_probs_weights Hpos) as [Hw1 Hw2].
    split; [exact Hw2|].
    destruct (RandomChoice_init_ok _ Hw1 Hw2) as (rc & E & _). now exists rc.
  - intros mat mat' mrc E. apply init_Ok_inv in E.
    destruct E as (_ & k & choices & probs & E & _).
    now exists k, choices, probs.
Qed.

Lemma init_weights_positive_witness :
  exists mat' mrc k choices probs,
    MultipleRandomChoice.init stored_zero_matrix = Ok (mat', mrc) /\
    MultipleRandomChoice.first_loop mat' (shape0 mat') = Ok (k, choices, probs) /\
    stored_nonzero mat' /\
    length probs = shape0 mat' /\
    forall p, In p probs ->
      has_positive p = true /\ exists rc, RandomChoice.init p = Ok rc.
Proof.
  assert (Hi : { r | MultipleRandomChoice.init stored_zero_matrix = Ok r }).
  { eexists. reflexivity. }
  destruct Hi as [[mat' mrc] Hi].
  destruct (proj2 init_weights_positive stored_zero_matrix mat' mrc Hi)
    as (k & choices & probs & Hf).
  exists mat', mrc, k, choices, probs.
  split; [exact Hi|]. split; [exact Hf|].
  apply (proj1 init_weights_positive mat' k choices probs); [|exact Hf].
  vm_compute in Hi. inversion Hi; subst mat' mrc. reflexivity.
Defined.
(** ** The matrix object after the constructor *)

Lemma is_nonzero_false v : is_nonzero v = false -> (v == 0)%Q.
Proof.
  unfold is_nonzero. intros H. apply negb_false_iff in H.
  now apply Qeq_bool_iff.
Qed.

(** Dropping the stored zeros of a row without negative values leaves its
    L1 norm equal to its sum. *)
Lemma row_norm_l1_eliminate (r : list (nat * Q)) :
  nonneg (map snd r) = true ->
  (row_norm_l1 (filter (fun e => is_nonzero (snd e)) r) == sum (map snd r))%Q.
Proof.
  unfold row_norm_l1. induction r as [|e r IH]; intros Hn; simpl in *.
  - reflexivity.
  - apply andb_prop in Hn. destruct Hn as [He Hr]. apply Qle_bool_iff in He.
    destruct (is_nonzero (snd e)) eqn:Enz; simpl.
    + rewrite IH by assumption. now rewrite Qabs_pos.
    + rewrite IH by assumption. rewrite (is_nonzero_false _ Enz).
      now rewrite Qplus_0_l.
Qed.

(** Dropping the stored zeros changes no entry. *)
Lemma entry_eliminate (r : list (nat * Q)) j :
  (sum (map snd (filter (fun e => fst e =? j)
                   (filter (fun e => is_nonzero (snd e)) r)))
   == sum (map snd (filter (fun e => fst e =? j) r)))%Q.
Proof.
  induction r as [|e r IH]; simpl; [reflexivity|].
  destruct (is_nonzero (snd e)) eqn:Enz; simpl;
    destruct (fst e =? j); simpl; rewrite ?IH; try reflexivity.
  rewrite (is_nonzero_false _ Enz). now rewrite Qplus_0_l.
Qed.

(** Dividing the stored values of a row divides its entries. *)
Lemma entry_scaled (r : list (nat * Q)) s j :
  (sum (map snd (filter (fun e => fst e =? j)
                   (map (fun e => (fst e, (snd e / s)%Q)) r)))
   == sum (map snd (filter (fun e => fst e =? j) r)) / s)%Q.
Proof.
  induction r as [|e r IH]; simpl.
  - unfold Qdiv. now rewrite Qmult_0_l.
  - destruct (fst e =? j); simpl; rewrite IH; [|reflexivity].
    unfold Qdiv. now rewrite Qmult_plus_distr_l.
Qed.

Lemma map_fst_normalize_row r : map fst (normalize_row r) = map fst r.
Proof.
  unfold normalize_row. destruct (Qeq_bool (row_norm_l1 r) 0); [reflexivity|].
  rewrite map_map. reflexivity.
Qed.





(** * The batch generator *)

(** ** Loops in the drawing monad *)

Lemma for_eachM_returns {S} (I : S -> Prop) (body : nat -> S -> M S) l :
  (forall i s, In i l -> I s -> returns (body i s) I) ->
  forall s, I s -> returns (for_eachM l body s) I.
Proof.
  induction l as [|i l IH]; intros Hbody s Hs; simpl.
  - now apply returns_ret.
  - apply returns_bind with (P := I).
    + apply Hbody; [now left|assumption].
    + intros s' Hs'. apply IH; [|assumption].
      intros i' s0 Hi' Hs0. apply Hbody; [now right|assumption].
Qed.

Lemma for_eachM_Ok_inv {S} (I : S -> Prop) (body : nat -> S -> M S) l :
  (forall i s st s' st', body i s st = (Ok s', st') -> I s -> I s') ->
  forall s st s' st',
    for_eachM l body s st = (Ok s', st') -> I s -> I s'.
Proof.
  intros Hbody. induction l as [|i l IH]; intros s st s' st' E Hs; simpl in E.
  - inversion E. now subst.
  - apply bind_Ok_inv in E. destruct E as (s1 & st1 & E1 & E2).
    eapply IH; [exact E2|]. eapply Hbody; eauto.
Qed.

Lemma returns_Ok_inv {A} (c : M A) (P : A -> Prop) st a st' :
  returns c P -> c st = (Ok a, st') -> P a.
Proof.
  intros H E. destruct (H st) as (a0 & st0 & E0 & Ha). rewrite E in E0.
  inversion E0. now subst.
Qed.

Lemma randint_Ok_inv low high size st l st' :
  randint low high size st = (Ok l, st') ->
  length l = size /\ Forall (fun v => low <= v < high) l.
Proof.
  intros E. destruct (Nat.le_gt_cases high low) as [H|H].
  - unfold randint in E. apply Nat.leb_le in H. rewrite H in E. discriminate.
  - destruct (N.ltb_spec int32_high (N.of_nat high)) as [Hb|Hb].
    + unfold randint in E. apply N.ltb_lt in Hb. rewrite Hb, orb_true_r in E.
      discriminate.
    + apply (@returns_Ok_inv _ (randint low high size)
               (fun l => length l = size /\ Forall (fun v => low <= v < high) l)
               st l st'); [now apply randint_returns|exact E].
Qed.

Lemma setitem_Ok_inv {A} (a : list A) i v r :
  setitem a i v = Ok r -> length r = length a.
Proof.
  unfold setitem. destruct (i <? length a); intros E; inversion E.
  apply length_update.
Qed.

Lemma Forall_tile {A} (P : A -> Prop) a reps :
  Forall P a -> Forall P (tile a reps).
Proof.
  intros H. induction reps as [|r IH]; simpl; [constructor|].
  apply Forall_app. split; assumption.
Qed.

Lemma length_ones n : length (ones n) = n.
Proof. apply repeat_length. Qed.

Lemma length_labels b k :
  length (hstack (ones b) (neg (ones (b * k)))) = b * (1 + k).
Proof.
  unfold hstack, neg. rewrite length_app, length_map, !length_ones. lia.
Qed.

Lemma returns_strengthen {A} (c : M A) (P : A -> Prop) :
  returns c (fun _ => True) ->
  (forall st a st', c st = (Ok a, st') -> P a) ->
  returns c P.
Proof.
  intros Hc HP st. destruct (Hc st) as (a & st' & E & _).
  exists a, st'. split; [exact E|]. eapply HP. exact E.
Qed.

(** ** One iteration: the arrays before the shuffle *)

Section IterationFacts.

Variables (number_nodes : nat) (random_choice : MultipleRandomChoice.t).
Variables (number_negative batch_size : nat).

Let L := batch_size * (1 + number_negative).

Lemma positive_body_length batch_u j bv st bv' st' :
  positive_body random_choice batch_u j bv st = (Ok bv', st') ->
  length bv = batch_size -> length bv' = batch_size.
Proof.
  unfold positive_body. intros E Hl.
  apply bind_Ok_inv in E. destruct E as (u & st1 & _ & E).
  apply bind_Ok_inv in E. destruct E as (v & st2 & _ & E).
  apply lift_Ok_inv in E. destruct E as [E _].
  apply setitem_Ok_inv in E. congruence.
Qed.

(** What [assemble] returns, when it returns: the sources are the drawn
    nodes tiled, the targets are the [batch_size] targets of the sampler
    followed by the uniform ones, and the labels are [batch_size] times 1
    followed by -1. *)
Lemma assemble_Ok_inv st b st' :
  assemble number_nodes random_choice number_negative batch_size st
  = (Ok b, st') ->
  exists drawn positives negatives st1 st2,
    randint 0 number_nodes batch_size st = (Ok drawn, st1) /\
    for_eachM (seq 0 batch_size)
      (positive_body random_choice (tile drawn (number_negative + 1)))
      (zeros batch_size) st1 = (Ok positives, st2) /\
    randint 0 number_nodes (batch_size * number_negative) st2
    = (Ok negatives, st') /\
    length drawn = batch_size /\
    length positives = batch_size /\
    length negatives = batch_size * number_negative /\
    b = (tile drawn (number_negative + 1),
         hstack positives negatives,
         hstack (ones batch_size) (neg (ones (batch_size * number_negative)))).
Proof.
  unfold assemble. intros E.
  apply bind_Ok_inv in E. destruct E as (drawn & st1 & E1 & E).
  apply bind_Ok_inv in E. destruct E as (positives & st2 & E2 & E).
  apply bind_Ok_inv in E. destruct E as (negatives & st3 & E3 & E).
  unfold ret in E. inversion E; subst. clear E.
  exists drawn, positives, negatives, st1, st2.
  repeat split; auto.
  - apply (randint_Ok_inv _ _ _ _ E1).
  - eapply (@for_eachM_Ok_inv _ (fun bv => length bv = batch_size));
      [|exact E2|apply repeat_length].
    intros i s st0 s' st0' Hb Hs. eapply positive_body_length; eauto.
  - apply (randint_Ok_inv _ _ _ _ E3).
Qed.

Lemma assemble_lengths st u v x st' :
  assemble number_nodes random_choice number_negative batch_size st
  = (Ok (u, v, x), st') ->
  length u = L /\ length v = L /\ length x = L.
Proof.
  intros E. apply assemble_Ok_inv in E.
  destruct E as (drawn & pos & negs & st1 & st2 & _ & _ & _ & Hd & Hp & Hn & E).
  inversion E; subst. unfold L, hstack.
  rewrite length_tile, length_labels, length_app. lia.
Qed.

Lemma assemble_returns :
  sampler_ok number_nodes random_choice -> 0 < number_nodes ->
  fits_int32 number_nodes ->
  returns (assemble number_nodes random_choice number_negative batch_size)
    (fun b => length (fst (fst b)) = L /\ length (snd (fst b)) = L /\
              length (snd b) = L).
Proof.
  intros Hok HN Hfit. apply returns_strengthen.
  2:{ intros st [[u v] x] st' E. simpl. eapply assemble_lengths; eauto. }
  unfold assemble.
  apply returns_bind with
    (P := fun l => length l = batch_size /\
                   Forall (fun v => 0 <= v < number_nodes) l).
  { now apply randint_returns. }
  intros drawn [Hd Hrange].
  apply returns_bind with (P := fun bv => length bv = batch_size).
  { apply for_eachM_returns; [|apply repeat_length].
    intros j bv Hj Hbv. apply in_seq in Hj. unfold positive_body.
    assert (Hju : j < length (tile drawn (number_negative + 1))).
    { rewrite length_tile, Hd. nia. }
    apply returns_bind with (P := fun u => u < number_nodes).
    { rewrite (getitem_nth _ 0 Hju). apply returns_lift.
      pose proof (Forall_tile (number_negative + 1) Hrange) as Ht.
      rewrite Forall_forall in Ht. apply Ht. now apply nth_In. }
    intros u Hu. apply returns_bind with (P := fun _ => True).
    { now apply Hok. }
    intros v _. unfold setitem.
    destruct (Nat.ltb_spec j (length bv)) as [_|Hge]; [|lia].
    apply returns_lift. now rewrite length_update. }
  intros positives _.
  apply returns_bind with (P := fun _ => True).
  { eapply returns_weaken; [now apply randint_returns|auto]. }
  intros negatives _. now apply returns_ret.
Qed.

End IterationFacts.

(** ** One iteration: the shuffle *)

Lemma length_triples u v x :
  length u = length x -> length v = length x ->
  length (triples (u, v, x)) = length x.
Proof.
  intros Hu Hv. unfold triples. rewrite !length_combine. lia.
Qed.

(** What [shuffled] returns, when it returns: the three arrays indexed by
    one and the same permutation of their indices, so that the triples of
    the batch are those it was given, in another order. *)
Lemma shuffled_Ok_inv u v x st b st' :
  length u = length x -> length v = length x ->
  shuffled (u, v, x) st = (Ok b, st') ->
  exists shuind,
    Permutation (arange (length x)) shuind /\
    take u shuind = Ok (fst (fst b)) /\
    take v shuind = Ok (snd (fst b)) /\
    take x shuind = Ok (snd b) /\
    length (fst (fst b)) = length x /\
    length (snd (fst b)) = length x /\
    length (snd b) = length x /\
    Permutation (triples (u, v, x)) (triples b).
Proof.
  intros Hu Hv E. unfold shuffled in E.
  apply bind_Ok_inv in E. destruct E as (shuind & st1 & Es & E).
  apply bind_Ok_inv in E. destruct E as (u' & st2 & Eu & E).
  apply bind_Ok_inv in E. destruct E as (v' & st3 & Ev & E).
  apply bind_Ok_inv in E. destruct E as (x' & st4 & Ex & E).
  unfold ret in E. inversion E; subst. clear E.
  apply lift_Ok_inv in Eu, Ev, Ex.
  destruct Eu as [Eu _], Ev as [Ev _], Ex as [Ex _].
  assert (HP : Permutation (arange (length x)) shuind).
  { apply (@returns_Ok_inv _ (shuffle (arange (length x)))
             (fun y => Permutation (arange (length x)) y) st shuind st1);
      [apply shuffle_returns|exact Es]. }
  assert (Hlen : length shuind = length x).
  { rewrite <- (Permutation_length HP). apply length_seq. }
  exists shuind. cbn [fst snd].
  repeat split; auto;
    try (erewrite take_length by eassumption; exact Hlen).
  assert (Euv : take (combine u v) shuind = Ok (combine u' v')).
  { apply take_combine; auto. congruence. }
  assert (Euvx : take (combine (combine u v) x) shuind
                 = Ok (combine (combine u' v') x')).
  { apply take_combine; auto. rewrite length_combine. lia. }
  destruct (@take_Permutation _ (combine (combine u v) x) shuind)
    as (r & Er & Hr).
  { change (combine (combine u v) x) with (triples (u, v, x)).
    rewrite length_triples by assumption. exact HP. }
  rewrite Euvx in Er. inversion Er; subst r. exact Hr.
Qed.

Lemma shuffled_returns u v x :
  length u = length x -> length v = length x ->
  returns (shuffled (u, v, x)) (fun _ => True).
Proof.
  intros Hu Hv. unfold shuffled.
  apply returns_bind with (P := fun y => Permutation (arange (length x)) y).
  { apply shuffle_returns. }
  intros shuind HP.
  destruct (@take_Permutation _ u shuind) as (u' & Eu & _);
    [now rewrite Hu|].
  destruct (@take_Permutation _ v shuind) as (v' & Ev & _);
    [now rewrite Hv|].
  destruct (@take_Permutation _ x shuind) as (x' & Ex & _); [assumption|].
  rewrite Eu, Ev, Ex.
  apply returns_bind with (P := fun _ => True); [now apply returns_lift|].
  intros ? _.
  apply returns_bind with (P := fun _ => True); [now apply returns_lift|].
  intros ? _.
  apply returns_bind with (P := fun _ => True); [now apply returns_lift|].
  intros ? _. now apply returns_ret.
Qed.

Lemma iteration_returns number_nodes random_choice number_negative batch_size :
  sampler_ok number_nodes random_choice -> 0 < number_nodes ->
  fits_int32 number_nodes ->
  returns (iteration number_nodes random_choice number_negative batch_size)
    (fun _ => True).
Proof.
  intros Hok HN Hfit. unfold iteration.
  eapply returns_bind; [now apply assemble_returns|].
  intros [[u v] x] (Hu & Hv & Hx). simpl in *.
  apply shuffled_returns; congruence.
Qed.

(** Every batch of an iteration comes from arrays of the right length by
    one permutation. *)
Lemma iteration_Ok_inv number_nodes random_choice number_negative batch_size
  st b st' :
  iteration number_nodes random_choice number_negative batch_size st
  = (Ok b, st') ->
  exists pre st1 shuind,
    assemble number_nodes random_choice number_negative batch_size st
    = (Ok pre, st1) /\
    Permutation (arange (batch_size * (1 + number_negative))) shuind /\
    take (fst (fst pre)) shuind = Ok (fst (fst b)) /\
    take (snd (fst pre)) shuind = Ok (snd (fst b)) /\
    take (snd pre) shuind = Ok (snd b) /\
    length (fst (fst b)) = batch_size * (1 + number_negative) /\
    length (snd (fst b)) = batch_size * (1 + number_negative) /\
    length (snd b) = batch_size * (1 + number_negative) /\
    Permutation (triples pre) (triples b).
Proof.
  unfold iteration. intros E.
  apply bind_Ok_inv in E. destruct E as ([[u v] x] & st1 & Ea & Es).
  destruct (@assemble_lengths number_nodes random_choice number_negative
              batch_size st u v x st1 Ea) as (Hu & Hv & Hx).
  destruct (@shuffled_Ok_inv u v x st1 b st') as (shuind & H);
    [congruence|congruence|exact Es|].
  exists (u, v, x), st1, shuind. cbn [fst snd]. rewrite Hx in H.
  split; [exact Ea|exact H].
Qed.

(** ** The generator object *)

Lemma loop_from_inv X number_nodes random_choice number_negative
  number_iterations batch_size i st o g' st' :
  loop_from X number_nodes random_choice number_negative number_iterations
    batch_size i st = (o, g', st') ->
  generator_params g' number_negative batch_size /\
  (o = StopIteration \/ (exists e, o = Error e) -> g' = Finished) /\
  forall b, o = Yield b ->
    iteration number_nodes random_choice number_negative batch_size st
    = (Ok b, st').
Proof.
  unfold loop_from. destruct (i <? number_iterations).
  - destruct (iteration number_nodes random_choice number_negative batch_size st)
      as [[b|e] st1]; intros E; inversion E; subst; simpl.
    + split; [auto|]. split.
      * intros [H|[e H]]; discriminate.
      * intros b0 Hb. inversion Hb. reflexivity.
    + split; [auto|]. split; [auto|]. intros b0 Hb. discriminate.
  - intros E. inversion E; subst. simpl.
    split; [auto|]. split; [auto|]. intros b0 Hb. discriminate.
Qed.

Lemma generator_next_inv g number_negative batch_size st o g' st' :
  generator_params g number_negative batch_size ->
  generator_next g st = (o, g', st') ->
  generator_params g' number_negative batch_size /\
  (o = StopIteration \/ (exists e, o = Error e) -> g' = Finished) /\
  forall b, o = Yield b ->
    exists number_nodes random_choice,
      iteration number_nodes random_choice number_negative batch_size st
      = (Ok b, st').
Proof.
  intros Hp E. destruct g as [X k n b0|X N rc k n b0 i|]; simpl in *.
  - destruct Hp as [-> ->].
    destruct (MultipleRandomChoice.init X) as [[X' rc]|e].
    + apply loop_from_inv in E. destruct E as (H1 & H2 & H3).
      split; [exact H1|]. split; [exact H2|]. intros b Hb. eauto.
    + inversion E; subst. simpl. split; [auto|]. split; [auto|].
      intros b Hb. discriminate.
  - destruct Hp as [-> ->].
    apply loop_from_inv in E. destruct E as (H1 & H2 & H3).
    split; [exact H1|]. split; [exact H2|]. intros b Hb. eauto.
  - inversion E; subst. simpl. split; [auto|]. split; [auto|].
    intros b Hb. discriminate.
Qed.

Lemma run_finished n st :
  run generator_next n Finished st = repeat StopIteration n.
Proof. induction n as [|n IH]; simpl; [reflexivity|]. now rewrite IH. Qed.

Lemma run_yielded n : forall g number_negative batch_size st b,
  generator_params g number_negative batch_size ->
  In (Yield b) (run generator_next n g st) ->
  exists number_nodes random_choice st0 st1,
    iteration number_nodes random_choice number_negative batch_size st0
    = (Ok b, st1).
Proof.
  induction n as [|n IH]; intros g k bs st b Hp Hin; simpl in Hin; [contradiction|].
  destruct (generator_next g st) as [[o g'] st'] eqn:E.
  destruct (@generator_next_inv g k bs st o g' st' Hp E) as (Hp' & _ & Hy).
  destruct Hin as [Ho|Hin].
  - destruct (Hy b Ho) as (N & rc & Hit). eauto.
  - eapply IH; eauto.
Qed.

Lemma init_sampler_ok mat :
  nonneg_matrix mat = true -> 0 < length mat ->
  exists mrc,
    MultipleRandomChoice.init mat = Ok (transition mat, mrc) /\
    sampler_ok (length mat) mrc.
Proof.
  intros Hn Hlen. destruct (init_spec mat Hn Hlen) as (rcs & E & _).
  eexists. split; [exact E|]. intros i Hi st.
  destruct (getitem_spec mat Hn Hi) as (mrc' & rc & E' & _ & H).
  rewrite E in E'. inversion E'; subst mrc'.
  destruct (H st) as (_ & _ & Eg). eexists _, _. split; [exact Eg|exact I].
Qed.

(** The loop entered at index [i] with [k] iterations to go: [k] batches,
    then the end of the sequence for ever. *)
Lemma run_loop X number_nodes random_choice number_negative number_iterations
  batch_size m :
  sampler_ok number_nodes random_choice -> 0 < number_nodes ->
  fits_int32 number_nodes ->
  forall k i g st,
    (forall st, generator_next g st
                = loop_from X number_nodes random_choice number_negative
                    number_iterations batch_size i st) ->
    i + k = number_iterations ->
    exists bs,
      length bs = k /\
      run generator_next (k + m) g st = map Yield bs ++ repeat StopIteration m.
Proof.
  intros Hok HN Hfit. induction k as [|k IH]; intros i g st Hg Hik.
  - exists []. split; [reflexivity|]. simpl.
    destruct m as [|m]; [reflexivity|]. simpl. rewrite Hg. unfold loop_from.
    destruct (Nat.ltb_spec i number_iterations) as [Hlt|_]; [lia|].
    now rewrite run_finished.
  - destruct (@iteration_returns number_nodes random_choice number_negative
                batch_size Hok HN Hfit st) as (b & st' & Eit & _).
    destruct (IH (S i)
                (Suspended X number_nodes random_choice number_negative
                   number_iterations batch_size i) st')
      as (bs & Hlen & Erun); [reflexivity|lia|].
    exists (b :: bs). split; [simpl; now rewrite Hlen|].
    simpl. rewrite Hg. unfold loop_from at 1.
    destruct (Nat.ltb_spec i number_iterations) as [_|Hge]; [|lia].
    rewrite Eit, Erun. reflexivity.
Qed.

(** C7, as stated, fails: over a matrix without a row, with no iteration
    asked for, the first [next] does not end the sequence normally: the
    constructor runs first, and sklearn's [normalize] raises ValueError. *)
Lemma generate_batches_no_row :
  run generator_next (0 + 1) (generate_batches [] 0 0 0) zero_state
  = [Error ValueError] /\
  ~ exists bs,
      length bs = 0 /\
      run generator_next (0 + 1) (generate_batches [] 0 0 0) zero_state
      = map Yield bs ++ repeat StopIteration 1.
Proof.
  split; [reflexivity|]. intros (bs & Hlen & E).
  destruct bs; [|discriminate]. discriminate.
Qed.

(** C7, amended: for every matrix of the data model on which
    [MultipleRandomChoice] can be constructed (the constructor returns,
    which needs a row) and whose number of nodes is within the bounds of
    [np.int32], and for every [number_negative], [number_iterations] and
    [batch_size], the generator of [generate_batches] yields exactly
    [number_iterations] batches; every further [next] ends normally with
    StopIteration, and no call raises. *)
Theorem generate_batches_length (X X' : csr_matrix)
  (random_choice : MultipleRandomChoice.t)
  (number_negative number_iterations batch_size : nat)
  (st : RandomState) (m : nat) :
  nonneg_matrix X = true ->
  MultipleRandomChoice.init X = Ok (X', random_choice) ->
  fits_int32 (shape0 X) ->
  exists bs,
    length bs = number_iterations /\
    run generator_next (number_iterations + m)
      (generate_batches X number_negative number_iterations batch_size) st
    = map Yield bs ++ repeat StopIteration m.
Proof.
  intros Hn Hinit Hfit.
  pose proof (@init_Ok_rows X X' random_choice Hinit) as HN.
  destruct (init_sampler_ok X Hn HN) as (mrc & E & Hok).
  apply (@run_loop (transition X) (shape0 X) mrc number_negative
           number_iterations batch_size m Hok HN Hfit number_iterations 0).
  - intros st0. simpl. rewrite E. reflexivity.
  - reflexivity.
Qed.

Lemma generate_batches_length_witness :
  exists bs,
    length bs = 2 /\
    run generator_next (2 + 3) (generate_batches stored_zero_matrix 3 2 2)
      zero_state
    = map Yield bs ++ repeat StopIteration 3.
Proof.
  assert (Hi : { r | MultipleRandomChoice.init stored_zero_matrix = Ok r }).
  { eexists. reflexivity. }
  destruct Hi as [[X' rc] Hi].
  apply (@generate_batches_length stored_zero_matrix X' rc 3 2 2 zero_state 3).
  - reflexivity.
  - exact Hi.
  - unfold fits_int32, int32_high. simpl. lia.
Defined.
(** ** The prefetching wrapper *)

Lemma run_async_finished n st :
  run async_next n AFinished st = repeat StopIteration n.
Proof. induction n as [|n IH]; simpl; [reflexivity|]. now rewrite IH. Qed.

(** The wrapper suspended with the result of the next call of the wrapped
    generator stands where the wrapped generator stood before that call. *)
Lemma run_async_suspended n : forall it st o it' st',
  generator_next it st = (o, it', st') ->
  run async_next n (ASuspended it' o) st' = run generator_next n it st.
Proof.
  induction n as [|n IH]; intros it st o it' st' E; [reflexivity|].
  cbn [run]. rewrite E.
  assert (Hend : o = StopIteration \/ (exists e, o = Error e) -> it' = Finished).
  { destruct it as [X k ni b|X N rc k ni b i|].
    - destruct (@generator_next_inv (Created X k ni b) k b st o it' st')
        as (_ & H & _); [simpl; auto|exact E|exact H].
    - destruct (@generator_next_inv (Suspended X N rc k ni b i) k b st o it' st')
        as (_ & H & _); [simpl; auto|exact E|exact H].
    - destruct (@generator_next_inv Finished 0 0 st o it' st')
        as (_ & H & _); [exact I|exact E|exact H]. }
  destruct o as [b| |e]; cbn [async_next].
  - unfold async_loop. cbn [truth].
    destruct (generator_next it' st') as [[o2 it2] st2] eqn:E2.
    f_equal. now apply IH.
  - rewrite Hend by now left. now rewrite run_async_finished, run_finished.
  - rewrite Hend by (right; now exists e).
    now rewrite run_async_finished, run_finished.
Qed.

(** C4: for every matrix, parameters and random state, the successive
    calls of [next] on [async_batches] give what the same calls give on
    [generate_batches]: the same batches in the same order, the same end
    of the sequence and the same exception if one is raised, with no
    element more and none less. *)
Theorem async_batches_same (X : csr_matrix)
  (number_negative number_iterations batch_size : nat)
  (st : RandomState) (n : nat) :
  run async_next n
    (async_batches X number_negative number_iterations batch_size) st
  = run generator_next n
      (generate_batches X number_negative number_iterations batch_size) st.
Proof.
  destruct n as [|n]; [reflexivity|]. cbn [run].
  unfold async_batches. cbn [async_next].
  destruct (generator_next
              (generate_batches X number_negative number_iterations batch_size)
              st) as [[o it'] st'] eqn:E.
  assert (Hend : o = StopIteration \/ (exists e, o = Error e) -> it' = Finished).
  { destruct (@generator_next_inv
                (generate_batches X number_negative number_iterations batch_size)
                number_negative batch_size st o it' st')
      as (_ & H & _); [simpl; auto|exact E|exact H]. }
  destruct o as [b| |e].
  - unfold async_loop. cbn [truth].
    destruct (generator_next it' st') as [[o2 it2] st2] eqn:E2.
    f_equal. now apply run_async_suspended.
  - rewrite Hend by now left. now rewrite run_async_finished, run_finished.
  - rewrite Hend by (right; now exists e).
    now rewrite run_async_finished, run_finished.
Qed.

(** ** The labels of a batch *)

Lemma map_snd_combine {A B} (l : list A) (l' : list B) :
  length l = length l' -> map snd (combine l l') = l'.
Proof.
  revert l'; induction l as [|a l IH]; intros [|b l'] H; simpl in *;
    try discriminate; [reflexivity|].
  f_equal. apply IH. lia.
Qed.

Lemma Permutation_filter_length {A} (f : A -> bool) l l' :
  Permutation l l' -> length (filter f l) = length (filter f l').
Proof.
  induction 1 as [|x l l' _ IH|x y l|l l' l'' _ IH1 _ IH2]; simpl.
  - reflexivity.
  - destruct (f x); simpl; now rewrite IH.
  - destruct (f x), (f y); reflexivity.
  - now rewrite IH1.
Qed.

Lemma filter_repeat_true {A} (f : A -> bool) x n :
  f x = true -> filter f (repeat x n) = repeat x n.
Proof.
  intros H. induction n as [|n IH]; simpl; [reflexivity|]. now rewrite H, IH.
Qed.

Lemma filter_repeat_false {A} (f : A -> bool) x n :
  f x = false -> filter f (repeat x n) = [].
Proof.
  intros H. induction n as [|n IH]; simpl; [reflexivity|]. now rewrite H.
Qed.

Lemma neg_ones n : neg (ones n) = repeat (-1)%Q n.
Proof.
  unfold neg, ones. induction n as [|n IH]; simpl; [reflexivity|].
  now rewrite IH.
Qed.

(** In every batch that the generator yields, the [batch_size] pairs whose
    target the sampler drew carry the label 1 and the
    [batch_size * number_negative] pairs with a uniform target carry the
    label -1: the batch holds the triples of these arrays, and so
    [batch_size] labels 1 and [batch_size * number_negative] labels -1. *)
Lemma yielded_labels X number_negative number_iterations batch_size st b :
  yielded X number_negative number_iterations batch_size st b ->
  (exists drawn positives negatives,
     length positives = batch_size /\
     length negatives = batch_size * number_negative /\
     Permutation
       (triples (tile drawn (number_negative + 1),
                 positives ++ negatives,
                 repeat 1%Q batch_size
                 ++ repeat (-1)%Q (batch_size * number_negative)))
       (triples b)) /\
  count_label 1 b = batch_size /\
  count_label (-1) b = batch_size * number_negative.
Proof.
  intros [n Hin].
  destruct (@run_yielded n
              (generate_batches X number_negative number_iterations batch_size)
              number_negative batch_size st b)
    as (N & rc & st0 & st2 & Hit); [simpl; auto|exact Hin|].
  destruct (@iteration_Ok_inv N rc number_negative batch_size st0 b st2 Hit)
    as (pre & st1 & shuind & Ea & _ & _ & _ & _ & Hu & Hv & Hx & HP).
  pose proof Ea as Ea'. apply assemble_Ok_inv in Ea'.
  destruct Ea' as (drawn & pos & negs & s1 & s2 & _ & _ & _ & Hd & Hp & Hng & Epre).
  assert (Hlab : Permutation
            (repeat 1%Q batch_size ++ repeat (-1)%Q (batch_size * number_negative))
            (snd b)).
  { destruct b as [[u v] x]. simpl in *. subst pre.
    apply (Permutation_map snd) in HP. unfold triples in HP.
    rewrite !map_snd_combine in HP;
      [unfold hstack in HP; now rewrite neg_ones in HP| |];
      unfold hstack, neg;
      rewrite ?length_combine, ?length_tile, ?length_app, ?length_map,
        ?length_ones; nia. }
  split.
  - exists drawn, pos, negs. split; [exact Hp|]. split; [exact Hng|].
    subst pre. unfold hstack in HP. now rewrite neg_ones in HP.
  - unfold count_label.
    rewrite <- !(Permutation_filter_length _ Hlab), !filter_app.
    rewrite (@filter_repeat_true _ (Qeq_bool 1) 1%Q) by reflexivity.
    rewrite (@filter_repeat_false _ (Qeq_bool 1) (-1)%Q) by reflexivity.
    rewrite (@filter_repeat_false _ (Qeq_bool (-1)) 1%Q) by reflexivity.
    rewrite (@filter_repeat_true _ (Qeq_bool (-1)) (-1)%Q) by reflexivity.
    rewrite !length_app, !repeat_length. simpl. lia.
Qed.

(** C1 on the code: with the matrix [[0, 1], [0, 0]], [batch_size = 1] and
    [number_negative = 3], the arrays of the first batch before the shuffle
    hold the positive pair (0, 1), whose target the sampler drew along the
    only edge, with the label 1, and the three negative pairs with the
    label -1; the batch that is yielded has one label 1 and three labels
    -1. *)
Theorem positive_pair_labelled_one :
  exists mat' random_choice b,
    MultipleRandomChoice.init example_matrix = Ok (mat', random_choice) /\
    fst (assemble 2 random_choice 3 1 zero_state)
    = Ok ([0; 0; 0; 0], [1; 0; 0; 0], [1; -1; -1; -1]%Q) /\
    run generator_next 1 (generate_batches example_matrix 3 1 1) zero_state
    = [Yield b] /\
    count_label 1 b = 1 /\ count_label (-1) b = 3.
Proof.
  eexists _, _, _. split; [reflexivity|]. split; [reflexivity|].
  split; [vm_compute; reflexivity|]. split; reflexivity.
Qed.

(** * Further properties of the samplers *)

(** ** The table of RandomChoice *)




Lemma prefix_all p : prefix p (length p) = sum p.
Proof. unfold prefix. now rewrite firstn_all. Qed.








(** ** The sampler of a matrix, row by row *)

Lemma length_choices_from i mat : length (choices_from i mat) = length mat.
Proof.
  revert i; induction mat as [|r mat IH]; intros i; simpl; [reflexivity|].
  now rewrite IH.
Qed.

Lemma Forall2_length_eq {A B} (P : A -> B -> Prop) l l' :
  Forall2 P l l' -> length l = length l'.
Proof. induction 1; simpl; congruence. Qed.

Lemma nth_choices_from mat i :
  i < length mat ->
  nth i (choices_from 0 mat) [] = row_choices i (nth i mat []).
Proof.
  intros Hi. apply nth_error_nth.
  apply (nth_error_choices_from mat 0 i). now apply nth_error_nth'.
Qed.

(** The choices of row [i] in terms of the matrix passed in. *)
Lemma row_choices_transition mat i :
  row_choices i (nth i (transition mat) [])
  = if zero_row mat i then [i] else map fst (nonzero_entries mat i).
Proof.
  destruct (zero_row mat i) eqn:Ez.
  - now rewrite (zero_row_transition mat i Ez).
  - pose proof (nonzero_row_transition mat i Ez) as Hne.
    destruct (nth i (transition mat) []) as [|e r] eqn:Er; [congruence|].
    cbn [row_choices]. rewrite <- Er, nth_transition.
    apply map_fst_normalize_row.
Qed.

(** X5: on a matrix of the data model on which the constructor has
    returned, the sampler holds one list of choices and one table per
    node; the choices of a row are the columns of its non-zero stored
    entries, in storage order, and the node itself for a row of zeros. *)
Theorem init_choices (mat mat' : csr_matrix) (mrc : MultipleRandomChoice.t) :
  nonneg_matrix mat = true ->
  MultipleRandomChoice.init mat = Ok (mat', mrc) ->
  MultipleRandomChoice.nodes_number mrc = shape0 mat /\
  length (MultipleRandomChoice.choices mrc) = shape0 mat /\
  length (MultipleRandomChoice.rc mrc) = shape0 mat /\
  forall i, i < shape0 mat ->
    nth i (MultipleRandomChoice.choices mrc) []
    = if zero_row mat i then [i] else map fst (nonzero_entries mat i).
Proof.
  intros Hn Hinit.
  destruct (@init_spec mat Hn (@init_Ok_rows mat mat' mrc Hinit))
    as (rcs & E & Hall).
  rewrite Hinit in E. inversion E; subst mat' mrc. cbn.
  split; [reflexivity|]. split.
  { rewrite length_choices_from. apply length_transition. }
  split.
  { rewrite <- (Forall2_length_eq Hall), length_map. apply length_transition. }
  intros i Hi. rewrite nth_choices_from by now rewrite length_transition.
  apply row_choices_transition.
Qed.

Lemma init_choices_witness :
  exists mat' mrc,
    MultipleRandomChoice.init stored_zero_matrix = Ok (mat', mrc) /\
    MultipleRandomChoice.nodes_number mrc = shape0 stored_zero_matrix /\
    length (MultipleRandomChoice.choices mrc) = shape0 stored_zero_matrix /\
    length (MultipleRandomChoice.rc mrc) = shape0 stored_zero_matrix /\
    forall i, i < shape0 stored_zero_matrix ->
      nth i (MultipleRandomChoice.choices mrc) []
      = if zero_row stored_zero_matrix i then [i]
        else map fst (nonzero_entries stored_zero_matrix i).
Proof.
  eexists _, _. split; [reflexivity|].
  eapply (@init_choices stored_zero_matrix); reflexivity.
Defined.

(** X6: on a sampler that the constructor has returned,
    [MultipleRandomChoice.__getitem__] with an argument that is not a
    node raises IndexError and draws nothing. *)
Theorem getitem_out_of_range (mat mat' : csr_matrix)
  (mrc : MultipleRandomChoice.t) :
  nonneg_matrix mat = true ->
  MultipleRandomChoice.init mat = Ok (mat', mrc) ->
  forall arg st, shape0 mat <= arg ->
    MultipleRandomChoice.getitem mrc arg st = (Raise IndexError, st).
Proof.
  intros Hn Hinit.
  destruct (@init_spec mat Hn (@init_Ok_rows mat mat' mrc Hinit))
    as (rcs & E & _).
  rewrite Hinit in E. inversion E; subst mat' mrc. intros arg st Harg.
  unfold MultipleRandomChoice.getitem, bind, lift. cbn.
  unfold getitem at 1.
  assert (Hnone : nth_error (choices_from 0 (transition mat)) arg = None).
  { apply nth_error_None. rewrite length_choices_from, length_transition.
    exact Harg. }
  now rewrite Hnone.
Qed.

Lemma getitem_out_of_range_witness :
  exists mat' mrc,
    MultipleRandomChoice.init stored_zero_matrix = Ok (mat', mrc) /\
    forall arg st, shape0 stored_zero_matrix <= arg ->
      MultipleRandomChoice.getitem mrc arg st = (Raise IndexError, st).
Proof.
  eexists _, _. split; [reflexivity|].
  eapply (@getitem_out_of_range stored_zero_matrix); reflexivity.
Defined.
(** * Further properties of the batch generator *)

Lemma generator_next_from X g number_negative batch_size st o g' st' :
  generator_from X g -> generator_params g number_negative batch_size ->
  generator_next g st = (o, g', st') ->
  generator_from X g' /\
  generator_params g' number_negative batch_size /\
  forall b, o = Yield b ->
    exists X' random_choice,
      MultipleRandomChoice.init X = Ok (X', random_choice) /\
      iteration (shape0 X) random_choice number_negative batch_size st
      = (Ok b, st').
Proof.
  intros Hf Hp E.
  destruct (@generator_next_inv g number_negative batch_size st o g' st' Hp E)
    as (Hp' & _ & _).
  split; [|split; [exact Hp'|]].
  - destruct g as [X0 k n b0|X0 N rc k n b0 i|]; simpl in *.
    + subst X0. destruct (MultipleRandomChoice.init X) as [[X' rc]|e] eqn:Ei.
      * unfold loop_from in E. destruct (0 <? n).
        -- destruct (iteration (shape0 X) rc k b0 st) as [[b|e] st1];
             inversion E; subst; simpl; auto.
        -- inversion E; subst. exact I.
      * inversion E; subst. exact I.
    + unfold loop_from in E. destruct (S i <? n).
      * destruct (iteration N rc k b0 st) as [[b|e] st1];
          inversion E; subst; simpl; auto.
      * inversion E; subst. exact I.
    + inversion E; subst. exact I.
  - intros b ->. destruct g as [X0 k n b0|X0 N rc k n b0 i|]; simpl in *.
    + subst X0. destruct Hp as [-> ->].
      destruct (MultipleRandomChoice.init X) as [[X' rc]|e] eqn:Ei;
        [|discriminate].
      exists X', rc. split; [reflexivity|].
      now apply (loop_from_inv _ _ _ _ _ _ _ _ E).
    + destruct Hp as [-> ->]. destruct Hf as [-> Hi].
      exists X0, rc. split; [exact Hi|].
      now apply (loop_from_inv _ _ _ _ _ _ _ _ E).
    + discriminate.
Qed.

Lemma run_yielded_from n : forall X g number_negative batch_size st b,
  generator_from X g -> generator_params g number_negative batch_size ->
  In (Yield b) (run generator_next n g st) ->
  exists X' random_choice st0 st1,
    MultipleRandomChoice.init X = Ok (X', random_choice) /\
    iteration (shape0 X) random_choice number_negative batch_size st0
    = (Ok b, st1).
Proof.
  induction n as [|n IH]; intros X g k bs st b Hf Hp Hin; simpl in Hin;
    [contradiction|].
  destruct (generator_next g st) as [[o g'] st'] eqn:E.
  destruct (@generator_next_from X g k bs st o g' st' Hf Hp E) as (Hf' & Hp' & Hy).
  destruct Hin as [Ho|Hin].
  - destruct (Hy b Ho) as (X' & rc & Hi & Hit). eauto 6.
  - eapply IH; eauto.
Qed.

(** The call of [next] that gives an element of a run, by the number of
    calls before it. *)
Lemma run_In n : forall g st o,
  In o (run generator_next n g st) ->
  exists j,
    j < n /\
    fst (fst (generator_next (fst (run_end generator_next j g st))
                (snd (run_end generator_next j g st)))) = o.
Proof.
  induction n as [|n IH]; intros g st o Hin; simpl in Hin; [contradiction|].
  destruct (generator_next g st) as [[o1 g1] st1] eqn:E.
  destruct Hin as [<-|Hin].
  - exists 0. split; [lia|]. cbn [run_end fst snd]. now rewrite E.
  - destruct (IH g1 st1 o Hin) as (j & Hj & Ho).
    exists (S j). split; [lia|]. cbn [run_end]. now rewrite E.
Qed.

Lemma run_end_from X number_negative batch_size j : forall g st,
  generator_from X g -> generator_params g number_negative batch_size ->
  generator_from X (fst (run_end generator_next j g st)) /\
  generator_params (fst (run_end generator_next j g st))
    number_negative batch_size.
Proof.
  induction j as [|j IH]; intros g st Hf Hp; cbn [run_end]; [now split|].
  destruct (generator_next g st) as [[o g1] st1] eqn:E.
  destruct (@generator_next_from X g number_negative batch_size st o g1 st1
              Hf Hp E) as (Hf1 & Hp1 & _).
  now apply IH.
Qed.

(** What [shuffled] returns, when it returns, with the draw of
    [shuind]. *)
Lemma shuffled_Ok_full u v x st b st' :
  length u = length x -> length v = length x ->
  shuffled (u, v, x) st = (Ok b, st') ->
  exists shuind,
    shuffle (arange (length x)) st = (Ok shuind, st') /\
    Permutation (arange (length x)) shuind /\
    take u shuind = Ok (fst (fst b)) /\
    take v shuind = Ok (snd (fst b)) /\
    take x shuind = Ok (snd b) /\
    Permutation (triples (u, v, x)) (triples b).
Proof.
  intros Hu Hv E. unfold shuffled in E.
  apply bind_Ok_inv in E. destruct E as (shuind & st1 & Es & E).
  apply bind_Ok_inv in E. destruct E as (u' & st2 & Eu & E).
  apply bind_Ok_inv in E. destruct E as (v' & st3 & Ev & E).
  apply bind_Ok_inv in E. destruct E as (x' & st4 & Ex & E).
  unfold ret in E. inversion E; subst. clear E.
  apply lift_Ok_inv in Eu, Ev, Ex.
  destruct Eu as [Eu ->], Ev as [Ev ->], Ex as [Ex ->].
  assert (HP : Permutation (arange (length x)) shuind).
  { apply (@returns_Ok_inv _ (shuffle (arange (length x)))
             (fun y => Permutation (arange (length x)) y) st shuind st1);
      [apply shuffle_returns|exact Es]. }
  exists shuind. cbn [fst snd].
  split; [exact Es|]. split; [exact HP|].
  split; [exact Eu|]. split; [exact Ev|]. split; [exact Ex|].
  assert (Euv : take (combine u v) shuind = Ok (combine u' v')).
  { apply take_combine; auto. congruence. }
  assert (Euvx : take (combine (combine u v) x) shuind
                 = Ok (combine (combine u' v') x')).
  { apply take_combine; auto. rewrite length_combine. lia. }
  destruct (@take_Permutation _ (combine (combine u v) x) shuind)
    as (r & Er & Hr).
  { change (combine (combine u v) x) with (triples (u, v, x)).
    rewrite length_triples by assumption. exact HP. }
  rewrite Euvx in Er. inversion Er; subst r. exact Hr.
Qed.

(** C8: every batch yielded by [generate_batches] over [X] comes from the
    arrays that the iteration assembled with the sampler of [X], in the
    random state that the calls before it left: the three sequences of
    the batch have the length [batch_size * (1 + number_negative)] and are
    these three arrays indexed by one and the same [shuind], the
    permutation of their indices that [np.random.shuffle] drew next; the
    (source, target, label) triples after the shuffle are those before
    it, in another order. *)
Theorem batch_aligned (X : csr_matrix)
  (number_negative number_iterations batch_size : nat)
  (st : RandomState) (b : batch) :
  yielded X number_negative number_iterations batch_size st b ->
  exists j X' random_choice pre st1 shuind st2,
    MultipleRandomChoice.init X = Ok (X', random_choice) /\
    assemble (shape0 X) random_choice number_negative batch_size
      (snd (run_end generator_next j
              (generate_batches X number_negative number_iterations
                 batch_size) st))
    = (Ok pre, st1) /\
    shuffle (arange (batch_size * (1 + number_negative))) st1
    = (Ok shuind, st2) /\
    Permutation (arange (batch_size * (1 + number_negative))) shuind /\
    take (fst (fst pre)) shuind = Ok (fst (fst b)) /\
    take (snd (fst pre)) shuind = Ok (snd (fst b)) /\
    take (snd pre) shuind = Ok (snd b) /\
    length (fst (fst b)) = batch_size * (1 + number_negative) /\
    length (snd (fst b)) = batch_size * (1 + number_negative) /\
    length (snd b) = batch_size * (1 + number_negative) /\
    Permutation (triples pre) (triples b).
Proof.
  intros [n Hin].
  set (g := generate_batches X number_negative number_iterations batch_size)
    in *.
  destruct (@run_In n g st (Yield b) Hin) as (j & _ & Ho).
  destruct (@run_end_from X number_negative batch_size j g st)
    as (Hf & Hp); [reflexivity|simpl; auto|].
  destruct (run_end generator_next j g st) as [gj stj] eqn:Ej.
  cbn [fst snd] in *.
  destruct (generator_next gj stj) as [[o g'] st'] eqn:En.
  cbn [fst] in Ho. subst o.
  destruct (@generator_next_from X gj number_negative batch_size stj
              (Yield b) g' st' Hf Hp En) as (_ & _ & Hy).
  destruct (Hy b eq_refl) as (X' & rc & Ei & Hit).
  unfold iteration in Hit.
  apply bind_Ok_inv in Hit. destruct Hit as ([[u v] x] & st1 & Ea & Es).
  destruct (@assemble_lengths (shape0 X) rc number_negative batch_size
              stj u v x st1 Ea) as (Hu & Hv & Hx).
  destruct (@shuffled_Ok_full u v x st1 b st') as (shuind & H);
    [congruence|congruence|exact Es|].
  rewrite Hx in H. destruct H as (Hs & HP & Eu & Ev & Ex & HT).
  exists j, X', rc, (u, v, x), st1, shuind, st'. fold g. rewrite Ej.
  cbn [fst snd].
  split; [exact Ei|]. split; [exact Ea|]. split; [exact Hs|].
  split; [exact HP|]. split; [exact Eu|]. split; [exact Ev|].
  split; [exact Ex|].
  assert (Hl : length shuind = batch_size * (1 + number_negative)).
  { rewrite <- (Permutation_length HP). apply length_seq. }
  split; [now rewrite (take_length _ _ Eu)|].
  split; [now rewrite (take_length _ _ Ev)|].
  split; [now rewrite (take_length _ _ Ex)|exact HT].
Qed.

Lemma batch_aligned_witness :
  exists b,
    yielded example_matrix 3 2 1 zero_state b /\
    exists j X' random_choice pre st1 shuind st2,
      MultipleRandomChoice.init example_matrix = Ok (X', random_choice) /\
      assemble (shape0 example_matrix) random_choice 3 1
        (snd (run_end generator_next j (generate_batches example_matrix 3 2 1)
                zero_state))
      = (Ok pre, st1) /\
      shuffle (arange (1 * (1 + 3))) st1 = (Ok shuind, st2) /\
      Permutation (arange (1 * (1 + 3))) shuind /\
      take (fst (fst pre)) shuind = Ok (fst (fst b)) /\
      take (snd (fst pre)) shuind = Ok (snd (fst b)) /\
      take (snd pre) shuind = Ok (snd b) /\
      length (fst (fst b)) = 1 * (1 + 3) /\
      length (snd (fst b)) = 1 * (1 + 3) /\
      length (snd b) = 1 * (1 + 3) /\
      Permutation (triples pre) (triples b).
Proof.
  assert (Hy : { b | yielded example_matrix 3 2 1 zero_state b }).
  { eexists. exists 1. vm_compute. left. reflexivity. }
  destruct Hy as [b Hy]. exists b. split; [exact Hy|].
  apply (@batch_aligned example_matrix 3 2 1 zero_state b). exact Hy.
Defined.

Lemma for_eachM_seq_inv {S} (I : nat -> S -> Prop) (body : nat -> S -> M S) :
  forall n a s st s' st',
    (forall j s0 st0 s1 st1, a <= j < a + n ->
       body j s0 st0 = (Ok s1, st1) -> I j s0 -> I (Datatypes.S j) s1) ->
    I a s ->
    for_eachM (seq a n) body s st = (Ok s', st') -> I (a + n) s'.
Proof.
  induction n as [|n IH]; intros a s st s' st' Hbody Hs E; simpl in E.
  - inversion E; subst. now rewrite Nat.add_0_r.
  - apply bind_Ok_inv in E. destruct E as (s1 & st1 & E1 & E2).
    replace (a + Datatypes.S n) with (Datatypes.S a + n) by lia.
    eapply IH; [|eapply Hbody; [|exact E1|exact Hs]; lia|exact E2].
    intros j s0 st0 s2 st2 Hj. apply Hbody. lia.
Qed.

Lemma nth_update {A} (a : list A) i v n d :
  i < length a -> nth n (update a i v) d = if n =? i then v else nth n a d.
Proof.
  revert i n; induction a as [|h t IH]; intros [|i] [|n] H; simpl in *;
    try lia; auto.
  apply IH; lia.
Qed.

Lemma nth_tile {A} (a : list A) reps j d :
  j < length a -> nth j (tile a (reps + 1)) d = nth j a d.
Proof.
  intros Hj. rewrite Nat.add_1_r. simpl. now apply app_nth1.
Qed.

(** What the sampler of a matrix of the data model returns for a node is
    one of the choices of its row. *)
Lemma getitem_Ok_choice X X' rc u st v st' :
  nonneg_matrix X = true -> MultipleRandomChoice.init X = Ok (X', rc) ->
  u < shape0 X ->
  MultipleRandomChoice.getitem rc u st = (Ok v, st') ->
  In v (row_choices u (nth u (transition X) [])).
Proof.
  intros Hn Ei Hu Eg.
  destruct (getitem_spec X Hn Hu) as (mrc & rc0 & E & _ & H).
  rewrite Ei in E. inversion E; subst mrc.
  destruct (H st) as (_ & Hidx & Eg'). rewrite Eg in Eg'.
  inversion Eg'; subst. now apply nth_In.
Qed.

Lemma choice_edge_or_self X u v :
  nonneg_matrix X = true ->
  In v (row_choices u (nth u (transition X) [])) -> edge_or_self X u v.
Proof.
  intros Hn Hin. destruct (zero_row X u) eqn:Ez.
  - left. split; [exact Ez|].
    rewrite (zero_row_transition X u Ez) in Hin. simpl in Hin.
    destruct Hin as [<-|[]]. reflexivity.
  - right. destruct (@row_choices_stored X u v Hn) as (v0 & Hv0 & Hpos).
    + now apply nonzero_row_transition.
    + exact Hin.
    + eapply entry_positive; eauto.
Qed.

(** The arrays that an iteration assembles over the sampler of [X]: the
    drawn sources and the uniform targets are nodes, and the target at
    each of the first [batch_size] positions is a choice of the row of its
    source. *)
Lemma assemble_targets X X' rc number_negative batch_size st pre st' :
  nonneg_matrix X = true -> MultipleRandomChoice.init X = Ok (X', rc) ->
  assemble (shape0 X) rc number_negative batch_size st = (Ok pre, st') ->
  exists drawn positives negatives,
    pre = (tile drawn (number_negative + 1),
           positives ++ negatives,
           repeat 1%Q batch_size
           ++ repeat (-1)%Q (batch_size * number_negative)) /\
    length drawn = batch_size /\
    length positives = batch_size /\
    length negatives = batch_size * number_negative /\
    Forall (fun u => u < shape0 X) drawn /\
    Forall (fun v => v < shape0 X) negatives /\
    forall j, j < batch_size ->
      In (nth j positives 0)
        (row_choices (nth j drawn 0) (nth (nth j drawn 0) (transition X) [])).
Proof.
  intros Hn Ei Ea. apply assemble_Ok_inv in Ea.
  destruct Ea as (drawn & pos & negs & s1 & s2 & E1 & E2 & E3 & Hd & Hp & Hng & Epre).
  exists drawn, pos, negs.
  destruct (randint_Ok_inv _ _ _ _ E1) as [_ Hr1].
  destruct (randint_Ok_inv _ _ _ _ E3) as [_ Hr3].
  split; [subst pre; unfold hstack; now rewrite neg_ones|].
  split; [exact Hd|]. split; [exact Hp|]. split; [exact Hng|].
  split; [eapply Forall_impl; [|exact Hr1]; simpl; intros; lia|].
  split; [eapply Forall_impl; [|exact Hr3]; simpl; intros; lia|].
  set (batch_u := tile drawn (number_negative + 1)) in *.
  pose (I := fun (j : nat) (bv : list nat) =>
    length bv = batch_size /\
    forall j', j' < j ->
      In (nth j' bv 0)
        (row_choices (nth j' drawn 0) (nth (nth j' drawn 0) (transition X) []))).
  assert (Hinv : I (0 + batch_size) pos).
  { apply (@for_eachM_seq_inv _ I (positive_body rc batch_u) batch_size 0
             (zeros batch_size) s1 pos s2); [| |exact E2].
    - intros j bv st0 bv' st1 Hj Eb [Hlen Hgood]. simpl in Hj.
      unfold positive_body in Eb.
      apply bind_Ok_inv in Eb. destruct Eb as (u & t1 & Eu & Eb).
      apply bind_Ok_inv in Eb. destruct Eb as (v & t2 & Ev & Eb).
      apply lift_Ok_inv in Eu. destruct Eu as [Eu ->].
      apply lift_Ok_inv in Eb. destruct Eb as [Eb _].
      assert (Hjd : j < length drawn) by lia.
      assert (Hu : u = nth j drawn 0).
      { apply getitem_Ok in Eu. apply (nth_error_nth _ _ 0) in Eu.
        rewrite <- Eu. unfold batch_u. now apply nth_tile. }
      assert (HuN : u < shape0 X).
      { subst u. rewrite Forall_forall in Hr1.
        apply (Hr1 (nth j drawn 0)). now apply nth_In. }
      pose proof (getitem_Ok_choice _ _ Hn Ei HuN Ev) as Hv.
      unfold setitem in Eb.
      destruct (Nat.ltb_spec j (length bv)) as [Hjb|]; [|discriminate].
      inversion Eb; subst bv'. split; [now rewrite length_update|].
      intros j' Hj'. rewrite nth_update by assumption.
      destruct (Nat.eqb_spec j' j) as [->|Hne].
      + now rewrite <- Hu.
      + apply Hgood. lia.
    - split; [apply repeat_length|]. intros j' Hj'. lia. }
  simpl in Hinv. apply Hinv.
Qed.

Lemma map_fst_combine {A B} (l : list A) (l' : list B) :
  length l = length l' -> map fst (combine l l') = l.
Proof.
  revert l'; induction l as [|a l IH]; intros [|b l'] H; simpl in *;
    try discriminate; [reflexivity|].
  f_equal. apply IH. lia.
Qed.

Lemma sources_of_triples u v x :
  length u = length x -> length v = length x ->
  map (fun t => fst (fst t)) (triples (u, v, x)) = u.
Proof.
  intros Hu Hv. unfold triples.
  rewrite <- (map_map fst fst), map_fst_combine, map_fst_combine; auto.
  - congruence.
  - rewrite length_combine. lia.
Qed.

Lemma targets_of_triples u v x :
  length u = length x -> length v = length x ->
  map (fun t => snd (fst t)) (triples (u, v, x)) = v.
Proof.
  intros Hu Hv. unfold triples.
  rewrite <- (map_map fst snd), map_fst_combine, map_snd_combine; auto.
  - congruence.
  - rewrite length_combine. lia.
Qed.

Lemma Forall_nth_lt {A} (P : A -> Prop) l d :
  (forall j, j < length l -> P (nth j l d)) -> Forall P l.
Proof.
  intros H. apply Forall_forall. intros x Hx.
  destruct (In_nth l x d Hx) as (j & Hj & <-). now apply H.
Qed.

(** X10: on a square matrix of the data model, every source and every
    target of every batch that [generate_batches] yields is a node of the
    matrix, an index of [0, N). *)
Theorem batch_nodes_in_range (X : csr_matrix)
  (number_negative number_iterations batch_size : nat)
  (st : RandomState) (b : batch) :
  nonneg_matrix X = true -> square X = true ->
  yielded X number_negative number_iterations batch_size st b ->
  Forall (fun u => u < shape0 X) (fst (fst b)) /\
  Forall (fun v => v < shape0 X) (snd (fst b)).
Proof.
  intros Hn Hsq [n Hin].
  destruct (@run_yielded_from n X
              (generate_batches X number_negative number_iterations batch_size)
              number_negative batch_size st b)
    as (X' & rc & st0 & st1 & Ei & Hit); [reflexivity|simpl; auto|exact Hin|].
  destruct (@iteration_Ok_inv (shape0 X) rc number_negative batch_size st0 b st1 Hit)
    as (pre & st2 & shuind & Ea & _ & _ & _ & _ & Hbu & Hbv & Hbx & HP).
  destruct pre as [[pu pv] px]. destruct b as [[bu bv] bx]. cbn [fst snd] in *.
  destruct (@assemble_lengths (shape0 X) rc number_negative batch_size
              st0 pu pv px st2 Ea) as (Hpu & Hpv & Hpx).
  destruct (@assemble_targets X X' rc number_negative batch_size st0
              (pu, pv, px) st2 Hn Ei Ea)
    as (drawn & pos & negs & Epre & Hd & Hp & Hng & Hr1 & Hr3 & Hgood).
  inversion Epre; subst pu pv px. clear Epre.
  split.
  - apply (Permutation_map (fun t => fst (fst t))) in HP.
    rewrite !sources_of_triples in HP by congruence.
    eapply Permutation_Forall; [exact HP|]. now apply Forall_tile.
  - apply (Permutation_map (fun t => snd (fst t))) in HP.
    rewrite !targets_of_triples in HP by congruence.
    eapply Permutation_Forall; [exact HP|].
    apply Forall_app. split; [|exact Hr3].
    apply (Forall_nth_lt _ pos 0). intros j Hj.
    rewrite Hp in Hj. specialize (Hgood j Hj).
    eapply row_choices_in_range; eauto.
    rewrite Forall_forall in Hr1. apply Hr1. apply nth_In. lia.
Qed.

Lemma batch_nodes_in_range_witness :
  exists b,
    yielded stored_zero_matrix 3 2 2 zero_state b /\
    Forall (fun u => u < shape0 stored_zero_matrix) (fst (fst b)) /\
    Forall (fun v => v < shape0 stored_zero_matrix) (snd (fst b)).
Proof.
  assert (Hy : { b | yielded stored_zero_matrix 3 2 2 zero_state b }).
  { eexists. exists 1. vm_compute. left. reflexivity. }
  destruct Hy as [b Hy]. exists b. split; [exact Hy|].
  apply (@batch_nodes_in_range stored_zero_matrix 3 2 2 zero_state b);
    [reflexivity|reflexivity|exact Hy].
Defined.

(** X11: in every batch that [generate_batches] yields over a matrix of
    the data model, the triples are, in some order, those of the drawn
    sources repeated [1 + number_negative] times, and the target at each
    of the first [batch_size] of them (the pairs labelled 1) is a column
    where the row of its source has a positive entry, or the source itself
    when that row is all zero. *)
Theorem positive_targets_are_edges (X : csr_matrix)
  (number_negative number_iterations batch_size : nat)
  (st : RandomState) (b : batch) :
  nonneg_matrix X = true ->
  yielded X number_negative number_iterations batch_size st b ->
  exists drawn positives negatives,
    length drawn = batch_size /\
    length positives = batch_size /\
    length negatives = batch_size * number_negative /\
    Permutation
      (triples (tile drawn (number_negative + 1),
                positives ++ negatives,
                repeat 1%Q batch_size
                ++ repeat (-1)%Q (batch_size * number_negative)))
      (triples b) /\
    forall j, j < batch_size ->
      edge_or_self X (nth j drawn 0) (nth j positives 0).
Proof.
  intros Hn [n Hin].
  destruct (@run_yielded_from n X
              (generate_batches X number_negative number_iterations batch_size)
              number_negative batch_size st b)
    as (X' & rc & st0 & st1 & Ei & Hit); [reflexivity|simpl; auto|exact Hin|].
  destruct (@iteration_Ok_inv (shape0 X) rc number_negative batch_size st0 b st1 Hit)
    as (pre & st2 & shuind & Ea & _ & _ & _ & _ & _ & _ & _ & HP).
  destruct (@assemble_targets X X' rc number_negative batch_size st0
              pre st2 Hn Ei Ea)
    as (drawn & pos & negs & Epre & Hd & Hp & Hng & _ & _ & Hgood).
  exists drawn, pos, negs.
  split; [exact Hd|]. split; [exact Hp|]. split; [exact Hng|].
  split; [now rewrite <- Epre|].
  intros j Hj. apply choice_edge_or_self; [exact Hn|]. now apply Hgood.
Qed.

Lemma positive_targets_are_edges_witness :
  exists b,
    yielded stored_zero_matrix 3 2 2 zero_state b /\
    exists drawn positives negatives,
      length drawn = 2 /\
      length positives = 2 /\
      length negatives = 2 * 3 /\
      Permutation
        (triples (tile drawn (3 + 1),
                  positives ++ negatives,
                  repeat 1%Q 2 ++ repeat (-1)%Q (2 * 3)))
        (triples b) /\
      forall j, j < 2 ->
        edge_or_self stored_zero_matrix (nth j drawn 0) (nth j positives 0).
Proof.
  assert (Hy : { b | yielded stored_zero_matrix 3 2 2 zero_state b }).
  { eexists. exists 1. vm_compute. left. reflexivity. }
  destruct Hy as [b Hy]. exists b. split; [exact Hy|].
  apply (@positive_targets_are_edges stored_zero_matrix 3 2 2 zero_state b);
    [reflexivity|exact Hy].
Defined.

(** X12: as the code labels them, every batch that [generate_batches]
    yields has [batch_size * (1 + number_negative)] labels, each of them 1
    or -1: exactly [batch_size] labels 1 and exactly
    [batch_size * number_negative] labels -1. *)
Theorem batch_label_counts (X : csr_matrix)
  (number_negative number_iterations batch_size : nat)
  (st : RandomState) (b : batch) :
  yielded X number_negative number_iterations batch_size st b ->
  length (snd b) = batch_size * (1 + number_negative) /\
  Forall (fun l => l = 1%Q \/ l = (-1)%Q) (snd b) /\
  count_label 1 b = batch_size /\
  count_label (-1) b = batch_size * number_negative.
Proof.
  intros [n Hin].
  destruct (@run_yielded n
              (generate_batches X number_negative number_iterations batch_size)
              number_negative batch_size st b)
    as (N & rc & st0 & st2 & Hit); [simpl; auto|exact Hin|].
  destruct (@iteration_Ok_inv N rc number_negative batch_size st0 b st2 Hit)
    as (pre & st1 & shuind & Ea & _ & _ & _ & _ & Hu & Hv & Hx & HP).
  apply assemble_Ok_inv in Ea.
  destruct Ea as (drawn & pos & negs & s1 & s2 & _ & _ & _ & Hd & Hp & Hng & Epre).
  destruct b as [[bu bv] bx]. cbn [fst snd] in *. subst pre.
  assert (Hlab : Permutation
            (repeat 1%Q batch_size ++ repeat (-1)%Q (batch_size * number_negative))
            bx).
  { apply (Permutation_map snd) in HP. unfold triples in HP.
    rewrite !map_snd_combine in HP;
      [unfold hstack in HP; now rewrite neg_ones in HP| |];
      unfold hstack, neg;
      rewrite ?length_combine, ?length_tile, ?length_app, ?length_map,
        ?length_ones; nia. }
  split; [exact Hx|]. split; [|split].
  - eapply Permutation_Forall; [exact Hlab|].
    apply Forall_app. split; apply Forall_forall; intros l Hl;
      apply repeat_spec in Hl; auto.
  - unfold count_label. cbn [snd].
    rewrite <- (Permutation_filter_length _ Hlab), filter_app.
    rewrite (@filter_repeat_true _ (Qeq_bool 1) 1%Q) by reflexivity.
    rewrite (@filter_repeat_false _ (Qeq_bool 1) (-1)%Q) by reflexivity.
    rewrite length_app, repeat_length. simpl. lia.
  - unfold count_label. cbn [snd].
    rewrite <- (Permutation_filter_length _ Hlab), filter_app.
    rewrite (@filter_repeat_false _ (Qeq_bool (-1)) 1%Q) by reflexivity.
    rewrite (@filter_repeat_true _ (Qeq_bool (-1)) (-1)%Q) by reflexivity.
    rewrite length_app, repeat_length. simpl. lia.
Qed.

Lemma batch_label_counts_witness :
  exists b,
    yielded stored_zero_matrix 3 2 2 zero_state b /\
    length (snd b) = 2 * (1 + 3) /\
    Forall (fun l => l = 1%Q \/ l = (-1)%Q) (snd b) /\
    count_label 1 b = 2 /\
    count_label (-1) b = 2 * 3.
Proof.
  assert (Hy : { b | yielded stored_zero_matrix 3 2 2 zero_state b }).
  { eexists. exists 1. vm_compute. left. reflexivity. }
  destruct Hy as [b Hy]. exists b. split; [exact Hy|].
  apply (@batch_label_counts stored_zero_matrix 3 2 2 zero_state b). exact Hy.
Defined.

(** X13: over a matrix without a row, whatever the parameters, the first
    [next] on [generate_batches] raises the ValueError of sklearn's
    [normalize], which the constructor of [MultipleRandomChoice] calls,
    before anything is drawn, and the generator is exhausted;
    [async_batches] raises the same at its first [next]. *)
Theorem empty_matrix_raises
  (number_negative number_iterations batch_size : nat)
  (st : RandomState) (m : nat) :
  run generator_next (S m)
    (generate_batches [] number_negative number_iterations batch_size) st
  = Error ValueError :: repeat StopIteration m /\
  run async_next (S m)
    (async_batches [] number_negative number_iterations batch_size) st
  = Error ValueError :: repeat StopIteration m /\
  snd (generator_next
         (generate_batches [] number_negative number_iterations batch_size)
         st) = st.
Proof.
  assert (E : generator_next
                (generate_batches [] number_negative number_iterations batch_size)
                st = (Error ValueError, Finished, st)) by reflexivity.
  split; [|split].
  - cbn [run]. rewrite E. now rewrite run_finished.
  - cbn [run]. unfold async_batches. cbn [async_next]. rewrite E.
    now rewrite run_async_finished.
  - now rewrite E.
Qed.

(** X24: the first loop of [MultipleRandomChoice.__init__] over a
    [transition_probs] that stores a zero, as the normalisation can leave
    one in floating point (a row sum that overflows, a quotient that
    underflows) after [eliminate_zeros] has run: [nonzero()] is then
    shorter than [data], the cursor runs off its end, and the loop raises
    IndexError, whatever the matrix. *)
Theorem first_loop_stored_zero (T : csr_matrix) :
  stores_zero T ->
  MultipleRandomChoice.first_loop T (shape0 T) = Raise IndexError.
Proof.
  intros (r & e & Hr & He & Hz).
  destruct (MultipleRandomChoice.first_loop T (shape0 T)) as [s|ex] eqn:E.
  - exfalso. apply first_loop_Ok_stored in E.
    unfold stored_nonzero in E. rewrite Forall_forall in E.
    specialize (E r Hr). rewrite Forall_forall in E.
    specialize (E e He). congruence.
  - f_equal. now apply (@only_IndexError_first_loop T (shape0 T)).
Qed.

Lemma first_loop_stored_zero_witness :
  stores_zero underflown_matrix /\
  MultipleRandomChoice.first_loop underflown_matrix (shape0 underflown_matrix)
  = Raise IndexError.
Proof.
  assert (H : stores_zero underflown_matrix).
  { exists [(0, 0%Q); (1, 1%Q)], (0, 0%Q).
    split; [now left|]. split; [now left|reflexivity]. }
  split; [exact H|]. apply (@first_loop_stored_zero underflown_matrix H).
Defined.
(** ** The training pairs of the link prediction *)

Lemma set_mem_In v s : set_mem v s = true <-> In v s.
Proof.
  unfold set_mem. rewrite existsb_exists. split.
  - intros (x & Hx & E). apply Nat.eqb_eq in E. now subst.
  - intros H. exists v. split; [exact H|apply Nat.eqb_refl].
Qed.

Lemma set_mem_app v s s' : set_mem v (s ++ s') = set_mem v s || set_mem v s'.
Proof. unfold set_mem. apply existsb_app. Qed.

Lemma set_mem_add v' s v :
  set_mem v' (set_add s v) = (v' =? v) || set_mem v' s.
Proof.
  unfold set_add. destruct (set_mem v s) eqn:E.
  - destruct (Nat.eqb_spec v' v) as [->|]; [now rewrite E|reflexivity].
  - rewrite set_mem_app. simpl. rewrite orb_false_r. apply orb_comm.
Qed.

Lemma lookup_app d k s k' :
  lookup (d ++ [(k, s)]) k'
  = match lookup d k' with
    | Some s' => Some s'
    | None => if k =? k' then Some s else None
    end.
Proof.
  induction d as [|[k0 s0] d IH]; simpl; [reflexivity|].
  destruct (k0 =? k'); [reflexivity|exact IH].
Qed.

Lemma has_key_setdefault d k k' :
  has_key (setdefault d k) k' = (k =? k') || has_key d k'.
Proof.
  unfold has_key, setdefault. destruct (lookup d k) eqn:E.
  - destruct (Nat.eqb_spec k k') as [<-|]; [now rewrite E|reflexivity].
  - rewrite lookup_app. destruct (lookup d k'); [now rewrite orb_true_r|].
    destruct (k =? k'); reflexivity.
Qed.

Lemma in_set_setdefault d k k' v :
  in_set_of (setdefault d k) k' v = in_set_of d k' v.
Proof.
  unfold in_set_of, setdefault. destruct (lookup d k) eqn:E; [reflexivity|].
  rewrite lookup_app. destruct (lookup d k'); [reflexivity|].
  destruct (k =? k'); reflexivity.
Qed.

Lemma add_at_spec d k v :
  has_key d k = true ->
  exists d',
    add_at d k v = Some d' /\
    (forall k', has_key d' k' = has_key d k') /\
    (forall k' v',
       in_set_of d' k' v' = (k' =? k) && (v' =? v) || in_set_of d k' v').
Proof.
  unfold has_key, in_set_of.
  induction d as [|[k0 s0] d IH]; simpl; [discriminate|].
  destruct (Nat.eqb_spec k0 k) as [->|Hne].
  - intros _. eexists. split; [reflexivity|]. split; intros k'; simpl.
    + destruct (k =? k'); reflexivity.
    + intros v'. rewrite (Nat.eqb_sym k' k).
      destruct (k =? k'); simpl; [apply set_mem_add|reflexivity].
  - intros H. destruct (IH H) as (d' & E & Hk & Hs). rewrite E. simpl.
    eexists. split; [reflexivity|]. split; intros k'; simpl.
    + destruct (k0 =? k'); [reflexivity|apply Hk].
    + intros v'. destruct (Nat.eqb_spec k0 k') as [<-|]; [|apply Hs].
      destruct (Nat.eqb_spec k0 k); [contradiction|reflexivity].
Qed.

Lemma sets_body_spec i j d :
  exists d',
    sets_body (i, j) d = Some d' /\
    (forall k, has_key d' k = (i =? k) || (j =? k) || has_key d k) /\
    (forall k v,
       in_set_of d' k v
       = (k =? i) && (v =? j) || (k =? j) && (v =? i) || in_set_of d k v).
Proof.
  unfold sets_body.
  set (d1 := setdefault (setdefault d i) j).
  assert (Hk1 : forall k, has_key d1 k = (i =? k) || (j =? k) || has_key d k).
  { intros k. unfold d1. rewrite !has_key_setdefault.
    destruct (i =? k), (j =? k); reflexivity. }
  assert (Hs1 : forall k v, in_set_of d1 k v = in_set_of d k v).
  { intros k v. unfold d1. now rewrite !in_set_setdefault. }
  destruct (@add_at_spec d1 i j) as (d2 & E2 & Hk2 & Hs2).
  { rewrite Hk1, Nat.eqb_refl. reflexivity. }
  destruct (@add_at_spec d2 j i) as (d3 & E3 & Hk3 & Hs3).
  { rewrite Hk2, Hk1, Nat.eqb_refl. now rewrite orb_true_r. }
  exists d3. rewrite E2. split; [exact E3|]. split.
  - intros k. now rewrite Hk3, Hk2, Hk1.
  - intros k v. rewrite Hs3, Hs2, Hs1.
    destruct ((k =? i) && (v =? j)), ((k =? j) && (v =? i)); reflexivity.
Qed.

Lemma records_nil : records [] [].
Proof.
  split; intros k; [|intros v]; unfold has_key, in_set_of; simpl.
  - split; [discriminate|]. intros (v & [[]|[]]).
  - split; [discriminate|]. intros [[]|[]].
Qed.

Lemma records_snoc d d' l i j :
  records d l ->
  (forall k, has_key d' k = (i =? k) || (j =? k) || has_key d k) ->
  (forall k v,
     in_set_of d' k v
     = (k =? i) && (v =? j) || (k =? j) && (v =? i) || in_set_of d k v) ->
  records d' (l ++ [(i, j)]).
Proof.
  intros [Hk Hs] Hk' Hs'. split.
  - intros k. rewrite Hk'. rewrite !orb_true_iff, Hk, !Nat.eqb_eq. split.
    + intros [[<-|<-]|(v & [H|H])].
      * exists j. left. apply in_or_app. right. now left.
      * exists i. right. apply in_or_app. right. now left.
      * exists v. left. apply in_or_app. now left.
      * exists v. right. apply in_or_app. now left.
    + intros (v & [H|H]); apply in_app_or in H;
        destruct H as [H|[H|[]]]; try (inversion H; subst; auto);
        right; exists v; auto.
  - intros k v. rewrite Hs'.
    rewrite !orb_true_iff, !andb_true_iff, Hs, !Nat.eqb_eq. split.
    + intros [[[-> ->]|[-> ->]]|[H|H]].
      * left. apply in_or_app. right. now left.
      * right. apply in_or_app. right. now left.
      * left. apply in_or_app. now left.
      * right. apply in_or_app. now left.
    + intros [H|H]; apply in_app_or in H;
        destruct H as [H|[H|[]]]; try (inversion H; subst; auto);
        right; auto.
Qed.

Lemma build_sets_spec l :
  forall d l0, records d l0 ->
  exists d', build_sets l d = Some d' /\ records d' (l0 ++ l).
Proof.
  induction l as [|[i j] l IH]; intros d l0 H.
  - exists d. rewrite app_nil_r. split; [reflexivity|exact H].
  - destruct (sets_body_spec i j d) as (d1 & E1 & Hk1 & Hs1).
    destruct (IH d1 (l0 ++ [(i, j)]) (@records_snoc d d1 l0 i j H Hk1 Hs1))
      as (d' & E' & H').
    exists d'. cbn [build_sets]. rewrite E1. split; [exact E'|].
    now rewrite <- app_assoc in H'.
Qed.

Lemma combine_map_fst_snd {A B C} (f : C -> A) (g : C -> B) l :
  combine (map f l) (map g l) = map (fun e => (f e, g e)) l.
Proof. induction l as [|e l IH]; simpl; [reflexivity|now rewrite IH]. Qed.

Lemma nonzero_pairs_tocoo mat :
  nonzero_pairs mat
  = map (fun e => (fst (fst e), snd (fst e)))
      (filter (fun e => is_nonzero (snd e)) (tocoo mat)).
Proof. unfold nonzero_pairs, nonzero. cbn [fst snd]. apply combine_map_fst_snd. Qed.

Lemma source_lt mat i : source mat i -> i < shape0 mat.
Proof.
  intros (j & H). rewrite nonzero_pairs_tocoo in H.
  apply in_map_iff in H. destruct H as (e & E & He).
  apply filter_In in He. destruct He as [He _].
  pose proof (tocoo_from_rows_lt 0 mat) as Hr.
  rewrite Forall_forall in Hr. specialize (Hr e He).
  inversion E; subst. exact Hr.
Qed.

Lemma length_nonzero_pairs mat :
  length (nonzero_pairs mat) <= length (data mat).
Proof.
  rewrite nonzero_pairs_tocoo. unfold data. rewrite !length_map.
  apply filter_length_le.
Qed.

Lemma map_fst_combine_le {A B} (l : list A) (l' : list B) :
  length l <= length l' -> map fst (combine l l') = l.
Proof.
  revert l'; induction l as [|a l IH]; intros [|b l'] H; simpl in *;
    try lia; [reflexivity|reflexivity|].
  f_equal. apply IH. lia.
Qed.

Lemma rejected_spec sets i f :
  has_key sets i = true ->
  rejected sets i f = Returned ((i =? f) || in_set_of sets i f).
Proof.
  unfold rejected, has_key, in_set_of.
  destruct (i =? f); [reflexivity|].
  destruct (lookup sets i); [reflexivity|discriminate].
Qed.

Lemma randint_scalar_eq n st :
  0 < n ->
  randint_scalar 0 n st
  = (Returned (node_at (tape st) n (pos st)),
     mkRandomState (tape st) (S (pos st))).
Proof.
  intros Hn. unfold randint_scalar, node_at.
  destruct (Nat.leb_spec n 0); [lia|]. now rewrite Nat.sub_0_r.
Qed.

Lemma randint_int32_eq n st :
  0 < n -> fits_int32 n ->
  randint_int32 0 n st
  = (Returned (node_at (tape st) n (pos st)),
     mkRandomState (tape st) (S (pos st))).
Proof.
  intros Hn Hf. unfold randint_int32, fits_int32 in *.
  destruct (N.ltb_spec int32_high (N.of_nat n)); [lia|].
  now apply randint_scalar_eq.
Qed.

Lemma randint_int32_raises n st :
  ~ fits_int32 n ->
  randint_int32 0 n st = (Raised (Numpy ValueError), st).
Proof.
  intros Hf. unfold randint_int32, fits_int32 in *.
  destruct (N.ltb_spec int32_high (N.of_nat n)); [reflexivity|contradiction].
Qed.

Lemma fits_int32_dec n : fits_int32 n \/ ~ fits_int32 n.
Proof. unfold fits_int32. lia. Qed.

Lemma node_at_lt t n p : 0 < n -> node_at t n p < n.
Proof.
  intros Hn. unfold node_at.
  assert (H : (N.modulo (t p) (N.of_nat n) < N.of_nat n)%N)
    by (apply N.mod_lt; lia).
  lia.
Qed.

(** What the [while] loop leaves: when it ends, a node that passes its
    test; an exception only when the number of nodes is out of the bounds
    of [np.int32]; the raw words are read in order. *)
Lemma redraw_inv n sets i :
  0 < n -> has_key sets i = true ->
  forall fuel f0 st, f0 < n ->
    match redraw fuel n sets i f0 st with
    | (Returned f, st') =>
        f < n /\ (i =? f) || in_set_of sets i f = false /\
        tape st' = tape st /\ pos st <= pos st'
    | (Raised _, _) => ~ fits_int32 n
    | (Running, _) => True
    end.
Proof.
  intros Hn Hk. induction fuel as [|fuel IH]; intros f0 st Hf0;
    [exact I|].
  cbn [redraw]. rewrite (@rejected_spec sets i f0 Hk).
  destruct ((i =? f0) || in_set_of sets i f0) eqn:E.
  - unfold lbind. destruct (fits_int32_dec n) as [Hf|Hf];
      [|now rewrite (@randint_int32_raises n st Hf)].
    rewrite (@randint_int32_eq n st Hn Hf).
    specialize (IH (node_at (tape st) n (pos st))
                  (mkRandomState (tape st) (S (pos st)))
                  (@node_at_lt (tape st) n (pos st) Hn)).
    destruct (redraw fuel n sets i _ _) as [[f|e|] st']; [|exact IH|exact I].
    simpl in IH. destruct IH as (H1 & H2 & H3 & H4).
    repeat split; [exact H1|exact H2|exact H3|lia].
  - unfold lret. repeat split; [exact Hf0|exact E|lia].
Qed.

(** The [while] loop ends when one of the next nodes passes its test. *)
Lemma redraw_returns n sets i :
  0 < n -> fits_int32 n -> has_key sets i = true ->
  forall k fuel f0 st,
    k < fuel ->
    (let f := match k with
              | O => f0
              | S k' => node_at (tape st) n (pos st + k')
              end in
     (i =? f) || in_set_of sets i f = false) ->
    exists f st', redraw fuel n sets i f0 st = (Returned f, st').
Proof.
  intros Hn Hf Hk. induction k as [|k IH]; intros [|fuel] f0 st Hlt Hacc;
    try lia; cbn [redraw]; rewrite (@rejected_spec sets i f0 Hk).
  - cbv zeta in Hacc. rewrite Hacc. now eexists _, _.
  - destruct ((i =? f0) || in_set_of sets i f0); [|now eexists _, _].
    unfold lbind. rewrite (@randint_int32_eq n st Hn Hf).
    apply IH; [lia|]. cbv zeta in *. cbn [tape pos].
    destruct k as [|k'].
    + now rewrite Nat.add_0_r in Hacc.
    + now replace (S (pos st) + k') with (pos st + S k') by lia.
Qed.

Lemma interleave_cons i j l f fs :
  interleave ((i, j) :: l) (f :: fs)
  = ((i, j) :: (i, f) :: fst (interleave l fs),
     true :: false :: snd (interleave l fs)).
Proof. simpl. now destruct (interleave l fs). Qed.

Lemma train_body_inv fuel n sets i j (d : Q) x y st :
  has_key sets i = true -> i < n ->
  match train_body fuel n sets (i, j, d) (x, y) st with
  | (Returned (x', y'), st') =>
      exists f,
        x' = x ++ [(i, j); (i, f)] /\ y' = y ++ [true; false] /\
        f < n /\ (i =? f) || in_set_of sets i f = false /\
        tape st' = tape st /\ pos st <= pos st'
  | (Raised _, _) => ~ fits_int32 n
  | (Running, _) => True
  end.
Proof.
  intros Hk Hi. assert (Hn : 0 < n) by lia.
  unfold train_body, lbind. destruct (fits_int32_dec n) as [Hf|Hf];
    [|now rewrite (@randint_int32_raises n st Hf)].
  rewrite (@randint_int32_eq n st Hn Hf).
  pose proof (@redraw_inv n sets i Hn Hk fuel
                (node_at (tape st) n (pos st))
                (mkRandomState (tape st) (S (pos st)))
                (@node_at_lt (tape st) n (pos st) Hn)) as H.
  destruct (redraw fuel n sets i _ _) as [[f|e|] st']; [|exact H|exact I].
  simpl in H. destruct H as (H1 & H2 & H3 & H4). unfold lret.
  exists f. rewrite <- !app_assoc. simpl.
  repeat split; [exact H1|exact H2|exact H3|lia].
Qed.

Lemma train_loop_inv fuel n sets entries :
  Forall (fun e => has_key sets (fst (fst e)) = true /\ fst (fst e) < n)
    entries ->
  forall x0 y0 st,
    match train_loop fuel n sets entries (x0, y0) st with
    | (Returned (x, y), st') =>
        exists fs,
          length fs = length entries /\
          x = x0 ++ fst (interleave (map fst entries) fs) /\
          y = y0 ++ snd (interleave (map fst entries) fs) /\
          Forall2 (fun ij f =>
                     f < n /\
                     (fst ij =? f) || in_set_of sets (fst ij) f = false)
            (map fst entries) fs /\
          tape st' = tape st /\ pos st <= pos st'
    | (Raised _, _) => ~ fits_int32 n
    | (Running, _) => True
    end.
Proof.
  induction 1 as [|[[i j] d] entries [Hk Hi] _ IH]; intros x0 y0 st.
  - simpl. exists []. rewrite !app_nil_r. repeat split; constructor.
  - cbn [train_loop]. unfold lbind at 1.
    pose proof (@train_body_inv fuel n sets i j d x0 y0 st Hk Hi) as Hb.
    destruct (train_body fuel n sets (i, j, d) (x0, y0) st)
      as [[[x1 y1]|e|] st1]; [|exact Hb|exact I].
    destruct Hb as (f & -> & -> & Hf & Hacc & Ht & Hp).
    specialize (IH (x0 ++ [(i, j); (i, f)]) (y0 ++ [true; false]) st1).
    destruct (train_loop fuel n sets entries _ st1)
      as [[[x y]|e|] st']; [|exact IH|exact I].
    destruct IH as (fs & Hl & -> & -> & HF & Ht' & Hp').
    exists (f :: fs). cbn [map fst]. rewrite interleave_cons.
    cbn [fst snd]. rewrite <- !app_assoc. simpl.
    repeat split; [now rewrite Hl| |congruence|lia].
    constructor; [|exact HF]. split; [exact Hf|exact Hacc].
Qed.

Lemma Forall2_In_l {A B} (P : A -> B -> Prop) l l' a :
  Forall2 P l l' -> In a l -> exists b, In b l' /\ P a b.
Proof.
  induction 1 as [|a0 b0 l l' H0 _ IH]; intros Ha; [destruct Ha|].
  destruct Ha as [->|Ha].
  - exists b0. split; [now left|exact H0].
  - destruct (IH Ha) as (b & Hb & HP). exists b. split; [now right|exact HP].
Qed.

Lemma train_body_returns fuel n sets i j (d : Q) x y st k :
  fits_int32 n -> has_key sets i = true -> i < n -> k < fuel ->
  (i =? node_at (tape st) n (pos st + k))
  || in_set_of sets i (node_at (tape st) n (pos st + k)) = false ->
  exists acc st',
    train_body fuel n sets (i, j, d) (x, y) st = (Returned acc, st') /\
    tape st' = tape st /\ pos st <= pos st'.
Proof.
  intros Hf Hk Hi Hlt Hacc. assert (Hn : 0 < n) by lia.
  pose proof (@train_body_inv fuel n sets i j d x y st Hk Hi) as Hb.
  revert Hb. unfold train_body, lbind.
  rewrite (@randint_int32_eq n st Hn Hf).
  destruct (@redraw_returns n sets i Hn Hf Hk k fuel
              (node_at (tape st) n (pos st))
              (mkRandomState (tape st) (S (pos st))) Hlt) as (f & st' & E).
  { cbv zeta. cbn [tape pos]. destruct k as [|k'].
    - now rewrite Nat.add_0_r in Hacc.
    - now replace (S (pos st) + k') with (pos st + S k') by lia. }
  rewrite E. unfold lret. intros (f' & _ & _ & _ & _ & Ht & Hp).
  eexists _, _. split; [reflexivity|]. split; [exact Ht|exact Hp].
Qed.

Lemma train_loop_returns fuel n sets t d entries :
  fits_int32 n -> d <= fuel ->
  Forall (fun e => has_key sets (fst (fst e)) = true /\ fst (fst e) < n)
    entries ->
  forall p0,
    (forall e p, In e entries -> p0 <= p ->
       exists k, k < d /\
         (fst (fst e) =? node_at t n (p + k))
         || in_set_of sets (fst (fst e)) (node_at t n (p + k)) = false) ->
    forall acc st, tape st = t -> p0 <= pos st ->
      exists acc' st', train_loop fuel n sets entries acc st = (Returned acc', st').
Proof.
  intros Hf Hd HF p0. induction HF as [|[[i j] q] entries [Hk Hi] _ IH];
    intros Hacc [x y] st Ht Hp.
  - simpl. now eexists _, _.
  - destruct (Hacc (i, j, q) (pos st) (or_introl eq_refl) Hp)
      as (k & Hkd & Hk').
    cbn [fst] in Hk'. rewrite <- Ht in Hk'.
    destruct (@train_body_returns fuel n sets i j q x y st k Hf Hk Hi
                ltac:(lia) Hk') as (acc1 & st1 & E1 & Ht1 & Hp1).
    cbn [train_loop]. unfold lbind at 1. rewrite E1.
    apply IH; [|congruence|lia].
    intros e p He Hpp. apply Hacc; [now right|exact Hpp].
Qed.

(** The dictionary built from the matrix, and the entries that the loop
    goes through. *)
Lemma train_sets_spec mat :
  exists sets,
    build_sets (nonzero_pairs mat) [] = Some sets /\
    records sets (nonzero_pairs mat).
Proof.
  destruct (@build_sets_spec (nonzero_pairs mat) [] [] records_nil)
    as (sets & E & H).
  exists sets. split; [exact E|exact H].
Qed.

Lemma train_entries_sources mat sets :
  records sets (nonzero_pairs mat) ->
  Forall (fun e => has_key sets (fst (fst e)) = true /\
                   fst (fst e) < shape0 mat)
    (combine (nonzero_pairs mat) (data mat)).
Proof.
  intros [Hk _]. apply Forall_forall. intros [[i j] d] He.
  apply in_combine_l in He. cbn [fst]. split.
  - apply Hk. exists j. now left.
  - apply source_lt. now exists j.
Qed.

Lemma negative_of_iff mat sets i f :
  records sets (nonzero_pairs mat) ->
  negative_of mat i f <->
  f < shape0 mat /\ (i =? f) || in_set_of sets i f = false.
Proof.
  intros [_ Hs]. unfold negative_of, linked.
  rewrite orb_false_iff, Nat.eqb_neq, <- not_true_iff_false, Hs.
  intuition congruence.
Qed.

Lemma train_pairs_eq fuel mat sets :
  build_sets (nonzero_pairs mat) [] = Some sets ->
  train_pairs fuel mat
  = train_loop fuel (shape0 mat) sets
      (combine (nonzero_pairs mat) (data mat)) ([], []).
Proof.
  intros E. unfold train_pairs. cbv zeta. fold (nonzero_pairs mat).
  now rewrite E.
Qed.

Lemma train_entries_pairs mat :
  map fst (combine (nonzero_pairs mat) (data mat)) = nonzero_pairs mat.
Proof. apply map_fst_combine_le, length_nonzero_pairs. Qed.

(** X16 (generate_test_set_nodes, the dictionary [non_zer_sets_train]):
    for every matrix the loop that fills the dictionary ends without a
    KeyError, and the dictionary it leaves is the symmetric closure of
    the stored non-zero pairs: [v] is in the set of [k] exactly when the
    matrix has a non-zero entry at (k, v) or at (v, k), which is exactly
    when [k] is in the set of [v]; the keys are the nodes whose set is
    not empty. *)
Theorem train_sets_linked mat :
  exists sets,
    build_sets (nonzero_pairs mat) [] = Some sets /\
    forall k v,
      (in_set_of sets k v = true <-> linked mat k v) /\
      in_set_of sets k v = in_set_of sets v k /\
      (has_key sets k = true <-> exists w, in_set_of sets k w = true).
Proof.
  destruct (train_sets_spec mat) as (sets & E & Hk & Hs).
  exists sets. split; [exact E|]. intros k v. split; [|split].
  - unfold linked. apply Hs.
  - destruct (in_set_of sets k v) eqn:E1, (in_set_of sets v k) eqn:E2;
      try reflexivity.
    + apply Hs in E1. apply or_comm, Hs in E1. congruence.
    + apply Hs in E2. apply or_comm, Hs in E2. congruence.
  - rewrite Hk. split; intros (w & Hw); exists w; now apply Hs.
Qed.

(** X17 (generate_test_set_nodes, the loop over the train entries): for
    every matrix whose number of nodes is within the bounds of
    [np.int32] and every random state, the construction of the training
    pairs raises nothing: no KeyError from [non_zer_sets_train[false_i]]
    and no ValueError from [randint]; it returns its two lists or is
    still drawing when the fuel of the [while] loop is spent. *)
Theorem train_pairs_never_raises fuel mat st :
  fits_int32 (shape0 mat) ->
  (exists acc, fst (train_pairs fuel mat st) = Returned acc) \/
  fst (train_pairs fuel mat st) = Running.
Proof.
  intros Hfit. destruct (train_sets_spec mat) as (sets & E & Hr).
  rewrite (@train_pairs_eq fuel mat sets E).
  pose proof (@train_loop_inv fuel (shape0 mat) sets _
                (@train_entries_sources mat sets Hr) [] [] st) as H.
  destruct (train_loop fuel (shape0 mat) sets _ ([], []) st)
    as [[acc|e|] st'].
  - left. now exists acc.
  - now elim H.
  - now right.
Qed.

Lemma train_pairs_never_raises_witness :
  (exists acc,
     fst (train_pairs 3 two_node_matrix counting_state) = Returned acc) \/
  fst (train_pairs 3 two_node_matrix counting_state) = Running.
Proof.
  apply (@train_pairs_never_raises 3 two_node_matrix counting_state).
  unfold fits_int32, int32_high. simpl. lia.
Defined.

(** X18 (generate_test_set_nodes, [x_train] and [y_true_train]): when
    the construction returns, [x_train] holds, for each stored non-zero
    entry (i, j) in storage order, the pair (i, j) followed by a pair
    (i, f), and [y_true_train] holds true, false for them; every drawn
    [f] is a node of the matrix, differs from [i] and is linked with [i]
    in neither direction. *)
Theorem train_pairs_negatives fuel mat st x y :
  fst (train_pairs fuel mat st) = Returned (x, y) ->
  exists fs,
    length fs = length (nonzero_pairs mat) /\
    (x, y) = interleave (nonzero_pairs mat) fs /\
    Forall2 (fun ij f => negative_of mat (fst ij) f) (nonzero_pairs mat) fs.
Proof.
  destruct (train_sets_spec mat) as (sets & E & Hr).
  rewrite (@train_pairs_eq fuel mat sets E).
  pose proof (@train_loop_inv fuel (shape0 mat) sets _
                (@train_entries_sources mat sets Hr) [] [] st) as H.
  destruct (train_loop fuel (shape0 mat) sets _ ([], []) st)
    as [[[x' y']|e|] st']; cbn [fst]; intros Eq; inversion Eq; subst.
  destruct H as (fs & Hl & -> & -> & HF & _).
  rewrite train_entries_pairs in *. rewrite length_combine in Hl.
  pose proof (length_nonzero_pairs mat) as Hle.
  exists fs. split; [lia|]. split.
  - simpl. now destruct (interleave (nonzero_pairs mat) fs).
  - eapply Forall2_impl; [|exact HF]. intros ij f Hf. cbv beta in Hf.
    now apply (@negative_of_iff mat sets (fst ij) f Hr).
Qed.

Lemma train_pairs_negatives_witness :
  fst (train_pairs 1 linked_pair_matrix two_state)
  = Returned ([(0, 1); (0, 2); (1, 0); (1, 2)], [true; false; true; false]) /\
  exists fs,
    length fs = length (nonzero_pairs linked_pair_matrix) /\
    ([(0, 1); (0, 2); (1, 0); (1, 2)], [true; false; true; false])
    = interleave (nonzero_pairs linked_pair_matrix) fs /\
    Forall2 (fun ij f => negative_of linked_pair_matrix (fst ij) f)
      (nonzero_pairs linked_pair_matrix) fs.
Proof.
  split; [reflexivity|].
  apply (@train_pairs_negatives 1 linked_pair_matrix two_state). reflexivity.
Defined.

(** X19 (generate_test_set_nodes, the [while] loop of the train
    entries): when some node with a stored non-zero entry is linked with
    every other node of the matrix (whose number of nodes is within the
    bounds of [np.int32]), no node passes the test of the loop and the
    construction never returns: whatever the random state and however
    many tests the loop is given, it is still drawing. *)
Theorem train_pairs_hangs mat i :
  fits_int32 (shape0 mat) ->
  source mat i ->
  (forall f, f < shape0 mat -> f = i \/ linked mat i f) ->
  forall fuel st, fst (train_pairs fuel mat st) = Running.
Proof.
  intros Hfit (j & Hij) Hall fuel st.
  destruct (train_sets_spec mat) as (sets & E & Hr).
  rewrite (@train_pairs_eq fuel mat sets E).
  pose proof (@train_loop_inv fuel (shape0 mat) sets _
                (@train_entries_sources mat sets Hr) [] [] st) as H.
  destruct (train_loop fuel (shape0 mat) sets _ ([], []) st)
    as [[[x y]|e|] st']; [|now elim H|reflexivity].
  destruct H as (fs & _ & _ & _ & HF & _).
  rewrite train_entries_pairs in HF.
  destruct (@Forall2_In_l _ _ _ _ _ (i, j) HF Hij) as (f & _ & Hf). cbn [fst] in Hf.
  apply (@negative_of_iff mat sets i f Hr) in Hf.
  destruct Hf as (Hlt & Hne & Hnl).
  destruct (Hall f Hlt) as [->|Hl]; [now elim Hne|now elim Hnl].
Qed.

Lemma train_pairs_hangs_witness :
  source two_node_matrix 0 /\
  (forall f, f < shape0 two_node_matrix ->
     f = 0 \/ linked two_node_matrix 0 f) /\
  forall fuel st, fst (train_pairs fuel two_node_matrix st) = Running.
Proof.
  assert (Hs : source two_node_matrix 0) by (exists 1; left; reflexivity).
  assert (Hall : forall f, f < shape0 two_node_matrix ->
                   f = 0 \/ linked two_node_matrix 0 f).
  { intros [|[|f]] Hf; [now left|right; left; left; reflexivity|].
    unfold shape0, two_node_matrix in Hf. simpl in Hf. lia. }
  split; [exact Hs|]. split; [exact Hall|].
  apply (@train_pairs_hangs two_node_matrix 0); [|exact Hs|exact Hall].
  unfold fits_int32, int32_high. simpl. lia.
Defined.

(** X20 (generate_test_set_nodes, the loop over the train entries): the
    construction returns as soon as the draws allow it: when the number
    of nodes is within the bounds of [np.int32] and, for every node [i]
    with a stored non-zero entry, every run of [d] successive
    draws of the random state holds a node other than [i] and not linked
    with [i], [d] tests of each [while] loop are enough and the two lists
    are returned. *)
Theorem train_pairs_returns mat st d fuel :
  fits_int32 (shape0 mat) ->
  (forall i p, source mat i -> pos st <= p ->
     exists k, k < d /\
       negative_of mat i (node_at (tape st) (shape0 mat) (p + k))) ->
  d <= fuel ->
  exists acc st', train_pairs fuel mat st = (Returned acc, st').
Proof.
  intros Hfit Hacc Hd.
  destruct (train_sets_spec mat) as (sets & E & Hr).
  rewrite (@train_pairs_eq fuel mat sets E).
  apply (@train_loop_returns fuel (shape0 mat) sets (tape st) d _ Hfit Hd
           (@train_entries_sources mat sets Hr) (pos st));
    [|reflexivity|lia].
  intros [[i j] q] p He Hp. apply in_combine_l in He. cbn [fst].
  destruct (Hacc i p (ex_intro _ j He) Hp) as (k & Hk & Hn).
  exists k. split; [exact Hk|].
  now apply (@negative_of_iff mat sets i _ Hr) in Hn.
Qed.

Lemma train_pairs_returns_witness :
  exists acc st',
    train_pairs 1 linked_pair_matrix two_state = (Returned acc, st').
Proof.
  apply (@train_pairs_returns linked_pair_matrix two_state 1 1);
    [unfold fits_int32, int32_high; simpl; lia| |lia].
  intros i p (j & Hij) _. exists 0. split; [lia|].
  assert (Hi : i = 0 \/ i = 1).
  { destruct Hij as [H|[H|[]]]; inversion H; auto. }
  split; [vm_compute; lia|]. split.
  - vm_compute. destruct Hi; subst; discriminate.
  - intros [H|H]; vm_compute in H; destruct Hi; subst;
      repeat (destruct H as [H|H]; try discriminate H); exact H.
Defined.

(** ** The test pairs of the link prediction *)

Lemma In_flatnonzero mask k :
  In k (flatnonzero mask) <-> kept mask k = true.
Proof.
  unfold flatnonzero, kept. rewrite filter_In, in_seq. split.
  - intros [[_ Hk] Hn]. simpl in Hk.
    destruct (nth_error mask k) as [b|] eqn:E.
    + rewrite (nth_error_nth _ _ false E) in Hn. now subst.
    + apply nth_error_None in E. lia.
  - destruct (nth_error mask k) as [[|]|] eqn:E; try discriminate.
    intros _. split.
    + split; [lia|]. simpl. apply nth_error_Some. congruence.
    + apply (nth_error_nth _ _ false E).
Qed.

Lemma kept_logical_not mask k : kept (logical_not mask) k = unkept mask k.
Proof.
  unfold kept, unkept, logical_not. rewrite nth_error_map.
  now destruct (nth_error mask k) as [[|]|].
Qed.

Lemma choice_spec a st :
  a <> [] ->
  exists v,
    In v a /\
    choice a st = (Returned v, mkRandomState (tape st) (S (pos st))).
Proof.
  intros Ha. destruct a as [|a0 a]; [contradiction|].
  assert (Hn : 0 < length (a0 :: a)) by (simpl; lia).
  unfold choice, lbind. rewrite (@randint_scalar_eq _ st Hn).
  eexists. split; [|reflexivity].
  apply nth_In. now apply node_at_lt.
Qed.

Lemma choice_empty st : choice [] st = (Raised (Numpy ValueError), st).
Proof. reflexivity. Qed.

Lemma rejected_false sets i f :
  rejected sets i f = Returned false ->
  i <> f /\ in_set_of sets i f = false.
Proof.
  unfold rejected, in_set_of. destruct (Nat.eqb_spec i f); [discriminate|].
  destruct (lookup sets i); [|discriminate].
  intros E. inversion E. now split.
Qed.

Lemma rejected_raised sets i f e :
  rejected sets i f = Raised e -> has_key sets i = false.
Proof.
  unfold rejected, has_key. destruct (i =? f); [discriminate|].
  destruct (lookup sets i); [discriminate|reflexivity].
Qed.

(** What the [while] loop of the test pairs leaves: when it ends, a pair
    that passes its test, the pair it started from or two nodes of
    [keep_mask_nonzero]; an exception only when a node that it reads in
    the dictionary is not a key or when there is nothing to draw from. *)
Lemma resample_inv sets keep_mask_nonzero fuel :
  forall false_i false_j st,
    match resample fuel sets keep_mask_nonzero false_i false_j st with
    | (Returned f, _) =>
        rejected sets (fst f) (snd f) = Returned false /\
        (f = (false_i, false_j) \/
         (In (fst f) keep_mask_nonzero /\ In (snd f) keep_mask_nonzero))
    | (Raised _, _) =>
        ~ (has_key sets false_i = true /\ keep_mask_nonzero <> [] /\
           Forall (fun k => has_key sets k = true) keep_mask_nonzero)
    | (Running, _) => True
    end.
Proof.
  induction fuel as [|fuel IH]; intros fi fj st; [exact I|].
  cbn [resample]. destruct (rejected sets fi fj) as [[|]|e|] eqn:E.
  - destruct keep_mask_nonzero as [|k0 ks] eqn:Ek.
    + unfold lbind. rewrite choice_empty. intros (_ & H & _). now apply H.
    + rewrite <- Ek in *.
      assert (Hne : keep_mask_nonzero <> []) by (rewrite Ek; discriminate).
      unfold lbind at 1.
      destruct (@choice_spec keep_mask_nonzero st Hne) as (fi' & Hfi & ->).
      unfold lbind at 1.
      destruct (@choice_spec keep_mask_nonzero
                  (mkRandomState (tape st) (S (pos st))) Hne)
        as (fj' & Hfj & ->).
      specialize (IH fi' fj'
                    (mkRandomState
                       (tape (mkRandomState (tape st) (S (pos st))))
                       (S (pos (mkRandomState (tape st) (S (pos st))))))).
      destruct (resample fuel sets keep_mask_nonzero fi' fj' _)
        as [[f|e|] st']; [| |exact I].
      * destruct IH as (Hr & [->|Hin]); (split; [exact Hr|right]);
          [now split|exact Hin].
      * intros (_ & H1 & H2). apply IH. split; [|now split].
        rewrite Forall_forall in H2. now apply H2.
  - unfold lret. cbn [fst snd]. split; [exact E|now left].
  - apply rejected_raised in E. intros (H & _). congruence.
  - exact I.
Qed.

Lemma weave_cons p l q negs :
  weave (p :: l) (q :: negs)
  = (p :: q :: fst (weave l negs), true :: false :: snd (weave l negs)).
Proof. simpl. now destruct (weave l negs). Qed.

Lemma test_body_inv fuel sets mask i j (d : Q) x y st :
  match test_body fuel sets mask (flatnonzero mask)
          (flatnonzero (logical_not mask)) (i, j, d) (x, y) st with
  | (Returned (x', y'), st') =>
      if unkept mask i && unkept mask j then
        exists q,
          x' = x ++ [(i, j); q] /\ y' = y ++ [true; false] /\
          rejected sets (fst q) (snd q) = Returned false /\
          ((fst q = i /\ unkept mask (snd q) = true) \/
           (kept mask (fst q) = true /\ kept mask (snd q) = true))
      else x' = x /\ y' = y /\ st' = st
  | (Raised _, _) =>
      ~ (i < length mask /\ j < length mask /\ has_key sets i = true /\
         (exists k, kept mask k = true) /\
         (forall k, kept mask k = true -> has_key sets k = true))
  | (Running, _) => True
  end.
Proof.
  unfold test_body, mask_at. unfold lbind at 1.
  assert (Hnone : forall k, nth_error mask k = None -> ~ k < length mask).
  { intros k E. apply nth_error_None in E. lia. }
  destruct (nth_error mask i) as [[|]|] eqn:Ei.
  - unfold unkept at 1. rewrite Ei. now cbn.
  - unfold lbind at 1. destruct (nth_error mask j) as [[|]|] eqn:Ej.
    + unfold unkept. rewrite Ei, Ej. now cbn.
    + assert (Hi : unkept mask i = true) by (unfold unkept; now rewrite Ei).
      assert (Hj : unkept mask j = true) by (unfold unkept; now rewrite Ej).
      rewrite Hi, Hj. cbn [andb].
      assert (Hne : flatnonzero (logical_not mask) <> []).
      { intros E. assert (H : In i (flatnonzero (logical_not mask)))
          by (apply In_flatnonzero; now rewrite kept_logical_not).
        rewrite E in H. destruct H. }
      unfold lbind at 1.
      destruct (@choice_spec _ st Hne) as (fj & Hfj & ->).
      apply In_flatnonzero in Hfj. rewrite kept_logical_not in Hfj.
      unfold lbind at 1.
      pose proof (@resample_inv sets (flatnonzero mask) fuel i fj
                    (mkRandomState (tape st) (S (pos st)))) as H.
      destruct (resample fuel sets (flatnonzero mask) i fj _)
        as [[f|e|] st']; [| |exact I].
      * unfold lret. destruct H as (Hr & Hf). exists f.
        rewrite <- !app_assoc. cbn [app]. rewrite <- surjective_pairing.
        repeat split; [exact Hr|].
        destruct Hf as [->|[H1 H2]]; [left; now split|right].
        now rewrite <- !In_flatnonzero.
      * intros (_ & _ & Hk & (k & Hkept) & Hall). apply H.
        split; [exact Hk|]. split.
        -- intros E. apply In_flatnonzero in Hkept. rewrite E in Hkept.
           destruct Hkept.
        -- apply Forall_forall. intros k' Hk'. apply Hall.
           now apply In_flatnonzero.
    + intros (_ & Hj & _). now apply (Hnone j Ej).
  - intros (Hi & _). now apply (Hnone i Ei).
Qed.

Lemma test_loop_inv fuel sets mask entries :
  forall x0 y0 st,
    match test_loop fuel sets mask (flatnonzero mask)
            (flatnonzero (logical_not mask)) entries (x0, y0) st with
    | (Returned (x, y), _) =>
        exists negs,
          let sel := filter (fun ij => unkept mask (fst ij) &&
                                       unkept mask (snd ij))
                       (map fst entries) in
          length negs = length sel /\
          x = x0 ++ fst (weave sel negs) /\
          y = y0 ++ snd (weave sel negs) /\
          Forall2 (fun p q =>
                     rejected sets (fst q) (snd q) = Returned false /\
                     ((fst q = fst p /\ unkept mask (snd q) = true) \/
                      (kept mask (fst q) = true /\
                       kept mask (snd q) = true)))
            sel negs
    | (Raised _, _) =>
        ~ (Forall (fun e => fst (fst e) < length mask /\
                            snd (fst e) < length mask /\
                            has_key sets (fst (fst e)) = true) entries /\
           (exists k, kept mask k = true) /\
           (forall k, kept mask k = true -> has_key sets k = true))
    | (Running, _) => True
    end.
Proof.
  induction entries as [|[[i j] d] entries IH]; intros x0 y0 st.
  - simpl. exists []. rewrite !app_nil_r. repeat split. constructor.
  - cbn [test_loop]. unfold lbind at 1.
    pose proof (@test_body_inv fuel sets mask i j d x0 y0 st) as Hb.
    destruct (test_body fuel sets mask _ _ (i, j, d) (x0, y0) st)
      as [[[x1 y1]|e|] st1]; [| |exact I].
    + specialize (IH x1 y1 st1).
      destruct (test_loop fuel sets mask _ _ entries (x1, y1) st1)
        as [[[x y]|e|] st']; [| |exact I].
      * destruct IH as (negs & Hl & -> & -> & HF).
        cbn [map filter fst snd]. cbv zeta in *.
        destruct (unkept mask i && unkept mask j).
        -- destruct Hb as (q & -> & -> & Hr & Hq).
           exists (q :: negs). rewrite weave_cons. cbn [fst snd length].
           rewrite <- !app_assoc. cbn [app].
           repeat split; [now rewrite Hl|].
           constructor; [|exact HF]. split; [exact Hr|exact Hq].
        -- destruct Hb as (-> & -> & _). exists negs.
           repeat split; [exact Hl|exact HF].
      * intros (HFa & Hk & Hall). apply IH. inversion HFa; subst.
        now repeat split.
    + intros (HFa & Hk & Hall). apply Hb. inversion HFa as [|? ? H1 H2]; subst.
      cbn [fst snd] in H1. destruct H1 as (H1 & H1' & H1'').
      now repeat split.
Qed.

Lemma test_pairs_eq fuel mask mat sets :
  build_sets (nonzero_pairs mat) [] = Some sets ->
  test_pairs fuel mask mat
  = test_loop fuel sets mask (flatnonzero mask)
      (flatnonzero (logical_not mask))
      (combine (nonzero_pairs mat) (data mat)) ([], []).
Proof.
  intros E. unfold test_pairs. cbv zeta. fold (nonzero_pairs mat).
  now rewrite E.
Qed.

Lemma tocoo_from_cols n i mat :
  forallb (forallb (fun e => fst e <? n)) mat = true ->
  Forall (fun e => snd (fst e) < n) (tocoo_from i mat).
Proof.
  revert i; induction mat as [|r mat IH]; intros i H; simpl in *;
    [constructor|].
  apply andb_true_iff in H. destruct H as [Hr Hm].
  apply Forall_app. split; [|now apply IH].
  apply Forall_map. rewrite forallb_forall in Hr.
  apply Forall_forall. intros e He. simpl. apply Nat.ltb_lt. now apply Hr.
Qed.

Lemma target_lt mat i j :
  square mat = true -> In (i, j) (nonzero_pairs mat) -> j < shape0 mat.
Proof.
  intros Hsq H. rewrite nonzero_pairs_tocoo in H.
  apply in_map_iff in H. destruct H as (e & E & He).
  apply filter_In in He. destruct He as [He _].
  pose proof (@tocoo_from_cols (shape0 mat) 0 mat Hsq) as Hc.
  rewrite Forall_forall in Hc. specialize (Hc e He).
  inversion E; subst. exact Hc.
Qed.

Lemma test_loop_skips fuel sets mask kept_nodes other_nodes entries :
  Forall (fun e => kept mask (fst (fst e)) = true) entries ->
  forall acc st,
    test_loop fuel sets mask kept_nodes other_nodes entries acc st
    = (Returned acc, st).
Proof.
  induction 1 as [|[[i j] d] entries Hi _ IH]; intros [x y] st;
    [reflexivity|].
  cbn [test_loop]. unfold lbind at 1, test_body, mask_at. unfold lbind at 1.
  cbn [fst] in Hi. unfold kept in Hi.
  destruct (nth_error mask i) as [[|]|]; try discriminate.
  unfold lret. apply IH.
Qed.

(** X21 (generate_test_set_nodes, [x_test] and [y_true]): when the
    construction of the test pairs returns, [x_test] holds, for each
    stored non-zero entry (i, j) whose two nodes are marked False in
    [keep_mask], in storage order, the pair (i, j) followed by a false
    pair, and [y_true] holds true, false for them.  The false pair is
    made of two different nodes that are not linked; it is either the
    source [i] with a node marked False or, once the first draw was
    refused, two nodes marked True, since the loop draws both again from
    [keep_mask_nonzero]. *)
Theorem test_pairs_negatives fuel mask mat st x y :
  fst (test_pairs fuel mask mat st) = Returned (x, y) ->
  exists negs,
    length negs = length (test_edges mask mat) /\
    (x, y) = weave (test_edges mask mat) negs /\
    Forall2 (test_negative mask mat) (test_edges mask mat) negs.
Proof.
  destruct (train_sets_spec mat) as (sets & E & Hr).
  rewrite (@test_pairs_eq fuel mask mat sets E).
  pose proof (@test_loop_inv fuel sets mask
                (combine (nonzero_pairs mat) (data mat)) [] [] st) as H.
  destruct (test_loop fuel sets mask _ _ _ ([], []) st)
    as [[[x' y']|e|] st']; cbn [fst]; intros Eq; inversion Eq; subst.
  destruct H as (negs & H). cbv zeta in H. rewrite train_entries_pairs in H.
  fold (test_edges mask mat) in H. destruct H as (Hl & -> & -> & HF).
  exists negs. split; [exact Hl|]. split.
  - simpl. now destruct (weave (test_edges mask mat) negs).
  - eapply Forall2_impl; [|exact HF]. intros p q (Hrej & Hq).
    apply rejected_false in Hrej. destruct Hrej as [Hne Hin].
    split; [exact Hne|]. split; [|exact Hq].
    intros Hl'. apply (proj2 Hr) in Hl'. congruence.
Qed.

Lemma test_pairs_negatives_witness :
  fst (test_pairs 2 last_two_mask four_node_matrix counting_state)
  = Returned ([(0, 1); (3, 2); (1, 0); (2, 3)], [true; false; true; false]) /\
  exists negs,
    length negs = length (test_edges last_two_mask four_node_matrix) /\
    ([(0, 1); (3, 2); (1, 0); (2, 3)], [true; false; true; false])
    = weave (test_edges last_two_mask four_node_matrix) negs /\
    Forall2 (test_negative last_two_mask four_node_matrix)
      (test_edges last_two_mask four_node_matrix) negs.
Proof.
  split; [reflexivity|].
  apply (@test_pairs_negatives 2 last_two_mask four_node_matrix
           counting_state).
  reflexivity.
Defined.

(** X22 (generate_test_set_nodes, the loop over the entries of the whole
    matrix): over a square matrix with a mask of its length, when some
    node is marked True and every node marked True has a link, the
    construction of the test pairs raises nothing: no IndexError from
    [keep_mask], no ValueError from [np.random.choice] and no KeyError
    from [non_zer_sets[false_i]]. *)
Theorem test_pairs_never_raises fuel mask mat st :
  length mask = shape0 mat ->
  square mat = true ->
  (exists k, kept mask k = true) ->
  (forall k, kept mask k = true -> exists v, linked mat k v) ->
  (exists acc, fst (test_pairs fuel mask mat st) = Returned acc) \/
  fst (test_pairs fuel mask mat st) = Running.
Proof.
  intros Hlen Hsq Hk Hall.
  destruct (train_sets_spec mat) as (sets & E & Hr).
  rewrite (@test_pairs_eq fuel mask mat sets E).
  pose proof (@test_loop_inv fuel sets mask
                (combine (nonzero_pairs mat) (data mat)) [] [] st) as H.
  destruct (test_loop fuel sets mask _ _ _ ([], []) st)
    as [[acc|e|] st']; [left; now exists acc| |now right].
  exfalso. apply H. split; [|split; [exact Hk|]].
  - apply Forall_forall. intros [[i j] d] He. apply in_combine_l in He.
    cbn [fst snd]. rewrite Hlen. split; [|split].
    + apply source_lt. now exists j.
    + now apply (@target_lt mat i j Hsq).
    + apply (proj1 Hr). exists j. now left.
  - intros k Hkept. apply (proj1 Hr). exact (Hall k Hkept).
Qed.

Lemma test_pairs_never_raises_witness :
  (exists acc,
     fst (test_pairs 2 last_two_mask four_node_matrix counting_state)
     = Returned acc) \/
  fst (test_pairs 2 last_two_mask four_node_matrix counting_state) = Running.
Proof.
  apply (@test_pairs_never_raises 2 last_two_mask four_node_matrix
           counting_state); [reflexivity|reflexivity| |].
  - exists 2. reflexivity.
  - intros [|[|[|[|k]]]] Hk; try discriminate Hk.
    + exists 0. left. right. right. left. reflexivity.
    + exists 1. left. right. right. right. left. reflexivity.
    + destruct k; discriminate Hk.
Defined.

(** X23 (generate_test_set_nodes, the loop over the entries of the whole
    matrix): when every node with a stored non-zero entry is marked True
    in [keep_mask], no entry is a test pair: [x_test] and [y_true] are
    returned empty and nothing is drawn from the random state. *)
Theorem test_pairs_all_kept fuel mask mat st :
  (forall i, source mat i -> kept mask i = true) ->
  test_pairs fuel mask mat st = (Returned ([], []), st).
Proof.
  intros Hall.
  destruct (train_sets_spec mat) as (sets & E & _).
  rewrite (@test_pairs_eq fuel mask mat sets E).
  apply test_loop_skips. apply Forall_forall.
  intros [[i j] d] He. apply in_combine_l in He. cbn [fst].
  apply Hall. now exists j.
Qed.

Lemma test_pairs_all_kept_witness :
  test_pairs 0 [true; false] example_matrix two_state
  = (Returned ([], []), two_state).
Proof.
  apply (@test_pairs_all_kept 0 [true; false] example_matrix two_state).
  intros i (j & [H|[]]). inversion H. reflexivity.
Defined.
